(** * Fractal Cortex: the slicing engine of [slicing_functions.py]

    A shallow embedding of the multi-directional slicing and path-generation
    engine, and the properties its specification states about it.

    Conventions of the embedding.
    - Python floats are idealised as exact numbers: rationals ([Q], [Qc])
      where the code only adds, rounds and compares, reals ([R]) where it
      takes square roots and divides by pi.  Only the head/bed collision
      check, which divides by a sine that can be zero, keeps the infinities
      and NaN of the doubles.
    - A Python exception is a value [Raise e] of [Outcome]; [try/except] is
      [try_except].  Functions that [print] thread what has been printed
      ([IO]).
    - The planar-geometry library (shapely) is not code of this repository:
      the geometry repair utilities and the area classifier are parametric
      in its operations ([Shapely]), each of which may raise.  The mesh
      library (trimesh) is read on sets of voxels. *)

From Stdlib Require Import ZArith QArith Qround Qminmax Qabs Qcanon Lia.
From Stdlib Require Import Reals Lra Machin.
From stdpp Require Import gmap strings list.

Local Open Scope Z_scope.

(** ** Exceptions and outcomes *)

Inductive exn : Type :=
  | IndexError
  | KeyError
  | ValueError
  | AttributeError
  | UnboundLocalError
  | LibraryError (msg : string).

Inductive Outcome (A : Type) : Type :=
  | Ok (a : A)
  | Raise (e : exn).
Arguments Ok {A} a.
Arguments Raise {A} e.

Definition obind {A B} (m : Outcome A) (f : A → Outcome B) : Outcome B :=
  match m with
  | Ok a => f a
  | Raise e => Raise e
  end.

Definition try_except {A} (m : Outcome A) (handler : exn → Outcome A) : Outcome A :=
  match m with
  | Ok a => Ok a
  | Raise e => handler e
  end.

#[global] Instance outcome_ret : MRet Outcome := @Ok.
#[global] Instance outcome_bind : MBind Outcome := fun A B f m => obind m f.

(** [for x in xs: acc = body(acc, x)], stopping at the first exception. *)
Fixpoint for_each {A S} (body : S → A → Outcome S) (xs : list A) (s : S) : Outcome S :=
  match xs with
  | [] => Ok s
  | x :: rest => s' ← body s x; for_each body rest s'
  end.

(** [list[i]] with Python's negative indices. *)
Definition py_getitem {A} (l : list A) (i : Z) : Outcome A :=
  let n := Z.of_nat (length l) in
  let j := if i <? 0 then i + n else i in
  if (0 <=? j) && (j <? n) then
    match l !! Z.to_nat j with
    | Some a => Ok a
    | None => Raise IndexError
    end
  else Raise IndexError.

(** [list.remove(x)]: drops the first element equal to [x]. *)
Fixpoint py_remove `{EqDecision A} (x : A) (l : list A) : Outcome (list A) :=
  match l with
  | [] => Raise ValueError
  | y :: rest =>
      if decide (y = x) then Ok rest
      else rest' ← py_remove x rest; Ok (y :: rest')
  end.

(** [list.pop(i)], the popped element dropped. *)
Definition py_pop {A} (l : list A) (i : nat) : Outcome (list A) :=
  if decide (i < length l)%nat then Ok (delete i l) else Raise IndexError.

(** [for _ in range(n): s = step(s)] *)
Fixpoint iterate {S} (n : nat) (step : S → Outcome S) (s : S) : Outcome S :=
  match n with
  | O => Ok s
  | Datatypes.S n' => s' ← step s; iterate n' step s'
  end.

(** [range(lo, hi)] *)
Definition py_range (lo hi : Z) : list Z := seqZ lo (hi - lo).

(** ** Numbers *)

(** [round(x, ndigits)]: to the nearest multiple of [10^-ndigits], ties to
    even. *)
Definition py_round (x : Q) (ndigits : nat) : Q :=
  let scale := inject_Z (10 ^ Z.of_nat ndigits) in
  let y := (x * scale)%Q in
  let f := Qfloor y in
  let frac := (y - inject_Z f)%Q in
  let r :=
    match (frac ?= 1 # 2)%Q with
    | Lt => f
    | Gt => f + 1
    | Eq => if Z.even f then f else f + 1
    end in
  Qred (inject_Z r / scale)%Q.

(** [np.arange(start, stop, step)] for a positive step: the values
    [start + i * step] below [stop].  Their number is the ceiling of the
    exact quotient [(stop - start) / step]; numpy takes the ceiling of the
    quotient of the doubles, which is the same where the doubles hold the
    three numbers exactly ([exact_double] below; 0, 10 and 1.0 are such)
    and can differ by one elsewhere (21.0 / 0.35 is 60.00000000000001 in
    doubles). *)
Definition np_arange (start stop step : Q) : list Q :=
  let n := Qceiling ((stop - start) / step)%Q in
  map (fun i => Qred (start + inject_Z i * step)%Q) (seqZ 0 n).

(** ** Slice levels (single-direction pipeline)

    [slice_in_3_axes], from the mesh bounds to the global [slice_levels]. *)
Module SliceLevels.

Definition z_extents (meshBottom meshTop : Q) : Q * Q :=
  if Qle_bool meshBottom 0 then (0%Q, meshTop) else (meshBottom, meshTop).

(** The nozzle z-levels. *)
Definition z_levels (meshBottom meshTop layerHeight : Q) : list Q :=
  let '(lo, hi) := z_extents meshBottom meshTop in
  np_arange lo hi layerHeight.

(** The levels at which the mesh is cut, before the first one is removed. *)
Definition nominal_slice_levels (meshBottom meshTop layerHeight : Q) : list Q :=
  map (fun z => py_round (z - layerHeight / 2)%Q 5)
      (z_levels meshBottom meshTop layerHeight).

(** [del slice_levels[0]] *)
Definition del_first {A} (l : list A) : Outcome (list A) :=
  match l with
  | [] => Raise IndexError
  | _ :: rest => Ok rest
  end.

Definition slice_levels (meshBottom meshTop layerHeight : Q) : Outcome (list Q) :=
  del_first (nominal_slice_levels meshBottom meshTop layerHeight).

End SliceLevels.

(** A number that the doubles hold exactly, with room to spare: a multiple
    of 2^-20 smaller than 4096.  For a start, a stop and a step of this
    kind every difference, product and sum that [np.arange] and
    [z - layerHeight / 2] form is exact in doubles, and the quotient of the
    doubles has the ceiling of the exact quotient. *)
Definition exact_double (x : Q) : Prop :=
  ∃ a : Z, Z.abs a < 2 ^ 32 ∧ (x == a # 2 ^ 20)%Q.


(** ** Infill path ordering

    Coordinates are exact rationals in canonical form ([Qc]), so that
    Python's [==] on coordinate tuples is equality.  [np.argmin] only needs
    the order of the distances: the model compares squared Euclidean
    distances, which are ordered as the distances are. *)

Definition Point : Type := (Qc * Qc)%type.

(** A [LineString], by its coordinate sequence [.coords]. *)
Definition LineString : Type := list Point.

Definition sq (x : Qc) : Qc := (x * x)%Qc.

(** [Point.distance(Point)], squared. *)
Definition point_distance2 (p q : Point) : Qc :=
  (sq (p.1 - q.1) + sq (p.2 - q.2))%Qc.

Definition Qc_min (x y : Qc) : Qc := if decide (x ≤ y)%Qc then x else y.
Definition Qc_max (x y : Qc) : Qc := if decide (x ≤ y)%Qc then y else x.

(** Squared distance from [p] to the segment from [a] to [b]: to the foot of
    the perpendicular when it falls inside the segment, to the nearer end
    otherwise. *)
Definition segment_distance2 (p a b : Point) : Qc :=
  let dx := (b.1 - a.1)%Qc in
  let dy := (b.2 - a.2)%Qc in
  let len2 := (sq dx + sq dy)%Qc in
  if decide (len2 = 0%Qc) then point_distance2 p a
  else
    let t := (((p.1 - a.1) * dx + (p.2 - a.2) * dy) / len2)%Qc in
    let t' := Qc_max 0 (Qc_min 1 t) in
    point_distance2 p ((a.1 + t' * dx)%Qc, (a.2 + t' * dy)%Qc).

(** [Point.distance(LineString)], squared: the least distance to one of the
    consecutive segments (0 for no coordinates at all, which the filter on
    the length of the infill lines rules out). *)
Fixpoint line_distance2 (p : Point) (coords : LineString) : Qc :=
  match coords with
  | [] => 0%Qc
  | a :: rest =>
      match rest with
      | [] => point_distance2 p a
      | b :: [] => segment_distance2 p a b
      | b :: _ => Qc_min (segment_distance2 p a b) (line_distance2 p rest)
      end
  end.

(** [np.argmin]: the index of the first occurrence of the minimum; an empty
    sequence raises. *)
Fixpoint argmin_from (best : Qc) (besti : nat) (i : nat) (l : list Qc) : nat :=
  match l with
  | [] => besti
  | x :: rest =>
      if decide (x < best)%Qc then argmin_from x i (S i) rest
      else argmin_from best besti (S i) rest
  end.

Definition np_argmin (l : list Qc) : Outcome nat :=
  match l with
  | [] => Raise ValueError
  | x :: rest => Ok (argmin_from x 0%nat 1%nat rest)
  end.

Definition get_infill_start_location_for_one_layer
    (infillLineStrings : list LineString) (finalShellPoint : Point)
    : Outcome (nat * LineString * Point) :=
  let euclidianDistances := map (line_distance2 finalShellPoint) infillLineStrings in
  nearestLineIndex ← np_argmin euclidianDistances;
  nearestLine ← py_getitem infillLineStrings (Z.of_nat nearestLineIndex);
  let nearestLinePointDistances := map (point_distance2 finalShellPoint) nearestLine in
  nearestLineNearestPointIndex ← np_argmin nearestLinePointDistances;
  nearestLineNearestPoint ← py_getitem nearestLine (Z.of_nat nearestLineNearestPointIndex);
  Ok (nearestLineIndex, nearestLine, nearestLineNearestPoint).

(** The variables the loop of [optimize_infill_paths_for_one_layer] updates;
    [infillLineStrings] is the caller's list, consumed in place. *)
Record OptimizerState : Type := {
  infillLineStrings : list LineString;
  visitedLineIndex : nat;
  previousTailPoint : Point;
  optimizedInfillPath : list (list LineString)
}.

Definition optimize_step (s : OptimizerState) : Outcome OptimizerState :=
  remainingLines ← py_pop (infillLineStrings s) (visitedLineIndex s);
  let euclidianDistances := map (line_distance2 (previousTailPoint s)) remainingLines in
  nearestLineIndex ← np_argmin euclidianDistances;
  nearestLine ← py_getitem remainingLines (Z.of_nat nearestLineIndex);
  let nearestLinePointDistances := map (point_distance2 (previousTailPoint s)) nearestLine in
  nearestLineNearestPointIndex ← np_argmin nearestLinePointDistances;
  nearestLineNearestPoint ← py_getitem nearestLine (Z.of_nat nearestLineNearestPointIndex);
  let nearestLineFarthestPointIndex :=
    if decide (nearestLineNearestPointIndex = 0%nat) then 1 else 0 in
  nearestLineFarthestPoint ← py_getitem nearestLine nearestLineFarthestPointIndex;
  Ok {| infillLineStrings := remainingLines;
        visitedLineIndex := nearestLineIndex;
        previousTailPoint := nearestLineFarthestPoint;
        optimizedInfillPath :=
          optimizedInfillPath s ++ [[[nearestLineNearestPoint; nearestLineFarthestPoint]]] |}.

Definition optimize_infill_paths_for_one_layer
    (firstLineIndex : nat) (firstLine : LineString) (firstLineStartPoint : Point)
    (lines : list LineString) : Outcome (list (list LineString)) :=
  coords ← py_remove firstLineStartPoint firstLine;
  firstLineEndPoint ← py_getitem coords 0;
  s ← iterate (length lines - 1) optimize_step
        {| infillLineStrings := lines;
           visitedLineIndex := firstLineIndex;
           previousTailPoint := firstLineEndPoint;
           optimizedInfillPath := [[[firstLineStartPoint; firstLineEndPoint]]] |};
  Ok (optimizedInfillPath s).

(** The two steps as [get_solid_infill_for_one_layer] and
    [get_internal_infill_for_one_layer] chain them for a nonempty list. *)
Definition optimized_infill_for_one_layer
    (lines : list LineString) (finalShellPoint : Point)
    : Outcome (list (list LineString)) :=
  match lines with
  | [] => Ok []
  | _ =>
      '(firstLineIndex, firstLine, firstLineStartPoint) ←
        get_infill_start_location_for_one_layer lines finalShellPoint;
      optimize_infill_paths_for_one_layer firstLineIndex firstLine firstLineStartPoint lines
  end.

(** What the ordering is expected to keep: [out] lists the segments of
    [input], each once, in some order, each possibly end for end. *)
Definition same_segment (o l : LineString) : Prop := o = l ∨ o = reverse l.

Definition uses_each_once (out input : list LineString) : Prop :=
  ∃ order, order ≡ₚ input ∧ Forall2 same_segment out order.

Definition two_point (l : LineString) : Prop := length l = 2%nat.

(** A point with integer coordinates. *)
Definition pt (x y : Z) : Point := (Q2Qc (inject_Z x), Q2Qc (inject_Z y)).

(** The start the specification describes: no end of any candidate segment
    is nearer the reference point than the chosen one. *)
Definition starts_at_nearest_endpoint
    (lines : list LineString) (finalShellPoint : Point) : Prop :=
  ∀ i line start,
    get_infill_start_location_for_one_layer lines finalShellPoint = Ok (i, line, start) →
    ∀ l q, l ∈ lines → q ∈ l →
      (point_distance2 finalShellPoint start ≤ point_distance2 finalShellPoint q)%Qc.

(** ** G-code emission: the extrusion axis

    [transcribe_pathPoints_to_gcode], the closure of [write_3_axis_gcode]
    and of [write_5_axis_gcode] that turns one path into moves.  Numbers are
    reals; a line of G-code is a command with its numeric fields, before
    [str] formats them. *)

Inductive gcommand : Type :=
  | G1_E (F E : R) (comment : string)      (* G1 F.. E.. ; comment *)
  | G0_Z (F Z : R)                         (* G0 F.. Z.. *)
  | G0_XY (F X Y : R)                      (* G0 F.. X.. Y.. *)
  | G1_XYE (F X Y E : R).                  (* G1 F.. X.. Y.. E.. *)

(** [round(x, ndigits)] on reals. *)
Definition round_half_even (y : R) : Z :=
  let f := Zfloor y in
  let frac := (y - IZR f)%R in
  if Rlt_dec frac (1 / 2) then f
  else if Rlt_dec (1 / 2) frac then f + 1
  else if Z.even f then f else f + 1.

Definition round_R (x : R) (ndigits : nat) : R :=
  (IZR (round_half_even (x * 10 ^ ndigits)) / 10 ^ ndigits)%R.

(** The variables of the enclosing writer that the closure reads. *)
Record WriterContext : Type := {
  enableRetraction : bool;
  enableZHop : bool;
  retractionDistance : R;
  layerHeight : R;
  nozzleHeight : R;
  E_FEEDRATE : R;
  G0XY_FEEDRATE : R;
  G0Z_FEEDRATE : R
}.

(** [lineWidth = float(layerHeight * 2.0)] *)
Definition lineWidth (c : WriterContext) : R := (layerHeight c * 2)%R.

(** The globals [E] and [previousE], and the file written so far. *)
Record ExtruderState : Type := {
  E : R;
  previousE : R;
  written : list gcommand
}.

Definition write (cmds : list gcommand) (st : ExtruderState) : ExtruderState :=
  {| E := E st; previousE := previousE st; written := written st ++ cmds |}.

Definition when (b : bool) (cmds : list gcommand) : list gcommand :=
  if b then cmds else [].

(** Length of 1.75 mm filament for a bead of length [s]. *)
Definition extrusion_length (layerHeight lineWidth s : R) : R :=
  ((4 * layerHeight * lineWidth * s) / (PI * (1.75 ^ 2)))%R.

(** The locals of the loop: [runOnce], [newChunk], [previousX], [previousY]. *)
Record PathLocals : Type := {
  runOnce : bool;
  newChunk : bool;
  previousX : R;
  previousY : R
}.

(** The branch [p == 0]; [five_axis] adds the retreat of a new chunk. *)
Definition transcribe_first_point (five_axis : bool) (c : WriterContext)
    (run_once new_chunk : bool) (point : R * R) (st : ExtruderState)
    : ExtruderState * PathLocals :=
  let X := round_R point.1 5 in
  let Y := round_R point.2 5 in
  let st := write (when (enableRetraction c)
              [G1_E (E_FEEDRATE c) (round_R (E st - retractionDistance c) 5) "Retraction"]) st in
  let st := write (when (enableZHop c)
              [G0_Z (G0Z_FEEDRATE c) (round_R (nozzleHeight c + layerHeight c) 5)]) st in
  let st := write (when (five_axis && new_chunk)
              [G0_Z (G0Z_FEEDRATE c) (round_R (nozzleHeight c + 30 + layerHeight c) 5)]) st in
  let st :=
    if run_once then write [G0_XY (G0XY_FEEDRATE c) X Y] st
    else
      let st := write [G0_XY (G0XY_FEEDRATE c) X Y] st in
      let st := write (when (enableZHop c)
                  [G0_Z (G0Z_FEEDRATE c) (round_R (nozzleHeight c) 5)]) st in
      write (when (enableRetraction c)
        [G1_E (E_FEEDRATE c) (round_R (E st) 5) "Reversed Retraction"]) st in
  (st, {| runOnce := run_once; newChunk := false; previousX := X; previousY := Y |}).

(** The branch of every later point: an extruding move. *)
Definition transcribe_next_point (c : WriterContext) (PRINT_FEEDRATE : R)
    (acc : ExtruderState * PathLocals) (point : R * R) : ExtruderState * PathLocals :=
  let '(st, loc) := acc in
  let X := round_R point.1 5 in
  let Y := round_R point.2 5 in
  let s := sqrt ((X - previousX loc) ^ 2 + (Y - previousY loc) ^ 2) in
  let E' := (E st + extrusion_length (layerHeight c) (lineWidth c) s)%R in
  let cmds :=
    if runOnce loc then
      when (enableZHop c) [G0_Z (G0Z_FEEDRATE c) (round_R (nozzleHeight c) 5)] ++
      when (enableRetraction c)
        [G1_E (E_FEEDRATE c) (round_R (previousE st) 5) "Reversed Retraction"] ++
      [G1_XYE PRINT_FEEDRATE X Y (round_R E' 5)]
    else [G1_XYE PRINT_FEEDRATE X Y (round_R E' 5)] in
  ({| E := E'; previousE := E'; written := written st ++ cmds |},
   {| runOnce := false; newChunk := newChunk loc; previousX := X; previousY := Y |}).

Definition transcribe (five_axis : bool) (c : WriterContext) (pathPoints : list (R * R))
    (PRINT_FEEDRATE : R) (run_once new_chunk : bool) (st : ExtruderState) : ExtruderState :=
  match pathPoints with
  | [] => st
  | first :: rest =>
      (fold_left (transcribe_next_point c PRINT_FEEDRATE) rest
         (transcribe_first_point five_axis c run_once new_chunk first st)).1
  end.

Module Write3Axis.
Definition transcribe_pathPoints_to_gcode (c : WriterContext)
    (pathPoints : list (R * R)) (PRINT_FEEDRATE : R) (runOnce : bool)
    (st : ExtruderState) : ExtruderState :=
  transcribe false c pathPoints PRINT_FEEDRATE runOnce false st.
End Write3Axis.

Module Write5Axis.
Definition transcribe_pathPoints_to_gcode (c : WriterContext)
    (pathPoints : list (R * R)) (PRINT_FEEDRATE : R) (runOnce newChunk : bool)
    (st : ExtruderState) : ExtruderState :=
  transcribe true c pathPoints PRINT_FEEDRATE runOnce newChunk st.
End Write5Axis.

(** Euclidean distance between two path points as the emitter sees them,
    rounded to five decimals. *)
Definition rounded_distance (p q : R * R) : R :=
  sqrt ((round_R q.1 5 - round_R p.1 5) ^ 2 + (round_R q.2 5 - round_R p.2 5) ^ 2).

(** Filament for a whole path: one bead per pair of consecutive points. *)
Fixpoint path_extrusion (c : WriterContext) (first : R * R) (rest : list (R * R)) : R :=
  match rest with
  | [] => 0%R
  | q :: rest' =>
      (extrusion_length (layerHeight c) (lineWidth c) (rounded_distance first q)
       + path_extrusion c q rest')%R
  end.

(** The body of a writer, as far as the extruder is concerned: one call of
    the closure per path, in file order, [E] and [previousE] carried from
    each call to the next ([E] is set to 0 once, before the first layer). *)
Record PathCall : Type := {
  call_context : WriterContext;
  call_pathPoints : list (R * R);
  call_feedrate : R;
  call_runOnce : bool;
  call_newChunk : bool
}.

Definition transcribe_calls (five_axis : bool) (calls : list PathCall)
    (st : ExtruderState) : ExtruderState :=
  fold_left
    (fun st k => transcribe five_axis (call_context k) (call_pathPoints k)
                   (call_feedrate k) (call_runOnce k) (call_newChunk k) st)
    calls st.

Definition call_extrusion (k : PathCall) : R :=
  match call_pathPoints k with
  | [] => 0%R
  | first :: rest => path_extrusion (call_context k) first rest
  end.

Fixpoint total_extrusion (calls : list PathCall) : R :=
  match calls with
  | [] => 0%R
  | k :: rest => (call_extrusion k + total_extrusion rest)%R
  end.

(** ** Head/bed collision check

    [checkForBedNozzleCollisions].  The z values are numpy doubles: a finite
    value, a zero of either sign, an infinity or NaN; dividing by a zero
    gives an infinity or NaN (with a warning), not an exception. *)

Inductive float64 : Type :=
  | Finite (q : Q)      (* a finite value; [Finite 0] is +0.0 *)
  | NegZero             (* -0.0 *)
  | PInf
  | NInf
  | NaN.

Definition is_zero (x : float64) : bool :=
  match x with
  | Finite q => Qeq_bool q 0
  | NegZero => true
  | _ => false
  end.

(** [numerator / divisor] for a finite numerator that is not negative. *)
Definition float_div (numerator : Q) (divisor : float64) : float64 :=
  match divisor with
  | Finite d =>
      if Qeq_bool d 0 then (if Qeq_bool numerator 0 then NaN else PInf)
      else Finite (numerator / d)
  | NegZero => if Qeq_bool numerator 0 then NaN else NInf
  | PInf => Finite 0
  | NInf => NegZero
  | NaN => NaN
  end.

(** [x < bound] *)
Definition float_lt (x : float64) (bound : Q) : bool :=
  match x with
  | Finite q => if Qlt_le_dec q bound then true else false
  | NegZero => if Qlt_le_dec 0 bound then true else false
  | PInf => false
  | NInf => true
  | NaN => false
  end.

Definition minAcceptableBedToNozzleClearance : Q := 12.

(** The global [stopSlicing], and, for the record, the operands of every
    division the check has carried out. *)
Record CollisionState : Type := {
  stopSlicing : bool;
  divisions : list (Q * float64)
}.

(** The body of [for z in section]; [sin_theta] is [np.sin(theta)] for
    [theta = directionsRad[chunk][0]]. *)
Definition check_point (sin_theta : float64) (st : CollisionState) (z : Q)
    : CollisionState :=
  if negb (stopSlicing st) then
    if Qle_bool z minAcceptableBedToNozzleClearance then
      let currentBedToNozzleDistance := float_div (Qabs z) sin_theta in
      {| stopSlicing :=
           if float_lt currentBedToNozzleDistance minAcceptableBedToNozzleClearance
           then true else stopSlicing st;
         divisions := divisions st ++ [(Qabs z, sin_theta)] |}
    else st
  else st.

(** [meshSections] holds [None] for a slice plane that misses the chunk;
    a section that is there is given by the world z of its vertices
    ([path2D.to_3D(transform).vertices[:, 2]]). *)
Definition checkForBedNozzleCollisions (sin_theta : float64)
    (meshSections : list (option (list Q))) (st : CollisionState)
    : Outcome CollisionState :=
  sectionZValuesBySlicePlane ←
    for_each (fun acc path2D =>
                match path2D with
                | Some zs => Ok (acc ++ [zs])
                | None => Raise AttributeError
                end) meshSections [];
  Ok (fold_left (fun st section => fold_left (check_point sin_theta) section st)
        sectionZValuesBySlicePlane st).

(** What the specification says of the check: it carries out no division
    by zero. *)
Definition never_divides_by_zero (sin_theta : float64)
    (meshSections : list (option (list Q))) : Prop :=
  ∀ st', checkForBedNozzleCollisions sin_theta meshSections
           {| stopSlicing := false; divisions := [] |} = Ok st' →
         Forall (fun d => is_zero d.2 = false) (divisions st').

(** [x > bound] *)
Definition float_gt (x : float64) (bound : Q) : bool :=
  match x with
  | Finite q => if Qlt_le_dec bound q then true else false
  | NegZero => if Qlt_le_dec bound 0 then true else false
  | PInf => true
  | NInf => false
  | NaN => false
  end.

(** The same check as [widget_functions.checkSlicePlaneValidity] makes it
    on the slice planes before slicing: the body of its [for z in ZValues],
    [theta] in radians.  The validity of every point is recorded, and, as
    above, the operands of every division. *)
Record ValidityState : Type := {
  validity : list bool;
  validity_divisions : list (Q * float64)
}.

Definition check_slice_plane_point (theta : Q) (sin_theta : float64)
    (st : ValidityState) (z : Q) : ValidityState :=
  if Qeq_bool (py_round theta 2) 0 then
    {| validity := validity st ++ [true];
       validity_divisions := validity_divisions st |}
  else if Qle_bool z minAcceptableBedToNozzleClearance then
    let currentBedToNozzleDistance := float_div (Qabs z) sin_theta in
    {| validity := validity st ++
         [float_gt currentBedToNozzleDistance minAcceptableBedToNozzleClearance];
       validity_divisions := validity_divisions st ++ [(Qabs z, sin_theta)] |}
  else
    {| validity := validity st ++ [true];
       validity_divisions := validity_divisions st |}.

(** ** The planar-geometry library

    What the slicer uses of shapely.  A library call that raises (a GEOS
    error, or a warning while [warnings.filterwarnings("error")] is in
    force) is [None]. *)

Inductive GeomType : Type :=
  | GT_Point
  | GT_LineString
  | GT_LinearRing
  | GT_Polygon
  | GT_MultiPoint
  | GT_MultiLineString
  | GT_MultiPolygon
  | GT_GeometryCollection.

Class Shapely (Geom : Type) : Type := {
  geom_type : Geom → GeomType;
  is_empty : Geom → bool;
  is_valid : Geom → bool;
  geoms : Geom → list Geom;
  (** [Polygon([])] *)
  empty_polygon : Geom;
  (** [MultiPolygon(polygons)] *)
  MultiPolygon_of : list Geom → option Geom;
  (** [orient(geometry, sign=1.0)] *)
  orient : Geom → option Geom;
  unary_union : list Geom → option Geom;
  buffer : Geom → Q → option Geom;
  make_valid : Geom → option Geom;
  intersects : Geom → Geom → option bool;
  intersection : Geom → Geom → option Geom;
  difference : Geom → Geom → option Geom;
  equals_exact : Geom → Geom → Q → option bool
}.

Definition lib {A} (r : option A) : Outcome A :=
  match r with
  | Some a => Ok a
  | None => Raise (LibraryError "shapely")
  end.

(** ** Printing

    What [print] has written so far is threaded through the functions that
    print; an exception leaves it as it is. *)

Inductive LogEntry : Type :=
  | FailedToCreateValidGeometry (e : exn)
  | ErrorProcessingLayer1 (layer : Z) (e : exn)
  | ErrorProcessingLayer2 (layer : Z) (e : exn).

Definition IO (A : Type) : Type := list LogEntry → Outcome A * list LogEntry.

#[global] Instance IO_ret : MRet IO := fun A a log => (Ok a, log).
#[global] Instance IO_bind : MBind IO := fun A B f m log =>
  match m log with
  | (Ok a, log') => f a log'
  | (Raise e, log') => (Raise e, log')
  end.

Definition pure {A} (r : Outcome A) : IO A := fun log => (r, log).

Definition print (entry : LogEntry) : IO unit := fun log => (Ok (), log ++ [entry]).

Definition try_except_IO {A} (m : IO A) (handler : exn → IO A) : IO A := fun log =>
  match m log with
  | (Ok a, log') => (Ok a, log')
  | (Raise e, log') => handler e log'
  end.

(** ** Geometry repair utilities and the area classifier *)

Section Classifier.
Context {Geom : Type} `{!Shapely Geom}.

Definition polygonal (g : Geom) : bool :=
  match geom_type g with
  | GT_Polygon | GT_MultiPolygon => true
  | _ => false
  end.

(** [multiPolys = []; for poly in geometry.geoms: multiPolys.append(orient(poly))] *)
Definition orient_each (parts : list Geom) : Outcome (list Geom) :=
  for_each (fun multiPolys poly => o ← lib (orient poly); Ok (multiPolys ++ [o])) parts [].

Definition fix_polygon_or_multipolygon_ring_orientation (geometry : Geom)
    : Outcome Geom :=
  match geom_type geometry with
  | GT_Polygon => lib (orient geometry)
  | GT_MultiPolygon =>
      multiPolys ← orient_each (geoms geometry);
      lib (MultiPolygon_of multiPolys)
  | GT_GeometryCollection =>
      if negb (is_empty geometry) then
        returnedGeometry ←
          for_each
            (fun (returnedGeometry : option Geom) g =>
               match geom_type g with
               | GT_Polygon => o ← lib (orient geometry); Ok (Some o)
               | _ =>
                   match geom_type geometry with
                   | GT_MultiPolygon =>
                       multiPolys ← orient_each (geoms geometry);
                       m ← lib (MultiPolygon_of multiPolys); Ok (Some m)
                   | _ => Ok returnedGeometry
                   end
               end)
            (geoms geometry) None;
        match returnedGeometry with
        | Some r => Ok r
        | None => Raise UnboundLocalError
        end
      else Ok geometry
  | _ => Ok geometry
  end.

(** The second tier of [safe_unary_union]: each input buffered and made
    valid on its own, those that fail or come out invalid or empty left
    out. *)
Definition repair_one (buffer_value : Q) (valid_geoms : list Geom) (geom : Geom)
    : Outcome (list Geom) :=
  try_except
    (b ← lib (buffer geom buffer_value);
     valid_geom ← lib (make_valid b);
     if is_valid valid_geom && negb (is_empty valid_geom)
     then Ok (valid_geoms ++ [valid_geom])
     else Ok valid_geoms)
    (fun _ => Ok valid_geoms).

Definition safe_unary_union (geometries : list Geom) (buffer_value : Q) : IO Geom :=
  match geometries with
  | [] => mret empty_polygon
  | _ =>
      try_except_IO
        (pure (u ← lib (unary_union geometries); lib (buffer u buffer_value)))
        (fun _ =>
           try_except_IO
             (pure (valid_geoms ← for_each (repair_one buffer_value) geometries [];
                    match valid_geoms with
                    | [] => Ok empty_polygon
                    | _ => lib (unary_union valid_geoms)
                    end))
             (fun e => _ ← print (FailedToCreateValidGeometry e); mret empty_polygon))
  end.

(** [buffer_value=0.00001], the default. *)
Definition default_buffer_value : Q := 1 # 100000.

End Classifier.

(** The inputs of [safe_unary_union] that its second tier keeps, repaired. *)
Definition repaired {Geom : Type} `{!Shapely Geom} (buffer_value : Q)
    (geometries : list Geom) : list Geom :=
  flat_map
    (fun geom =>
       match buffer geom buffer_value with
       | Some b =>
           match make_valid b with
           | Some valid_geom =>
               if is_valid valid_geom && negb (is_empty valid_geom)
               then [valid_geom] else []
           | None => []
           end
       | None => []
       end)
    geometries.

Inductive ExposedLayer : Type := Current_Layer | Upper_Layer.

Section AreaClassifier.
Context {Geom : Type} `{!Shapely Geom}.

(** [manifoldAreas] and [internalAreas]: a dict from layer number to a
    list of areas. *)
Definition init_areas (n : Z) : gmap Z (list Geom) :=
  foldl (fun areas key => <[key := []]> areas) ∅ (py_range 0 n).

(** [areas[key]] *)
Definition dict_get (areas : gmap Z (list Geom)) (key : Z) : Outcome (list Geom) :=
  match areas !! key with
  | Some l => Ok l
  | None => Raise KeyError
  end.

(** [areas[key].append(g)] *)
Definition dict_append (areas : gmap Z (list Geom)) (key : Z) (g : Geom)
    : Outcome (gmap Z (list Geom)) :=
  l ← dict_get areas key; Ok (<[key := l ++ [g]]> areas).

(** [fix_polygon_or_multipolygon_ring_orientation(unary_union(innerMostPolygonsList[layer]))] *)
Definition layer_area (innerMostPolygonsList : list (list Geom)) (layer : Z)
    : Outcome Geom :=
  polygons ← py_getitem innerMostPolygonsList layer;
  u ← lib (unary_union polygons);
  fix_polygon_or_multipolygon_ring_orientation u.

Definition build_up_step (innerMostPolygonsList : list (list Geom)) (layer : Z)
    (exposedLayer : ExposedLayer) (layerOverlapArea : Geom)
    (manifoldAreas : gmap Z (list Geom)) (k : Z) : Outcome (gmap Z (list Geom)) :=
  let '(sign, indexAddition) :=
    match exposedLayer with
    | Current_Layer => (-1, 0)
    | Upper_Layer => (1, 1)
    end in
  let nextLayerIndex := layer + sign * k + indexAddition in
  polygons ← py_getitem innerMostPolygonsList nextLayerIndex;
  nextLayerArea ← lib (unary_union polygons);
  nextIntersection ←
    try_except (lib (intersection layerOverlapArea nextLayerArea))
               (fun _ => Ok nextLayerArea);
  if negb (is_empty nextIntersection) && polygonal nextIntersection then
    dict_append manifoldAreas nextLayerIndex nextIntersection
  else
    match geom_type nextIntersection with
    | GT_GeometryCollection =>
        for_each
          (fun manifoldAreas geometry =>
             if polygonal geometry
             then dict_append manifoldAreas nextLayerIndex geometry
             else Ok manifoldAreas)
          (geoms nextIntersection) manifoldAreas
    | _ => Ok manifoldAreas
    end.

(** The closure [build_up_exposed_layers], with the variables it reads
    from the enclosing function. *)
Definition build_up_exposed_layers (innerMostPolygonsList : list (list Geom))
    (shellThickness layer : Z) (exposedLayer : ExposedLayer) (layerOverlapArea : Geom)
    (manifoldAreas : gmap Z (list Geom)) : Outcome (gmap Z (list Geom)) :=
  for_each (build_up_step innerMostPolygonsList layer exposedLayer layerOverlapArea)
           (py_range 1 shellThickness) manifoldAreas.

Definition get_upperLayerOverhangArea (currentLayerArea upperLayerArea : Geom) : Geom :=
  match
    try_except
      (touching ← lib (intersects currentLayerArea upperLayerArea);
       if (touching : bool) then
         d ← lib (difference upperLayerArea currentLayerArea); lib (unary_union [d])
       else Ok upperLayerArea)
      (fun _ => Ok upperLayerArea)
  with
  | Ok area => area
  | Raise _ => upperLayerArea
  end.

Definition get_currentLayerUnderHangArea (currentLayerArea upperLayerArea : Geom) : Geom :=
  match
    try_except
      (touching ← lib (intersects currentLayerArea upperLayerArea);
       if (touching : bool) then
         d ← lib (difference currentLayerArea upperLayerArea); lib (unary_union [d])
       else Ok currentLayerArea)
      (fun _ => Ok currentLayerArea)
  with
  | Ok area => area
  | Raise _ => currentLayerArea
  end.

(** [if area.is_empty == False: manifoldAreas[key].append(area)] *)
Definition append_unless_empty (areas : gmap Z (list Geom)) (key : Z) (area : Geom)
    : Outcome (gmap Z (list Geom)) :=
  if negb (is_empty area) then dict_append areas key area else Ok areas.

(** [if area.is_empty == False: manifoldAreas[key].append(area);
     build_up_exposed_layers(exposedLayer, area)] *)
Definition expose (innerMostPolygonsList : list (list Geom)) (shellThickness layer : Z)
    (exposedLayer : ExposedLayer) (key : Z) (area : Geom)
    (manifoldAreas : gmap Z (list Geom)) : Outcome (gmap Z (list Geom)) :=
  if negb (is_empty area) then
    manifoldAreas ← dict_append manifoldAreas key area;
    build_up_exposed_layers innerMostPolygonsList shellThickness layer
      exposedLayer area manifoldAreas
  else Ok manifoldAreas.

(** The body of the loop over the layers for an infill below 100%;
    [n] is [len(slice_levels)]. *)
Definition classify_layer (innerMostPolygonsList : list (list Geom))
    (shellThickness n : Z) (manifoldAreas : gmap Z (list Geom)) (layer : Z)
    : Outcome (gmap Z (list Geom)) :=
  currentLayerArea ← layer_area innerMostPolygonsList layer;
  if layer <? shellThickness then
    (* bottom layers of the chunk *)
    manifoldAreas ← append_unless_empty manifoldAreas layer currentLayerArea;
    upperLayerArea ← layer_area innerMostPolygonsList (layer + 1);
    let upperLayerOverhangArea :=
      get_upperLayerOverhangArea currentLayerArea upperLayerArea in
    expose innerMostPolygonsList shellThickness layer
      Upper_Layer (layer + 1) upperLayerOverhangArea manifoldAreas
  else if (shellThickness <=? layer) && (layer <? n - shellThickness) then
    (* middle layers of the chunk *)
    upperLayerArea ← layer_area innerMostPolygonsList (layer + 1);
    let currentLayerUnderHangArea :=
      get_currentLayerUnderHangArea currentLayerArea upperLayerArea in
    let upperLayerOverhangArea :=
      get_upperLayerOverhangArea currentLayerArea upperLayerArea in
    if negb (is_empty currentLayerArea) && negb (is_empty upperLayerArea) then
      manifoldAreas ←
        expose innerMostPolygonsList shellThickness layer
          Current_Layer layer currentLayerUnderHangArea manifoldAreas;
      expose innerMostPolygonsList shellThickness layer
        Upper_Layer (layer + 1) upperLayerOverhangArea manifoldAreas
    else if negb (is_empty currentLayerArea) && is_empty upperLayerArea then
      manifoldAreas ← dict_append manifoldAreas layer currentLayerArea;
      build_up_exposed_layers innerMostPolygonsList shellThickness layer
        Current_Layer currentLayerArea manifoldAreas
    else if is_empty currentLayerArea && negb (is_empty upperLayerArea) then
      manifoldAreas ← dict_append manifoldAreas (layer + 1) upperLayerArea;
      build_up_exposed_layers innerMostPolygonsList shellThickness layer
        Upper_Layer upperLayerArea manifoldAreas
    else Ok manifoldAreas
  else if (shellThickness <=? layer) && (layer <? n - 1) then
    (* uppermost layers of the chunk up until the uppermost layer *)
    manifoldAreas ← append_unless_empty manifoldAreas layer currentLayerArea;
    upperLayerArea ← layer_area innerMostPolygonsList (layer + 1);
    let currentLayerUnderHangArea :=
      get_currentLayerUnderHangArea currentLayerArea upperLayerArea in
    expose innerMostPolygonsList shellThickness layer
      Current_Layer layer currentLayerUnderHangArea manifoldAreas
  else if layer =? n - 1 then
    (* uppermost layer of the chunk *)
    expose innerMostPolygonsList shellThickness layer
      Current_Layer layer currentLayerArea manifoldAreas
  else Ok manifoldAreas.

(** The body of the loop over the layers for an infill of 100%. *)
Definition solid_layer (innerMostPolygonsList : list (list Geom))
    (manifoldAreas : gmap Z (list Geom)) (layer : Z) : Outcome (gmap Z (list Geom)) :=
  currentLayerArea ← layer_area innerMostPolygonsList layer;
  append_unless_empty manifoldAreas layer currentLayerArea.

(** The body of the loop that fills [internalAreas]. *)
Definition internal_layer (innerMostPolygonsList : list (list Geom))
    (manifoldAreas internalAreas : gmap Z (list Geom)) (layer : Z)
    : IO (gmap Z (list Geom)) :=
  try_except_IO
    (polygons ← pure (py_getitem innerMostPolygonsList layer);
     u ← safe_unary_union polygons default_buffer_value;
     oriented ← pure (fix_polygon_or_multipolygon_ring_orientation u);
     currentLayerArea ← pure (lib (buffer oriented (1 # 100000)));
     manifold ← pure (dict_get manifoldAreas layer);
     if (0 <? length manifold)%nat then
       combinedManifoldArea ← safe_unary_union manifold default_buffer_value;
       same ← pure (lib (equals_exact currentLayerArea combinedManifoldArea (1 # 1000)));
       if (same : bool) then mret internalAreas
       else
         try_except_IO
           (pure (grown ← lib (buffer currentLayerArea (1 # 100000));
                  difference_result ← lib (difference grown combinedManifoldArea);
                  if negb (is_empty difference_result) && is_valid difference_result
                  then dict_append internalAreas layer difference_result
                  else Ok internalAreas))
           (fun e => _ ← print (ErrorProcessingLayer1 layer e); mret internalAreas)
     else pure (dict_append internalAreas layer currentLayerArea))
    (fun e => _ ← print (ErrorProcessingLayer2 layer e); mret internalAreas).

Fixpoint for_each_IO {A S} (body : S → A → IO S) (xs : list A) (s : S) : IO S :=
  match xs with
  | [] => mret s
  | x :: rest => s' ← body s x; for_each_IO body rest s'
  end.

(** [slice_levels] is the global list of slice levels of the chunk. *)
Definition get_manifold_areas_for_one_chunk (slice_levels : list Q)
    (innerMostPolygonsList : list (list Geom)) (infillPercentage : Q)
    (shellThickness : Z) : IO (gmap Z (list Geom) * gmap Z (list Geom)) :=
  let n := Z.of_nat (length slice_levels) in
  let manifoldAreas := init_areas n in
  let internalAreas := init_areas n in
  if Qle_bool 1 infillPercentage then
    manifoldAreas ← pure (for_each (solid_layer innerMostPolygonsList)
                                   (py_range 0 n) manifoldAreas);
    mret (manifoldAreas, internalAreas)
  else if Qle_bool 0 infillPercentage then
    manifoldAreas ← pure (for_each (classify_layer innerMostPolygonsList shellThickness n)
                                   (py_range 0 n) manifoldAreas);
    if negb (Qeq_bool infillPercentage 0) then
      internalAreas ← for_each_IO (internal_layer innerMostPolygonsList manifoldAreas)
                                  (py_range 0 n) internalAreas;
      mret (manifoldAreas, internalAreas)
    else mret (manifoldAreas, internalAreas)
  else mret (manifoldAreas, internalAreas).

End AreaClassifier.

(** ** An exact geometry library

    Regions of the plane are read as sets of cells of a fine raster
    ([cells]); tolerances vanish at that resolution.  A library is exact
    when its operations go through and compute on the cells what their
    names say: this is the reading under which the specification states the
    properties of the area classifier. *)

Abbreviation Cell := (Z * Z)%type.

(** Not a collection of mixed pieces. *)
Definition areal {Geom : Type} `{!Shapely Geom} (g : Geom) : Prop :=
  geom_type g ≠ GT_GeometryCollection ∨ is_empty g = true.

Class ExactShapely (Geom : Type) `{!Shapely Geom} : Type := {
  cells : Geom → gset Cell;
  exact_is_empty : ∀ g, is_empty g = true → cells g = ∅;
  exact_empty_polygon :
    cells empty_polygon = ∅ ∧ geom_type empty_polygon = GT_Polygon;
  exact_geoms : ∀ g g', g' ∈ geoms g → cells g' ⊆ cells g;
  exact_geoms_multipolygon :
    ∀ g, geom_type g = GT_MultiPolygon → ⋃ (cells <$> geoms g) = cells g;
  exact_unary_union :
    ∀ gs, ∃ u, unary_union gs = Some u ∧ cells u = ⋃ (cells <$> gs) ∧ areal u;
  exact_orient : ∀ g, ∃ o, orient g = Some o ∧ cells o = cells g;
  exact_MultiPolygon :
    ∀ gs, ∃ m, MultiPolygon_of gs = Some m ∧ cells m = ⋃ (cells <$> gs);
  exact_buffer :
    ∀ g, ∃ b, buffer g (1 # 100000) = Some b ∧ cells b = cells g ∧ (areal g → areal b);
  exact_intersection :
    ∀ a b r, intersection a b = Some r → cells r = cells a ∩ cells b;
  exact_difference :
    ∀ a b, ∃ d, difference a b = Some d ∧ cells d = cells a ∖ cells b ∧ is_valid d = true;
  exact_equals_exact :
    ∀ a b tolerance, ∃ r, equals_exact a b tolerance = Some r ∧ (r = true → cells a = cells b)
}.

(** The cells of a list of areas, and of the innermost polygons of a layer. *)
Definition cells_of {Geom : Type} `{!Shapely Geom} `{!ExactShapely Geom}
    (areas : list Geom) : gset Cell :=
  ⋃ (cells <$> areas).

Definition layer_cells {Geom : Type} `{!Shapely Geom} `{!ExactShapely Geom}
    (innerMostPolygonsList : list (list Geom)) (layer : Z) : gset Cell :=
  match innerMostPolygonsList !! Z.to_nat layer with
  | Some polygons => cells_of polygons
  | None => ∅
  end.

(** The areas a dict holds for a layer. *)
Definition areas_at {Geom : Type} (areas : gmap Z (list Geom)) (layer : Z) : list Geom :=
  default [] (areas !! layer).

(** The areas that the pass files under a layer lie inside the layer. *)
Definition inside {Geom : Type} `{!Shapely Geom} `{!ExactShapely Geom}
    (innerMostPolygonsList : list (list Geom)) (k : Z) (g : Geom) : Prop :=
  cells g ⊆ layer_cells innerMostPolygonsList k.

(** The manifold and the internal areas of a layer make up the layer and
    do not overlap. *)
Definition partitioned {Geom : Type} `{!Shapely Geom} `{!ExactShapely Geom}
    (innerMostPolygonsList : list (list Geom))
    (manifoldAreas internalAreas : gmap Z (list Geom)) (layer : Z) : Prop :=
  cells_of (areas_at manifoldAreas layer) ∪ cells_of (areas_at internalAreas layer) =
    layer_cells innerMostPolygonsList layer ∧
  cells_of (areas_at manifoldAreas layer) ∩ cells_of (areas_at internalAreas layer) = ∅.

(** The manifold area of a layer is the layer's own area, when there is
    any. *)
Definition all_manifold {Geom : Type} `{!Shapely Geom} `{!ExactShapely Geom}
    (innerMostPolygonsList : list (list Geom))
    (manifoldAreas : gmap Z (list Geom)) (layer : Z) : Prop :=
  ∃ area,
    layer_area innerMostPolygonsList layer = Ok area ∧
    cells area = layer_cells innerMostPolygonsList layer ∧
    manifoldAreas !! layer = Some (if is_empty area then [] else [area]).

(** The raster itself as a library: a geometry is its set of cells. *)
Module Raster.

#[global] Instance raster_shapely : Shapely (gset Cell) := {|
  geom_type := fun _ => GT_Polygon;
  is_empty := fun g => bool_decide (g = ∅);
  is_valid := fun _ => true;
  geoms := fun g => [g];
  empty_polygon := ∅;
  MultiPolygon_of := fun gs => Some (⋃ gs);
  orient := fun g => Some g;
  unary_union := fun gs => Some (⋃ gs);
  buffer := fun g _ => Some g;
  make_valid := fun g => Some g;
  intersects := fun a b => Some (bool_decide (a ∩ b ≠ ∅));
  intersection := fun a b => Some (a ∩ b);
  difference := fun a b => Some (a ∖ b);
  equals_exact := fun a b _ => Some (bool_decide (a = b))
|}.

(** A rectangle of cells: columns [x0 .. x1 - 1], rows [y0 .. y1 - 1]. *)
Definition rect (x0 x1 y0 y1 : Z) : gset Cell :=
  list_to_set (x ← seqZ x0 (x1 - x0); y ← seqZ y0 (y1 - y0); [(x, y)]).

End Raster.

(** The raster as a library that does not find the differences it computes
    valid, as shapely does of a difference that touches itself. *)
Module InvalidRaster.

Definition invalid_shapely : Shapely (gset Cell) := {|
  geom_type := fun _ => GT_Polygon;
  is_empty := fun g => bool_decide (g = ∅);
  is_valid := fun _ => false;
  geoms := fun g => [g];
  empty_polygon := ∅;
  MultiPolygon_of := fun gs => Some (⋃ gs);
  orient := fun g => Some g;
  unary_union := fun gs => Some (⋃ gs);
  buffer := fun g _ => Some g;
  make_valid := fun g => Some g;
  intersects := fun a b => Some (bool_decide (a ∩ b ≠ ∅));
  intersection := fun a b => Some (a ∩ b);
  difference := fun a b => Some (a ∖ b);
  equals_exact := fun a b _ => Some (bool_decide (a = b))
|}.

End InvalidRaster.

(** ** Invariants of the pass over the layers *)

(** An exception other than an index out of range or a missing key. *)
Definition harmless (e : exn) : Prop := e ≠ IndexError ∧ e ≠ KeyError.

(** Enough layers for the look-ahead of the thickening. *)
Definition layers_in_bounds (shellThickness n : Z) : Prop :=
  1 ≤ shellThickness ∧ 2 * shellThickness ≤ n.

(** The dict has the keys [0 .. n-1], and every area filed under a layer
    satisfies [ok]. *)
Definition areas_inv {Geom : Type} (n : Z) (ok : Z → Geom → Prop)
    (areas : gmap Z (list Geom)) : Prop :=
  (∀ k, is_Some (areas !! k) ↔ 0 ≤ k < n) ∧
  (∀ k gs g, areas !! k = Some gs → g ∈ gs → ok k g).

(** The result satisfies [Q]; an exception, with enough layers, is not an
    index or a key out of range, and comes from the library ([strict] says
    that the library raises nothing). *)
Definition outcome_post {A : Type} (bounds strict : Prop) (Q : A → Prop)
    (o : Outcome A) : Prop :=
  match o with
  | Ok a => Q a
  | Raise e => bounds → harmless e ∧ ¬ strict
  end.

(** ** Chunk decomposition (multi-direction mode)

    A mesh is read as the set of voxels it occupies; the boolean difference
    of the mesh library is the difference of the sets.  Cutting by a plane
    ([mesh.slice_plane]) and the bounds of a chunk, as it lies or laid on
    the XY plane by [align_mesh_base_to_xy], are left to the library. *)

Abbreviation Voxel := (Z * Z * Z)%type.
Abbreviation Mesh := (gset Voxel).

Definition Vector3 : Type := (R * R * R)%type.

(** [theta] and [phi] in degrees. *)
Definition spherical_to_normal (theta phi : R) : Vector3 :=
  let theta := (theta * (PI / 180))%R in
  let phi := (phi * (PI / 180))%R in
  ((sin theta * cos phi)%R, (sin theta * sin phi)%R, cos theta).

(** [a.difference(b, check_volume=False)]; [None] has no such method. *)
Definition mesh_difference (a b : option Mesh) : Outcome (option Mesh) :=
  match a, b with
  | Some a, Some b => Ok (Some (a ∖ b))
  | _, _ => Raise AttributeError
  end.

Section ChunkDecomposer.
Variable slice_plane : Mesh → Vector3 → Vector3 → Mesh.
Variable bounds_z : Mesh → Q * Q.
Variable aligned_bounds_z : Mesh → Vector3 → Vector3 → Q * Q.

Variable mesh : Mesh.
Variable numSlicingDirections : Z.
Variable startingPositions : list Vector3.
Variable directions : list (R * R).

(** First loop of [create_chunkList]: the part of the mesh ahead of each
    slice plane. *)
Definition unprocessed_chunks : Outcome (list (option Mesh)) :=
  for_each
    (fun chunkList k =>
       currentStart ← py_getitem startingPositions k;
       direction ← py_getitem directions k;
       let currentNormal := spherical_to_normal direction.1 direction.2 in
       Ok (chunkList ++ [Some (slice_plane mesh currentStart currentNormal)]))
    (py_range 0 numSlicingDirections) [].

(** The body of the second loop: chunk [k] less every later chunk, the
    lattermost first. *)
Definition chisel (chunkList : list (option Mesh)) (k : Z)
    : Outcome (list (option Mesh)) :=
  remainingChunk ← py_getitem chunkList k;
  remainingChunk ←
    for_each
      (fun remainingChunk r =>
         if k <? r then
           latterChunk ← py_getitem chunkList r;
           mesh_difference remainingChunk latterChunk
         else Ok remainingChunk)
      (reverse (py_range 0 numSlicingDirections)) remainingChunk;
  match remainingChunk with
  | Some remaining =>
      Ok (<[Z.to_nat k := if decide (remaining = ∅) then None else Some remaining]>
            chunkList)
  | None => Raise AttributeError
  end.

Definition create_chunkList : Outcome (list (option Mesh)) :=
  chunkList ← unprocessed_chunks;
  for_each chisel (py_range 0 numSlicingDirections) chunkList.

(** First loop of [inverse_transform_chunks_to_get_respective_slice_levels]:
    the z extents of each chunk in its own frame. *)
Definition chunk_z_extents (chunkList : list (option Mesh)) (k : Z) : Outcome (Q * Q) :=
  currentChunk ← py_getitem chunkList k;
  match currentChunk with
  | None => Raise AttributeError
  | Some chunk =>
      chunkBounds ←
        (if k =? 0 then Ok (bounds_z chunk)
         else
           currentStart ← py_getitem startingPositions k;
           direction ← py_getitem directions k;
           let currentNormal := spherical_to_normal direction.1 direction.2 in
           Ok (aligned_bounds_z chunk currentStart currentNormal));
      let meshBottom := py_round chunkBounds.1 3 in
      let meshTop := py_round chunkBounds.2 3 in
      Ok (SliceLevels.z_extents meshBottom meshTop)
  end.

Definition inverse_transform_chunks_to_get_respective_slice_levels
    (chunkList : list (option Mesh)) (layerHeight : Q) : Outcome (list (list Q)) :=
  maxChunkZextents ←
    for_each (fun extents k => e ← chunk_z_extents chunkList k; Ok (extents ++ [e]))
             (py_range 0 numSlicingDirections) [];
  for_each
    (fun chunk_slice_levels current_z_extents =>
       let current_z_levels :=
         np_arange current_z_extents.1 current_z_extents.2 layerHeight in
       levels ← SliceLevels.del_first
                  (map (fun z => py_round (z - layerHeight / 2)%Q 5) current_z_levels);
       Ok (chunk_slice_levels ++ [levels]))
    maxChunkZextents [].

End ChunkDecomposer.

(** What the chiselling leaves of chunk [j], [raws] being the chunks as
    first cut: nothing, or a nonempty part of the raw chunk that meets no
    later raw chunk. *)
Definition chiselled (raws : list Mesh) (j : nat) (entry : option Mesh) : Prop :=
  match entry with
  | None => True
  | Some a =>
      a ≠ ∅ ∧
      (∃ raw, raws !! j = Some raw ∧ a ⊆ raw) ∧
      (∀ r raw, (j < r)%nat → raws !! r = Some raw → a ∩ raw = ∅)
  end.

(** ** Laying a chunk on the XY plane

    [align_mesh_base_to_xy], in [all_5_axis_calculations].  A mesh is read
    here by its vertices, which is all that [apply_transform] changes. *)

Definition Matrix3 : Type := (Vector3 * Vector3 * Vector3)%type.
Definition Vector4 : Type := (R * R * R * R)%type.
Definition Matrix4 : Type := (Vector4 * Vector4 * Vector4 * Vector4)%type.

Definition dot (u v : Vector3) : R :=
  let '(ux, uy, uz) := u in
  let '(vx, vy, vz) := v in
  (ux * vx + uy * vy + uz * vz)%R.

(** [np.linalg.norm] *)
Definition norm (v : Vector3) : R := sqrt (dot v v).

(** [v / k] *)
Definition divide (v : Vector3) (k : R) : Vector3 :=
  let '(x, y, z) := v in ((x / k)%R, (y / k)%R, (z / k)%R).

(** [np.cross] *)
Definition cross (u v : Vector3) : Vector3 :=
  let '(ux, uy, uz) := u in
  let '(vx, vy, vz) := v in
  ((uy * vz - uz * vy)%R, (uz * vx - ux * vz)%R, (ux * vy - uy * vx)%R).

(** [np.allclose(v, 0)], with numpy's tolerances: every component within
    [atol = 1e-8] of zero. *)
Definition isclose_zero (x : R) : bool :=
  if Rle_dec (Rabs x) 1e-8 then true else false.

Definition allclose_zero (v : Vector3) : bool :=
  let '(x, y, z) := v in isclose_zero x && isclose_zero y && isclose_zero z.

(** [np.clip(x, lo, hi)] *)
Definition clip (x lo hi : R) : R := Rmin hi (Rmax lo x).

(** [np.eye(3)] *)
Definition eye3 : Matrix3 := ((1, 0, 0), (0, 1, 0), (0, 0, 1))%R.

Definition column (m : Matrix3) (j : nat) : Vector3 :=
  let '(r0, r1, r2) := m in
  match j with
  | 0%nat => (r0.1.1, r1.1.1, r2.1.1)
  | 1%nat => (r0.1.2, r1.1.2, r2.1.2)
  | _ => (r0.2, r1.2, r2.2)
  end.

(** [m @ v] *)
Definition matvec (m : Matrix3) (v : Vector3) : Vector3 :=
  let '(r0, r1, r2) := m in (dot r0 v, dot r1 v, dot r2 v).

(** [a @ b] *)
Definition matmul (a b : Matrix3) : Matrix3 :=
  let '(r0, r1, r2) := a in
  let row r := (dot r (column b 0), dot r (column b 1), dot r (column b 2)) in
  (row r0, row r1, row r2).

Definition add3 (u v : Vector3) : Vector3 :=
  let '(ux, uy, uz) := u in
  let '(vx, vy, vz) := v in
  ((ux + vx)%R, (uy + vy)%R, (uz + vz)%R).

Definition scale3 (k : R) (v : Vector3) : Vector3 :=
  let '(x, y, z) := v in ((k * x)%R, (k * y)%R, (k * z)%R).

(** [a + b] and [k * a] on matrices *)
Definition matadd (a b : Matrix3) : Matrix3 :=
  let '(a0, a1, a2) := a in
  let '(b0, b1, b2) := b in
  (add3 a0 b0, add3 a1 b1, add3 a2 b2).

Definition matscale (k : R) (a : Matrix3) : Matrix3 :=
  let '(a0, a1, a2) := a in (scale3 k a0, scale3 k a1, scale3 k a2).

(** The rotation that [align_mesh_base_to_xy] computes for a base normal:
    the identity when the normal is along the Z axis already, the
    axis-angle formula otherwise. *)
Definition alignment_rotation (base_normal : Vector3) : Matrix3 :=
  let base_normal := divide base_normal (norm base_normal) in
  let z_axis : Vector3 := (0, 0, 1)%R in
  let rotation_axis := cross base_normal z_axis in
  if allclose_zero rotation_axis then eye3
  else
    let rotation_axis := divide rotation_axis (norm rotation_axis) in
    let cos_angle := dot base_normal z_axis in
    let angle := acos (clip cos_angle (-1) 1) in
    let '(a0, a1, a2) := rotation_axis in
    let K : Matrix3 :=
      ((0, - a2, a1), (a2, 0, - a0), (- a1, a0, 0))%R in
    matadd (matadd eye3 (matscale (sin angle) K))
           (matscale (1 - cos angle) (matmul K K)).

Definition dot4 (u v : Vector4) : R :=
  let '(u0, u1, u2, u3) := u in
  let '(v0, v1, v2, v3) := v in
  (u0 * v0 + u1 * v1 + u2 * v2 + u3 * v3)%R.

Definition column4 (m : Matrix4) (j : nat) : Vector4 :=
  let '(r0, r1, r2, r3) := m in
  match j with
  | 0%nat => (r0.1.1.1, r1.1.1.1, r2.1.1.1, r3.1.1.1)
  | 1%nat => (r0.1.1.2, r1.1.1.2, r2.1.1.2, r3.1.1.2)
  | 2%nat => (r0.1.2, r1.1.2, r2.1.2, r3.1.2)
  | _ => (r0.2, r1.2, r2.2, r3.2)
  end.

Definition matmul4 (a b : Matrix4) : Matrix4 :=
  let '(r0, r1, r2, r3) := a in
  let row r :=
    (dot4 r (column4 b 0), dot4 r (column4 b 1), dot4 r (column4 b 2), dot4 r (column4 b 3)) in
  (row r0, row r1, row r2, row r3).

(** [transform = np.eye(4); transform[:3, :3] = rotation_matrix] *)
Definition homogeneous (rotation_matrix : Matrix3) : Matrix4 :=
  let '((r00, r01, r02), (r10, r11, r12), (r20, r21, r22)) := rotation_matrix in
  ((r00, r01, r02, 0), (r10, r11, r12, 0), (r20, r21, r22, 0), (0, 0, 0, 1))%R.

(** [translation = np.eye(4); translation[2, 3] = dz] *)
Definition z_translation (dz : R) : Matrix4 :=
  ((1, 0, 0, 0), (0, 1, 0, 0), (0, 0, 1, dz), (0, 0, 0, 1))%R.

(** What [apply_transform] does to a vertex: the matrix applied to the
    vertex in homogeneous coordinates, the first three components kept. *)
Definition transform_vertex (matrix : Matrix4) (vertex : Vector3) : Vector3 :=
  let '(x, y, z) := vertex in
  let '(r0, r1, r2, _) := matrix in
  let h : Vector4 := (x, y, z, 1%R) in
  (dot4 r0 h, dot4 r1 h, dot4 r2 h).

Definition align_mesh_base_to_xy (mesh : list Vector3) (base_point base_normal : Vector3)
    : list Vector3 * Matrix4 :=
  let rotation_matrix := alignment_rotation base_normal in
  let transform := homogeneous rotation_matrix in
  let rotated_mesh := map (transform_vertex transform) mesh in
  let rotated_point := matvec rotation_matrix base_point in
  let z_offset := rotated_point.2 in
  let translation := z_translation (- z_offset) in
  let rotated_mesh := map (transform_vertex translation) rotated_mesh in
  let final_transform := matmul4 translation transform in
  (rotated_mesh, final_transform).

(** Euclidean distance between two vertices. *)
Definition distance3 (u v : Vector3) : R := norm (add3 u (scale3 (-1) v)).

(** What a line of G-code does: a travel move lays no filament, an
    extruding move does; [xy_target] is where a move takes the nozzle in
    the plane, when it moves it there. *)
Definition is_travel (cmd : gcommand) : bool :=
  match cmd with
  | G0_Z _ _ | G0_XY _ _ _ => true
  | _ => false
  end.

Definition is_extruding_move (cmd : gcommand) : bool :=
  match cmd with
  | G1_XYE _ _ _ _ => true
  | _ => false
  end.

Definition xy_target (cmd : gcommand) : option (R * R) :=
  match cmd with
  | G0_XY _ X Y | G1_XYE _ X Y _ => Some (X, Y)
  | _ => None
  end.

Definition extruding_target (cmd : gcommand) : option (R * R) :=
  match cmd with
  | G1_XYE _ X Y _ => Some (X, Y)
  | _ => None
  end.

(** A path point as it is written: [round(point[0], 5)], [round(point[1], 5)]. *)
Definition rounded_point (point : R * R) : R * R :=
  (round_R point.1 5, round_R point.2 5).

(** A vertex that the slicing-time check counts as a collision: at or
    below the clearance, and nearer the nozzle than the clearance when the
    bed is tilted. *)
Definition collides (sin_theta : float64) (z : Q) : bool :=
  Qle_bool z minAcceptableBedToNozzleClearance &&
  float_lt (float_div (Qabs z) sin_theta) minAcceptableBedToNozzleClearance.

(** A nearest-neighbour tour of the segments [remaining], the nozzle
    being at [tail]: the next segment is one of those nearest to the
    nozzle, it is entered by the end that is not the farther one, and the
    tour goes on from its other end with the segments that are left. *)
Inductive nearest_neighbour_tour : Point → list LineString → list LineString → Prop :=
  | tour_done (tail : Point) : nearest_neighbour_tour tail [] []
  | tour_step (tail : Point) (remaining : list LineString) (i : nat)
      (line : LineString) (near far : Point) (out : list LineString) :
      remaining !! i = Some line →
      (∀ other, other ∈ remaining →
         (line_distance2 tail line ≤ line_distance2 tail other)%Qc) →
      same_segment [near; far] line →
      (point_distance2 tail near ≤ point_distance2 tail far)%Qc →
      nearest_neighbour_tour far (delete i remaining) out →
      nearest_neighbour_tour tail remaining ([near; far] :: out).

(** ** The two rotary axes (multi-direction writer)

    The start of [write_5_axis_gcode]: the angles the A and B axes are
    moved to for each chunk and the speeds of the two moves; and the
    rotation that takes a chunk to the orientation it is printed in. *)

(** [np.arctan2(y, x)] *)
Definition arctan2 (y x : R) : R :=
  if Rlt_dec 0 x then atan (y / x)
  else if Rlt_dec x 0 then
    (if Rle_dec 0 y then atan (y / x) + PI else atan (y / x) - PI)%R
  else if Rlt_dec 0 y then (PI / 2)%R
  else if Rlt_dec y 0 then (- (PI / 2))%R
  else 0%R.

Definition AB_FEEDRATE : R := 25.

(** [directions[:, 1] = 90 - directions[:, 1]; directions[0] = [0.0, 0.0]],
    on the array made of the list of [theta, phi] pairs. *)
Definition machine_directions (directions : list (R * R)) : Outcome (list (R * R)) :=
  match (λ d : R * R, (d.1, (90 - d.2)%R)) <$> directions with
  | [] => Raise IndexError
  | _ :: rest => Ok ((0, 0)%R :: rest)
  end.

Definition AMOVE_Degrees (directions : list (R * R)) : list R :=
  ((λ sublist : R * R, sublist.2) <$> directions) ++ [0%R].

Definition BMOVE_Degrees (directions : list (R * R)) : list R :=
  ((λ sublist : R * R, sublist.1) <$> directions) ++ [0%R].

(** The body of [for d in range(len(AMOVE_Degrees))]; the state is
    [ASPEED_Scaled] and [BSPEED_Scaled]. *)
Definition scale_speeds (AMOVE BMOVE : list R) (speeds : list R * list R) (d : Z)
    : Outcome (list R * list R) :=
  if 0 <? d then
    a ← py_getitem AMOVE d;
    a_before ← py_getitem AMOVE (d - 1);
    b ← py_getitem BMOVE d;
    b_before ← py_getitem BMOVE (d - 1);
    let currentAMove_Relative := (a - a_before)%R in
    let currentBMove_Relative := (b - b_before)%R in
    let ABTheta := arctan2 currentBMove_Relative currentAMove_Relative in
    Ok (speeds.1 ++ [Rabs (AB_FEEDRATE * cos ABTheta)],
        speeds.2 ++ [Rabs (AB_FEEDRATE * sin ABTheta)])
  else Ok speeds.

(** [AMOVE_Degrees], [BMOVE_Degrees], [ASPEED_Scaled] and [BSPEED_Scaled]
    as the writer has them before it opens the file. *)
Definition rotary_moves (directions : list (R * R))
    : Outcome (list R * list R * (list R * list R)) :=
  directions ← machine_directions directions;
  let AMOVE := AMOVE_Degrees directions in
  let BMOVE := BMOVE_Degrees directions in
  speeds ← for_each (scale_speeds AMOVE BMOVE)
                    (py_range 0 (Z.of_nat (length AMOVE)))
                    ([AB_FEEDRATE], [AB_FEEDRATE]);
  Ok (AMOVE, BMOVE, speeds).

(** [QA], [QB] and [DCM_AB = np.matmul(QB, QA)], the angles in radians. *)
Definition QA (phi : R) : Matrix3 :=
  ((cos phi, - sin phi, 0), (sin phi, cos phi, 0), (0, 0, 1))%R.

Definition QB (theta : R) : Matrix3 :=
  ((1, 0, 0), (0, cos theta, - sin theta), (0, sin theta, cos theta))%R.

(** The rotation for the chunk [key]: none for the first chunk. *)
Definition DCM_AB (AMOVE BMOVE : list R) (key : Z) : Outcome Matrix3 :=
  b ← py_getitem BMOVE key;
  a ← py_getitem AMOVE key;
  let theta := (b * (PI / 180))%R in
  let phi := (a * (PI / 180))%R in
  if key =? 0 then Ok eye3 else Ok (matmul (QB theta) (QA phi)).

(** ** From the slicing plane to the printable orientation

    [transform_point], and [transform_paths_to_printable_orientation] of
    the multi-direction writer.  The transform of a layer is the 4x4 matrix
    [to_3D] of its section, or the empty array for a layer without one. *)

Definition transform_point (point : R * R) (matrix : option Matrix4) : Outcome Vector3 :=
  match matrix with
  | Some (r0, r1, r2, _) =>
      let point_h : Vector4 := (point.1, point.2, 0, 1)%R in
      Ok (dot4 r0 point_h, dot4 r1 point_h, dot4 r2 point_h)
  | None => Raise ValueError
  end.

(** The body of [for path in paths]: the points of the path taken to 3D
    and turned by [DCM_AB]. *)
Definition printable_path (transform : option Matrix4) (DCM : Matrix3) (path : list (R * R))
    : Outcome (list Vector3) :=
  coords_3d ← for_each (λ (acc : list Vector3) point,
                          p ← transform_point point transform; Ok (acc ++ [p]))
                       path [];
  Ok (map (matvec DCM) coords_3d).

(** What the loops have built: [printable_pathPoints],
    [midLayer_Z_Heights], and the local [printable_coords_3d], unbound
    until the first path has gone through. *)
Record PrintableState : Type := {
  printable_pathPoints : list (list (list (R * R)));
  midLayer_Z_Heights : list R;
  printable_coords_3d : option (list Vector3)
}.

(** The body of [for layer_idx, (paths, transform) in enumerate(zip(...))]. *)
Definition printable_layer (DCM : Matrix3) (s : PrintableState)
    (layer : list (list (R * R)) * option Matrix4) : Outcome PrintableState :=
  let '(paths, transform) := layer in
  '(layerPaths, coords) ←
    for_each
      (λ (acc : list (list (R * R)) * option (list Vector3)) path,
         printable ← printable_path transform DCM path;
         Ok (acc.1 ++ [map (λ point : Vector3, (point.1.1, point.1.2)) printable],
             Some printable))
      paths ([], printable_coords_3d s);
  match coords with
  | None => Raise UnboundLocalError
  | Some [] => Raise IndexError
  | Some (first :: _) =>
      Ok {| printable_pathPoints := printable_pathPoints s ++ [layerPaths];
            midLayer_Z_Heights := midLayer_Z_Heights s ++ [first.2];
            printable_coords_3d := coords |}
  end.

Definition transform_paths_to_printable_orientation
    (layer_paths : list (list (list (R * R))))
    (transformation_matrices : list (option Matrix4)) (DCM : Matrix3)
    : Outcome (list (list (list (R * R))) * list R) :=
  s ← for_each (printable_layer DCM) (zip layer_paths transformation_matrices)
        {| printable_pathPoints := []; midLayer_Z_Heights := [];
           printable_coords_3d := None |};
  Ok (printable_pathPoints s, midLayer_Z_Heights s).

(** ** Shells and brim

    What the shell functions use of shapely besides the operations above:
    offsets with mitred corners, and the rings of a polygon. *)

Class ShapelyRings (Geom : Type) : Type := {
  (** [g.buffer(distance, join_style=2)] *)
  buffer_mitred : Geom → Q → option Geom;
  (** [polygon.exterior], for a geometry that has one *)
  exterior : Geom → option Geom;
  (** [polygon.interiors], for a geometry that has them *)
  interiors : Geom → option (list Geom);
  (** [len(ring.coords)] *)
  num_coords : Geom → nat
}.

(** An attribute that the object may not have. *)
Definition attr {A} (r : option A) : Outcome A :=
  match r with
  | Some a => Ok a
  | None => Raise AttributeError
  end.

Section Shells.
Context {Geom : Type} `{!Shapely Geom} `{!ShapelyRings Geom}.

(** [polys.append(make_valid(geometry.buffer(distance, join_style=2)))] *)
Definition offset_into (distance : Q) (polys : list Geom) (geometry : Geom)
    : Outcome (list Geom) :=
  bufferedPoly ← lib (buffer_mitred geometry distance);
  valid ← lib (make_valid bufferedPoly);
  Ok (polys ++ [valid]).

Definition get_initial_shells_for_one_layer (shapely_polygons : list Geom) (lineWidth : Q)
    : Outcome (list (list Geom)) :=
  initialShellPolygons ← for_each (offset_into (- lineWidth / 2)) shapely_polygons [];
  Ok [initialShellPolygons].

(** The body of [for geometry in shellPolyList[shell]]: a multipolygon is
    offset as a whole, once for each of its parts. *)
Definition next_shell_polygons (lineWidth : Q) (volatilePolyList : list Geom)
    (geometry : Geom) : Outcome (list Geom) :=
  match geom_type geometry with
  | GT_Polygon => offset_into (- lineWidth) volatilePolyList geometry
  | GT_MultiPolygon =>
      for_each (λ volatilePolyList (poly : Geom),
                  offset_into (- lineWidth) volatilePolyList geometry)
               (geoms geometry) volatilePolyList
  | _ => Ok volatilePolyList
  end.

Definition next_shell (lineWidth : Q) (shellPolyList : list (list Geom)) (shell : Z)
    : Outcome (list (list Geom)) :=
  current ← py_getitem shellPolyList shell;
  volatilePolyList ← for_each (next_shell_polygons lineWidth) current [];
  Ok (shellPolyList ++ [volatilePolyList]).

Definition get_remaining_shells_for_one_layer (shellPolyList : list (list Geom))
    (lineWidth : Q) (shellThickness : Z) : Outcome (list (list Geom) * list Geom) :=
  shellPolyList ←
    (if 1 <? shellThickness then
       for_each (next_shell lineWidth) (py_range 0 (shellThickness - 1)) shellPolyList
     else Ok shellPolyList);
  innerMostPolygons ← py_getitem shellPolyList (-1);
  Ok (shellPolyList, innerMostPolygons).

(** The rings of one polygon that have at least four points: the exterior,
    then the holes. *)
Definition rings_of_polygon (shellRingsList : list Geom) (polygon : Geom)
    : Outcome (list Geom) :=
  ring ← attr (exterior polygon);
  let shellRingsList :=
    if (4 <=? num_coords ring)%nat then shellRingsList ++ [ring] else shellRingsList in
  holes ← attr (interiors polygon);
  Ok (foldl (λ shellRingsList hole,
               if (4 <=? num_coords hole)%nat then shellRingsList ++ [hole]
               else shellRingsList)
            shellRingsList holes).

Definition rings_of_geometry (shellRingsList : list Geom) (geometry : Geom)
    : Outcome (list Geom) :=
  match geom_type geometry with
  | GT_Polygon => rings_of_polygon shellRingsList geometry
  | GT_MultiPolygon =>
      for_each (λ shellRingsList poly,
                  match geom_type poly with
                  | GT_Polygon => rings_of_polygon shellRingsList poly
                  | _ => Ok shellRingsList
                  end)
               (geoms geometry) shellRingsList
  | _ => Ok shellRingsList
  end.

Definition get_shell_rings_for_one_layer (shellPolyList : list (list Geom))
    : Outcome (list Geom) :=
  for_each (λ shellRingsList shell, for_each rings_of_geometry shell shellRingsList)
           shellPolyList [].

Definition get_shells_for_one_layer (shapely_polygons : list Geom) (lineWidth : Q)
    (shellThickness : Z) : Outcome (list Geom * list Geom) :=
  shellPolyList ← get_initial_shells_for_one_layer shapely_polygons lineWidth;
  '(shellPolyList, innerMostPolygons) ←
    get_remaining_shells_for_one_layer shellPolyList lineWidth shellThickness;
  shellRingsList ← get_shell_rings_for_one_layer shellPolyList;
  Ok (innerMostPolygons, shellRingsList).

(** [create_brim], for a list of polygons.  The body of
    [for poly in current_polygons]; the state is [brim_layer_rings] and
    [brim_layer_polygons]. *)
Definition brim_of_polygon (lineWidth : Q) (acc : list Geom * list Geom) (poly : Geom)
    : Outcome (list Geom * list Geom) :=
  buffered_poly ← lib (buffer_mitred poly lineWidth);
  buffered_poly ← lib (make_valid buffered_poly);
  match geom_type buffered_poly with
  | GT_MultiPolygon =>
      for_each (λ (acc : list Geom * list Geom) geom,
                  ring ← attr (exterior geom); Ok (acc.1 ++ [ring], acc.2 ++ [geom]))
               (geoms buffered_poly) acc
  | _ =>
      ring ← attr (exterior buffered_poly);
      Ok (acc.1 ++ [ring], acc.2 ++ [buffered_poly])
  end.

Definition brim_line (lineWidth : Q) (acc : list (list Geom) * list Geom) (i : Z)
    : Outcome (list (list Geom) * list Geom) :=
  '(brim_layer_rings, brim_layer_polygons) ←
    for_each (brim_of_polygon lineWidth) acc.2 ([], []);
  Ok (acc.1 ++ [brim_layer_rings], brim_layer_polygons).

(** The polygons of the initial layer, a multipolygon replaced by its
    parts. *)
Definition flattened_polygons (shapely_polygons : list Geom) : list Geom :=
  flat_map (λ poly, match geom_type poly with
                    | GT_MultiPolygon => geoms poly
                    | _ => [poly]
                    end) shapely_polygons.

Definition create_brim (shapely_polygons : list Geom) (lineWidth : Q) (brim_lines : Z)
    : Outcome (list (list Geom)) :=
  '(brim_ring_list, _) ←
    for_each (brim_line lineWidth) (py_range 0 brim_lines)
             ([], flattened_polygons shapely_polygons);
  Ok brim_ring_list.

End Shells.

(** [inner] is [outer] offset by [distance] with mitred corners and made
    valid. *)
Definition offset_of {Geom : Type} `{!Shapely Geom} `{!ShapelyRings Geom}
    (distance : Q) (outer inner : Geom) : Prop :=
  ∃ bufferedPoly, buffer_mitred outer distance = Some bufferedPoly ∧
                  make_valid bufferedPoly = Some inner.

(** What a geometry of a shell gives to the next shell: its offset by the
    line width inwards, once for a polygon and once for each of its parts
    for a multipolygon; nothing for any other geometry. *)
Definition shell_offsets {Geom : Type} `{!Shapely Geom} `{!ShapelyRings Geom}
    (lineWidth : Q) (geometry : Geom) (news : list Geom) : Prop :=
  match geom_type geometry with
  | GT_Polygon => ∃ inner, offset_of (- lineWidth) geometry inner ∧ news = [inner]
  | GT_MultiPolygon =>
      ∃ inner, (geoms geometry = [] ∨ offset_of (- lineWidth) geometry inner) ∧
               news = replicate (length (geoms geometry)) inner
  | _ => news = []
  end.

(** Each shell is what the geometries of the shell before it give, one
    after the other. *)
Definition shells_nest {Geom : Type} `{!Shapely Geom} `{!ShapelyRings Geom}
    (lineWidth : Q) (shells : list (list Geom)) : Prop :=
  ∀ s outer inner, shells !! s = Some outer → shells !! S s = Some inner →
    ∃ newss, inner = concat newss ∧ Forall2 (shell_offsets lineWidth) outer newss.

(** The pieces of a polygon in the next line of the brim: its offset
    outwards by the line width, or the parts of the offset when it is a
    multipolygon. *)
Definition brim_pieces {Geom : Type} `{!Shapely Geom} `{!ShapelyRings Geom}
    (lineWidth : Q) (poly : Geom) (pieces : list Geom) : Prop :=
  ∃ buffered_poly, offset_of lineWidth poly buffered_poly ∧
    pieces = match geom_type buffered_poly with
             | GT_MultiPolygon => geoms buffered_poly
             | _ => [buffered_poly]
             end.

(** [rings] are the exteriors of [polygons], one by one. *)
Definition exteriors_of {Geom : Type} `{!ShapelyRings Geom} (rings polygons : list Geom)
    : Prop :=
  Forall2 (λ ring polygon, exterior polygon = Some ring) rings polygons.

(** Each level is the pieces of the polygons of the level before it, one
    polygon after the other; the first level is those of [start]. *)
Fixpoint brim_nests {Geom : Type} `{!Shapely Geom} `{!ShapelyRings Geom}
    (lineWidth : Q) (start : list Geom) (levels : list (list Geom)) : Prop :=
  match levels with
  | [] => True
  | level :: levels =>
      (∃ piecess, level = concat piecess ∧ Forall2 (brim_pieces lineWidth) start piecess) ∧
      brim_nests lineWidth level levels
  end.

(** [polygon] is [geometry] itself when it is a polygon, and one of its
    parts that are polygons when it is a multipolygon. *)
Definition polygon_of {Geom : Type} `{!Shapely Geom} (geometry polygon : Geom) : Prop :=
  match geom_type geometry with
  | GT_Polygon => polygon = geometry
  | GT_MultiPolygon => polygon ∈ geoms geometry ∧ geom_type polygon = GT_Polygon
  | _ => False
  end.

(** [ring] is the exterior of [polygon] or one of its holes. *)
Definition ring_of {Geom : Type} `{!ShapelyRings Geom} (polygon ring : Geom) : Prop :=
  exterior polygon = Some ring ∨ ∃ holes, interiors polygon = Some holes ∧ ring ∈ holes.

(** [ring] has at least four points and bounds a polygon of one of the
    shells. *)
Definition shell_ring {Geom : Type} `{!Shapely Geom} `{!ShapelyRings Geom}
    (shellPolyList : list (list Geom)) (ring : Geom) : Prop :=
  (4 ≤ num_coords ring)%nat ∧
  ∃ shell geometry polygon,
    shell ∈ shellPolyList ∧ geometry ∈ shell ∧
    polygon_of geometry polygon ∧ ring_of polygon ring.

(** [start] is [shapely_polygons] with every multipolygon replaced by its
    parts. *)
Definition flattens {Geom : Type} `{!Shapely Geom} (shapely_polygons start : list Geom)
    : Prop :=
  ∃ partss,
    start = concat partss ∧
    Forall2 (λ poly parts, parts = match geom_type poly with
                                   | GT_MultiPolygon => geoms poly
                                   | _ => [poly]
                                   end) shapely_polygons partss.

(** The raster as such a library, one cell to the unit of length.  A
    geometry is the list of its parts, a multipolygon when there are two
    or more; the operations work on the cells of all the parts and return
    one part.  Offsets go outwards and inwards by whole cells, corners
    included; a geometry is bounded by one closed ring of five points when
    it is not empty, and has no holes. *)
Module RasterParts.

Definition region (g : list (gset Cell)) : gset Cell := ⋃ g.

#[global] Instance parts_shapely : Shapely (list (gset Cell)) := {|
  geom_type := λ g, if (length g <=? 1)%nat then GT_Polygon else GT_MultiPolygon;
  is_empty := λ g, bool_decide (region g = ∅);
  is_valid := λ _, true;
  geoms := λ g, (λ part, [part]) <$> g;
  empty_polygon := [];
  MultiPolygon_of := λ gs, Some (concat gs);
  orient := λ g, Some g;
  unary_union := λ gs, Some [region (concat gs)];
  buffer := λ g _, Some g;
  make_valid := λ g, Some g;
  intersects := λ a b, Some (bool_decide (region a ∩ region b ≠ ∅));
  intersection := λ a b, Some [region a ∩ region b];
  difference := λ a b, Some [region a ∖ region b];
  equals_exact := λ a b _, Some (bool_decide (region a = region b))
|}.

Definition neighbourhood (r : Z) (c : Cell) : list Cell :=
  x ← seqZ (c.1 - r) (2 * r + 1); y ← seqZ (c.2 - r) (2 * r + 1); [(x, y)].

Definition dilate (r : Z) (g : gset Cell) : gset Cell :=
  list_to_set (elements g ≫= neighbourhood r).

Definition erode (r : Z) (g : gset Cell) : gset Cell :=
  filter (λ c, Forall (λ c', c' ∈ g) (neighbourhood r c)) g.

#[global] Instance parts_rings : ShapelyRings (list (gset Cell)) := {|
  buffer_mitred := λ g distance,
    Some [if Qle_bool 0 distance then dilate (Qfloor distance) (region g)
          else erode (Qfloor (- distance)) (region g)];
  exterior := λ g, Some g;
  interiors := λ _, Some [];
  num_coords := λ g, if decide (region g = ∅) then 0%nat else 5%nat
|}.

End RasterParts.

(** ** Infill lines

    [clean_geometry_list_to_only_linestrings] reads one more attribute of
    a geometry, its length. *)

Class ShapelyLines (Geom : Type) : Type := {
  (** [geometry.length] *)
  geom_length : Geom → Q
}.

Section CleanGeometry.
Context {Geom : Type} `{!Shapely Geom} `{!ShapelyLines Geom}.

(** The body of [for g in geometry.geoms] under a multilinestring. *)
Definition keep_part (minInfillLineLength : Q) (lineStringsOnlyList : list Geom) (g : Geom)
    : list Geom :=
  match geom_type g with
  | GT_LineString =>
      if negb (is_empty g) then
        if Qlt_le_dec minInfillLineLength (geom_length g)
        then lineStringsOnlyList ++ [g] else lineStringsOnlyList
      else lineStringsOnlyList
  | _ => lineStringsOnlyList
  end.

(** The body of [for g in geometry.geoms] under a geometry collection: its
    second branch tests the type of the collection, not of the part. *)
Definition keep_collection_part (minInfillLineLength : Q) (geometry : Geom)
    (lineStringsOnlyList : list Geom) (g : Geom) : list Geom :=
  let nested :=
    match geom_type geometry with
    | GT_MultiLineString =>
        foldl (keep_part minInfillLineLength) lineStringsOnlyList (geoms geometry)
    | _ => lineStringsOnlyList
    end in
  match geom_type g with
  | GT_LineString =>
      if negb (is_empty g) then
        if Qlt_le_dec minInfillLineLength (geom_length g)
        then lineStringsOnlyList ++ [g] else lineStringsOnlyList
      else nested
  | _ => nested
  end.

(** The body of [for element in geometryList]. *)
Definition clean_element (minInfillLineLength : Q) (lineStringsOnlyList : list Geom)
    (element : list Geom) : Outcome (list Geom) :=
  geometry ← py_getitem element 0;
  if negb (is_empty geometry) then
    match geom_type geometry with
    | GT_LineString =>
        if Qlt_le_dec minInfillLineLength (geom_length geometry)
        then Ok (lineStringsOnlyList ++ [geometry]) else Ok lineStringsOnlyList
    | GT_MultiLineString =>
        Ok (foldl (keep_part minInfillLineLength) lineStringsOnlyList (geoms geometry))
    | GT_GeometryCollection =>
        Ok (foldl (keep_collection_part minInfillLineLength geometry) lineStringsOnlyList
              (geoms geometry))
    | _ => Ok lineStringsOnlyList
    end
  else Ok lineStringsOnlyList.

Definition clean_geometry_list_to_only_linestrings (geometryList : list (list Geom))
    (minInfillLineLength : Q) : Outcome (list Geom) :=
  for_each (clean_element minInfillLineLength) geometryList [].

(** A line string that is not empty and longer than the minimum. *)
Definition long_linestring (minInfillLineLength : Q) (g : Geom) : Prop :=
  geom_type g = GT_LineString ∧ is_empty g = false ∧
  (minInfillLineLength < geom_length g)%Q.

(** [g] is the geometry of an element of the list, or a part of it when
    it is a multilinestring or a geometry collection; an empty geometry
    offers nothing. *)
Definition offered (geometryList : list (list Geom)) (g : Geom) : Prop :=
  ∃ element geometry,
    element ∈ geometryList ∧ element !! 0%nat = Some geometry ∧
    is_empty geometry = false ∧
    (g = geometry ∨
     (geom_type geometry = GT_MultiLineString ∨
      geom_type geometry = GT_GeometryCollection) ∧ g ∈ geoms geometry).

End CleanGeometry.

(** ** Segments for the display

    [paths_to_3d_segments]: a row of the array it returns is a pair of 3D
    points, the start and the end of a segment. *)

Definition Segment : Type := (Vector3 * Vector3)%type.

(** The body of [for path in paths].  [np.zeros((len(coords_3d) - 1, 6))]
    raises for a path without points. *)
Definition segments_of_path (transform : option Matrix4) (all_segments : list (list Segment))
    (path : list (R * R)) : Outcome (list (list Segment)) :=
  coords_3d ← for_each (λ (acc : list Vector3) point,
                          p ← transform_point point transform; Ok (acc ++ [p]))
                       path [];
  match coords_3d with
  | [] => Raise ValueError
  | _ :: _ => Ok (all_segments ++ [zip (removelast coords_3d) (tail coords_3d)])
  end.

Definition paths_to_3d_segments (layer_paths : list (list (list (R * R))))
    (transformation_matrices : list (option Matrix4)) : Outcome (list Segment) :=
  all_segments ←
    for_each (λ (all_segments : list (list Segment))
                (layer : list (list (R * R)) * option Matrix4),
                for_each (segments_of_path layer.2) layer.1 all_segments)
             (zip layer_paths transformation_matrices) [];
  Ok (concat all_segments).

(** [p] and [q] follow each other on a path of layer [i], which has the
    transform [transform]. *)
Definition consecutive_on_layer (layer_paths : list (list (list (R * R))))
    (transformation_matrices : list (option Matrix4))
    (transform : option Matrix4) (p q : R * R) : Prop :=
  ∃ (i j : nat) paths path,
    layer_paths !! i = Some paths ∧ transformation_matrices !! i = Some transform ∧
    path ∈ paths ∧ path !! j = Some p ∧ path !! S j = Some q.

(** The segments of one path: one for every two points that follow each
    other. *)
Definition segments_from (transform : option Matrix4) (path : list (R * R))
    (segments : list Segment) : Prop :=
  path ≠ [] ∧ length segments = (length path - 1)%nat ∧
  ∀ a b, (a, b) ∈ segments ↔
         ∃ (j : nat) p q, path !! j = Some p ∧ path !! S j = Some q ∧
                          transform_point p transform = Ok a ∧
                          transform_point q transform = Ok b.

(** ** Hatch lines

    [define_alternating_infill_hatches_once] and
    [define_monolithic_infill_hatch_once].  A hatch line is a line string
    of two points. *)

Definition Line : Type := ((R * R) * (R * R))%type.

(** What is left to numpy: the number of values of
    [np.arange(start, stop, step)].  It is the ceiling of the quotient
    [(stop - start) / step] as the doubles compute it, which is not always
    the ceiling of the exact quotient: for 0.6, 150.0 and 0.6 the doubles
    give 250 values, the last one on the edge 150.0 itself, where the exact
    quotient gives 249. *)
Class Numpy : Type := {
  arange_length : R → R → R → Z
}.

(** A numpy that counts with the exact quotient. *)
#[global] Instance exact_numpy : Numpy := {|
  arange_length := λ start stop step, Zceil ((stop - start) / step)
|}.

(** [np.arange(start, stop, step)]: as many values [start + i * step] as
    numpy counts; a zero step is refused. *)
Definition np_arange_R `{!Numpy} (start stop step : R) : Outcome (list R) :=
  if Req_dec_T step 0 then Raise (LibraryError "numpy")
  else Ok (map (λ i, (start + IZR i * step)%R) (seqZ 0 (arange_length start stop step))).

(** [affinity.rotate(line, angle, origin=Point(0, 0), use_radians=False)]:
    counter-clockwise, by [angle] degrees. *)
Definition rotate_point (angle : R) (p : R * R) : R * R :=
  let theta := (angle * PI / 180)%R in
  (cos theta * p.1 - sin theta * p.2, sin theta * p.1 + cos theta * p.2)%R.

Definition rotate (angle : R) (line : Line) : Line :=
  (rotate_point angle line.1, rotate_point angle line.2).

(** [LineString([(-buildRadius, y), (buildRadius, y)])] *)
Definition horizontal (buildRadius y : R) : Line := ((- buildRadius, y), (buildRadius, y))%R.

(** The horizontal lines over the build plate, [buildAreaLines_0]. *)
Definition buildAreaLines_0 `{!Numpy} (buildRadius definedSpacing : R)
    : Outcome (list Line) :=
  Ypositive ← np_arange_R definedSpacing buildRadius definedSpacing;
  let Ynegative := map Ropp (reverse Ypositive) in
  let Ycoords := Ynegative ++ [0%R] ++ Ypositive in
  Ok (map (horizontal buildRadius) Ycoords).

Definition define_alternating_infill_hatches_once `{!Numpy} (buildRadius lineWidth : R)
    : Outcome (list Line * list Line) :=
  let definedSpacing := lineWidth in
  buildAreaLines_0 ← buildAreaLines_0 buildRadius definedSpacing;
  let buildAreaLines_plus_45 := map (rotate 45) buildAreaLines_0 in
  let buildAreaLines_minus_45 := map (rotate 135) buildAreaLines_0 in
  Ok (buildAreaLines_plus_45, buildAreaLines_minus_45).

(** [None] is Python's [None]; for a type that is not triangular no branch
    binds [buildAreaHatch]. *)
Definition define_monolithic_infill_hatch_once `{!Numpy} (infillType : string)
    (buildRadius lineWidth infillPercentage : R) : Outcome (option (list Line)) :=
  if Rle_dec infillPercentage 0 then Ok None
  else if Rle_dec 1 infillPercentage then Ok None
  else if String.eqb infillType "Triangular" then
    let definedSpacing := round_R (3 * (lineWidth / infillPercentage)) 3 in
    buildAreaLines_0 ← buildAreaLines_0 buildRadius definedSpacing;
    let buildAreaLines_60 := map (rotate 60) buildAreaLines_0 in
    let buildAreaLines_120 := map (rotate 120) buildAreaLines_0 in
    Ok (Some (buildAreaLines_0 ++ buildAreaLines_60 ++ buildAreaLines_120))
  else Raise UnboundLocalError.

(** The vector from the first point of a line to its second point. *)
Definition direction (line : Line) : R * R :=
  (line.2.1 - line.1.1, line.2.2 - line.1.2)%R.

Definition dot2 (u v : R * R) : R := (u.1 * v.1 + u.2 * v.2)%R.

(** The number of lines on each side of the middle one: the number of
    values of [np.arange(definedSpacing, buildRadius, definedSpacing)]. *)
Definition lines_per_side `{!Numpy} (buildRadius definedSpacing : R) : nat :=
  Z.to_nat (arange_length definedSpacing buildRadius definedSpacing).

(** [lines] are the [2 n + 1] horizontal lines at the heights
    [-n s, ..., -s, 0, s, ..., n s], turned by [angle] degrees. *)
Definition evenly_spaced (buildRadius definedSpacing angle : R) (n : nat)
    (lines : list Line) : Prop :=
  length lines = (2 * n + 1)%nat ∧
  ∀ k line, lines !! k = Some line →
    ∃ y, y = ((IZR (Z.of_nat k) - IZR (Z.of_nat n)) * definedSpacing)%R ∧
         line = rotate angle (horizontal buildRadius y).

(** ** The single-direction writer

    [write_3_axis_gcode], from the first layer to the footer.  The file is
    the list of the lines written; the header, which only prints the
    settings and the start-up commands, and the last lines of the footer,
    which home the axes, are one entry each. *)
Module Gcode3Axis.

Record PrintSettings : Type := {
  nozzleTemp : R;
  bedTemp : R;
  layerHeight : R;
  printSpeed : R;
  initialPrintSpeed : R;
  travelSpeed : R;
  initialTravelSpeed : R;
  enableZHop : bool;
  enableRetraction : bool;
  retractionDistance : R;
  retractionSpeed : R;
  enableBrim : bool
}.

Inductive gline : Type :=
  | Header                          (* ;SLICER: ... ;END OF HEADER *)
  | Layer (k : Z)                   (* ;Layer k *)
  | M104 (S : R)                    (* M104 S.. *)
  | M140 (S : R)                    (* M140 S.. *)
  | Title (text : string)           (* ;Brim  ;Shell(s)  ;Solid Infill  ... *)
  | Move (cmd : gcommand)
  | HomeAxes.                       (* G28 Y ... ;End of GCODE *)

(** The globals [E] and [previousE], the file, and the local
    [nozzleHeight], unbound until a layer with a transform is met. *)
Record BodyState : Type := {
  body_E : R;
  body_previousE : R;
  openFile : list gline;
  nozzleHeight : option R
}.

Definition write_lines (lines : list gline) (s : BodyState) : BodyState :=
  {| body_E := body_E s; body_previousE := body_previousE s;
     openFile := openFile s ++ lines; nozzleHeight := nozzleHeight s |}.

(** The body of [for pathPoints in paths]: one call of the closure, then
    [runOnce = False]. *)
Definition transcribe_path (c : WriterContext) (PRINT_FEEDRATE : R)
    (acc : BodyState * bool) (pathPoints : list (R * R)) : BodyState * bool :=
  let st := Write3Axis.transcribe_pathPoints_to_gcode c pathPoints PRINT_FEEDRATE acc.2
              {| E := body_E acc.1; previousE := body_previousE acc.1; written := [] |} in
  ({| body_E := E st; body_previousE := previousE st;
      openFile := openFile acc.1 ++ map Move (written st);
      nozzleHeight := nozzleHeight acc.1 |}, false).

(** A feature of a layer: its title, then its paths. *)
Definition write_feature (c : WriterContext) (PRINT_FEEDRATE : R) (title : list gline)
    (paths : list (list (R * R))) (s : BodyState) : BodyState :=
  (fold_left (transcribe_path c PRINT_FEEDRATE) paths (write_lines title s, true)).1.

(** [[list(line[0].coords) for line in infills]] *)
Definition first_lines (infills : list (list (list (R * R)))) : Outcome (list (list (R * R))) :=
  for_each (λ (acc : list (list (R * R))) line, l ← py_getitem line 0; Ok (acc ++ [l]))
           infills [].

Definition write_infill (c : WriterContext) (PRINT_FEEDRATE : R) (title : string)
    (infills : list (list (list (R * R)))) (s : BodyState) : Outcome BodyState :=
  match infills with
  | [] => Ok s
  | _ :: _ =>
      paths ← first_lines infills;
      Ok (write_feature c PRINT_FEEDRATE [Title title] paths s)
  end.

Section Layers.
Variable printSettings : PrintSettings.
Variable transform3DList : list (option Matrix4).
Variable adhesionList : list (list (list (list (R * R)))).
Variable shellRingsListList : list (list (list (R * R))).
Variable optimizedInternalInfills optimizedSolidInfills : list (list (list (list (R * R)))).

Definition E_FEEDRATE : R := (retractionSpeed printSettings * 60)%R.
Definition G1XY_SLOW_FEEDRATE : R := (initialPrintSpeed printSettings * 60)%R.
Definition G1XY_FEEDRATE : R := (printSpeed printSettings * 60)%R.
(** Set once, before the first layer, from the nominal travel speed. *)
Definition G0Z_FEEDRATE : R := (travelSpeed printSettings * 60 / 5)%R.

(** The speeds of layer [k]. *)
Definition G0XY_FEEDRATE (k : Z) : R :=
  if k =? 0 then (initialTravelSpeed printSettings * 60)%R
  else (travelSpeed printSettings * 60)%R.

Definition PRINT_FEEDRATE (k : Z) : R :=
  if k =? 0 then G1XY_SLOW_FEEDRATE else G1XY_FEEDRATE.

(** What the closure reads while layer [k] is written at the height [h]. *)
Definition context (k : Z) (h : R) : WriterContext :=
  Build_WriterContext (enableRetraction printSettings) (enableZHop printSettings)
    (retractionDistance printSettings) (layerHeight printSettings) h
    E_FEEDRATE (G0XY_FEEDRATE k) G0Z_FEEDRATE.

(** The body of [for k in range(numLayers)]. *)
Definition write_layer (s : BodyState) (k : Z) : Outcome BodyState :=
  let s := write_lines [Layer k] s in
  let s :=
    if k =? 1
    then write_lines [M104 (nozzleTemp printSettings); M140 (bedTemp printSettings)] s
    else s in
  current3DTransform ← py_getitem transform3DList k;
  match current3DTransform with
  | None => Ok s
  | Some (_, _, r2, _) =>
      let h := (r2.2 + 0.5 * layerHeight printSettings)%R in
      let c := context k h in
      let s :=
        {| body_E := body_E s; body_previousE := body_previousE s;
           openFile := openFile s ++ [Move (G0_Z G0Z_FEEDRATE (round_R h 5))];
           nozzleHeight := Some h |} in
      s ← (if k =? 0 then
             adhesion ← py_getitem adhesionList 0;
             match adhesion with
             | [] => Ok s
             | _ :: _ =>
                 Ok (write_feature c (PRINT_FEEDRATE k)
                       (if enableBrim printSettings then [Title "Brim"] else [])
                       (reverse (concat adhesion)) s)
             end
           else Ok s);
      shells ← py_getitem shellRingsListList k;
      let s :=
        match shells with
        | [] => s
        | _ :: _ => write_feature c (PRINT_FEEDRATE k) [Title "Shell(s)"] shells s
        end in
      solidInfills ← py_getitem optimizedSolidInfills k;
      s ← write_infill c (PRINT_FEEDRATE k) "Solid Infill" solidInfills s;
      internalInfills ← py_getitem optimizedInternalInfills k;
      write_infill c (PRINT_FEEDRATE k) "Internal Infill" internalInfills s
  end.

Definition write_3_axis_gcode : Outcome (list gline) :=
  let numLayers := Z.of_nat (length transform3DList) in
  s ← for_each write_layer (py_range 0 numLayers)
        {| body_E := 0; body_previousE := 0; openFile := [Header]; nozzleHeight := None |};
  let s :=
    write_lines [Title "FOOTER:";
                 Move (G1_E E_FEEDRATE (round_R (body_E s - 2.0) 5) "Retract for end of print")]
      s in
  match nozzleHeight s with
  | None => Raise UnboundLocalError
  | Some h =>
      Ok (openFile s ++
          [Move (G0_Z G0Z_FEEDRATE (round_R (h + layerHeight printSettings) 5));
           M140 0; M104 0; HomeAxes])
  end.

(** A line that moves in the plane does so at these speeds: [travel]
    without extruding, [print] while extruding. *)
Definition at_speeds (travel print : R) (line : gline) : Prop :=
  match line with
  | Move (G0_XY F _ _) => F = travel
  | Move (G1_XYE F _ _ _) => F = print
  | _ => True
  end.

End Layers.

End Gcode3Axis.

(* ===================================================================== *)
(** * Properties *)
(* ===================================================================== *)

(** C9. A mesh with Z bounds [0, 10] sliced at layer height 1.0: the ten
    nozzle levels 0..9 give ten nominal slice levels z - 1/2, the first of
    which (-1/2) is removed, leaving the nine levels 1/2 .. 17/2. *)
Theorem slice_levels_0_10 :
  SliceLevels.z_levels 0 10 1 = [0; 1; 2; 3; 4; 5; 6; 7; 8; 9]%Q ∧
  SliceLevels.nominal_slice_levels 0 10 1 =
    map (fun z => Qred (z - 1 / 2)%Q) (SliceLevels.z_levels 0 10 1) ∧
  (∃ first levels,
      SliceLevels.nominal_slice_levels 0 10 1 = first :: levels ∧
      SliceLevels.slice_levels 0 10 1 = Ok levels ∧
      levels = [1 # 2; 3 # 2; 5 # 2; 7 # 2; 9 # 2; 11 # 2; 13 # 2; 15 # 2; 17 # 2]%Q ∧
      length levels = 9%nat).
Proof.
  split; [reflexivity|]. split; [reflexivity|].
  eexists _, _. repeat split; reflexivity.
Qed.

(** ** Path ordering *)

Ltac outcome_simpl := cbn [mbind outcome_bind obind mret outcome_ret].

Lemma py_getitem_lookup {A} (l : list A) (i : nat) (x : A) :
  l !! i = Some x → py_getitem l (Z.of_nat i) = Ok x.
Proof.
  intros Hx. pose proof (lookup_lt_Some _ _ _ Hx) as Hlt.
  unfold py_getitem.
  destruct (Z.ltb_spec (Z.of_nat i) 0) as [?|_]; [lia|].
  destruct (Z.leb_spec 0 (Z.of_nat i)) as [_|?]; [|lia].
  destruct (Z.ltb_spec (Z.of_nat i) (Z.of_nat (length l))) as [_|?]; [|lia].
  simpl. by rewrite Nat2Z.id, Hx.
Qed.

Lemma argmin_from_bound (l : list Qc) best besti i :
  (besti < i)%nat → (argmin_from best besti i l < i + length l)%nat.
Proof.
  revert best besti i. induction l as [|x l IH]; intros best besti i Hi; simpl.
  - lia.
  - destruct (decide (x < best)%Qc).
    + specialize (IH x i (S i)). lia.
    + specialize (IH best besti (S i)). lia.
Qed.

Lemma np_argmin_bound (l : list Qc) :
  l ≠ [] → ∃ i, np_argmin l = Ok i ∧ (i < length l)%nat.
Proof.
  destruct l as [|x l]; [done|]. intros _. eexists. split; [reflexivity|].
  simpl. pose proof (argmin_from_bound l x 0%nat 1%nat). lia.
Qed.

Lemma np_argmin_map_bound {A} (f : A → Qc) (l : list A) :
  l ≠ [] → ∃ i x, np_argmin (map f l) = Ok i ∧ l !! i = Some x.
Proof.
  intros Hl. destruct (np_argmin_bound (map f l)) as (i & Hi & Hlt).
  { by destruct l. }
  rewrite length_map in Hlt.
  destruct (lookup_lt_is_Some_2 l i Hlt) as [x Hx]. eauto.
Qed.

(** One turn of the loop on a two-point line: the nearest end first. *)
Lemma nearest_then_farthest (prev : Point) (line : LineString) :
  two_point line →
  ∃ i near far,
    np_argmin (map (point_distance2 prev) line) = Ok i ∧
    py_getitem line (Z.of_nat i) = Ok near ∧
    py_getitem line (if decide (i = 0%nat) then 1 else 0) = Ok far ∧
    same_segment [near; far] line.
Proof.
  intros Hlen. destruct line as [|a [|b [|? ?]]]; try discriminate Hlen.
  destruct (np_argmin_bound (map (point_distance2 prev) [a; b])) as (i & Hi & Hlt);
    [done|].
  simpl in Hlt. exists i.
  destruct i as [|[|i]]; [| |lia].
  - exists a, b. repeat split; try done. by left.
  - exists b, a. repeat split; try done. by right.
Qed.

Lemma optimize_step_spec (s : OptimizerState) n :
  length (infillLineStrings s) = S (S n) →
  (visitedLineIndex s < length (infillLineStrings s))%nat →
  Forall two_point (infillLineStrings s) →
  ∃ s' line o,
    optimize_step s = Ok s' ∧
    infillLineStrings s' = delete (visitedLineIndex s) (infillLineStrings s) ∧
    infillLineStrings s' !! visitedLineIndex s' = Some line ∧
    same_segment o line ∧
    optimizedInfillPath s' = optimizedInfillPath s ++ [[o]].
Proof.
  intros Hlen Hv Htwo. unfold optimize_step, py_pop.
  rewrite decide_True by done. outcome_simpl.
  set (rest := delete (visitedLineIndex s) (infillLineStrings s)).
  assert (length rest = S n) as Hrest.
  { pose proof (length_delete (infillLineStrings s) (visitedLineIndex s)) as Hd.
    destruct (lookup_lt_is_Some_2 _ _ Hv) as [x Hx].
    specialize (Hd (ltac:(eauto))). subst rest. lia. }
  destruct (np_argmin_map_bound (line_distance2 (previousTailPoint s)) rest)
    as (i & line & -> & Hline).
  { intros E. by rewrite E in Hrest. }
  outcome_simpl. rewrite (py_getitem_lookup _ _ _ Hline). outcome_simpl.
  assert (two_point line) as Hl2.
  { assert (Forall two_point rest) as Hall.
    { subst rest. rewrite delete_take_drop. apply Forall_app. split.
      - by apply Forall_take.
      - by apply Forall_drop. }
    eapply Forall_forall in Hall; [exact Hall|].
    eapply list_elem_of_lookup_2, Hline. }
  destruct (nearest_then_farthest (previousTailPoint s) line Hl2)
    as (j & near & far & Hj & Hnear & Hfar & Hsame).
  rewrite Hj. outcome_simpl. rewrite Hnear. outcome_simpl.
  rewrite Hfar. outcome_simpl. eexists _, line, [near; far]. split; [reflexivity|].
  simpl. repeat split; try done.
Qed.

Lemma iterate_optimize_spec n (s : OptimizerState) (done : list LineString)
    (input : list LineString) :
  length (infillLineStrings s) = S n →
  (visitedLineIndex s < length (infillLineStrings s))%nat →
  Forall two_point (infillLineStrings s) →
  Forall (fun e => length e = 1%nat) (optimizedInfillPath s) →
  Forall2 same_segment (concat (optimizedInfillPath s)) done →
  done ++ delete (visitedLineIndex s) (infillLineStrings s) ≡ₚ input →
  ∃ s', iterate n optimize_step s = Ok s' ∧
        Forall (fun e => length e = 1%nat) (optimizedInfillPath s') ∧
        uses_each_once (concat (optimizedInfillPath s')) input.
Proof.
  revert s done. induction n as [|n IH]; intros s dn Hlen Hv Htwo Hone Hsame Hperm.
  - exists s. split; [reflexivity|]. split; [done|].
    exists dn. split; [|done].
    destruct (infillLineStrings s) as [|x [|? ?]]; try discriminate Hlen.
    simpl in Hv. assert (visitedLineIndex s = 0%nat) as Hz by lia.
    rewrite Hz in Hperm. simpl in Hperm. by rewrite app_nil_r in Hperm.
  - destruct (optimize_step_spec s n Hlen Hv Htwo)
      as (s1 & line & o & Hstep & Hrem & Hline & Ho & Hout).
    simpl. rewrite Hstep. outcome_simpl.
    destruct (lookup_lt_is_Some_2 _ _ Hv) as [x Hx].
    assert (length (infillLineStrings s1) = S n) as Hlen1.
    { rewrite Hrem. pose proof (length_delete (infillLineStrings s) (visitedLineIndex s)) as Hd.
      specialize (Hd (ltac:(eauto))). lia. }
    apply (IH s1 (dn ++ [line])).
    + done.
    + eapply lookup_lt_Some, Hline.
    + rewrite Hrem, delete_take_drop. apply Forall_app. split.
      * by apply Forall_take.
      * by apply Forall_drop.
    + rewrite Hout. apply Forall_app. split; [done|]. by constructor.
    + rewrite Hout, concat_app. simpl. apply Forall2_app; [done|].
      by constructor.
    + rewrite <- (assoc_L (++)). simpl.
      rewrite <- (delete_Permutation _ _ _ Hline). by rewrite Hrem.
Qed.

Lemma py_remove_two_point (start : Point) (line : LineString) :
  two_point line → start ∈ line →
  ∃ last, py_remove start line = Ok [last] ∧ same_segment [start; last] line.
Proof.
  intros Hlen Hin. destruct line as [|a [|b [|? ?]]]; try discriminate Hlen.
  simpl. destruct (decide (a = start)) as [->|Hne].
  - exists b. split; [done|]. by left.
  - assert (b = start) as ->.
    { apply elem_of_cons in Hin as [->|Hin]; [done|].
      by apply list_elem_of_singleton in Hin. }
    rewrite decide_True by done. exists a. split; [done|]. by right.
Qed.

Lemma optimize_infill_paths_spec (firstLineIndex : nat) (firstLine : LineString)
    (firstLineStartPoint : Point) (lines : list LineString) :
  Forall two_point lines →
  lines !! firstLineIndex = Some firstLine →
  firstLineStartPoint ∈ firstLine →
  ∃ out,
    optimize_infill_paths_for_one_layer
      firstLineIndex firstLine firstLineStartPoint lines = Ok out ∧
    Forall (fun e => length e = 1%nat) out ∧
    uses_each_once (concat out) lines.
Proof.
  intros Htwo Hfirst Hstart.
  assert (two_point firstLine) as H2.
  { eapply Forall_forall in Htwo; [exact Htwo|]. eapply list_elem_of_lookup_2, Hfirst. }
  destruct (py_remove_two_point _ _ H2 Hstart) as (last & Hrem & Hsame).
  unfold optimize_infill_paths_for_one_layer. rewrite Hrem.
  outcome_simpl. change (py_getitem [last] 0) with (Ok last).
  outcome_simpl.
  pose proof (lookup_lt_Some _ _ _ Hfirst) as Hlt.
  destruct (iterate_optimize_spec (length lines - 1)
    {| infillLineStrings := lines; visitedLineIndex := firstLineIndex;
       previousTailPoint := last;
       optimizedInfillPath := [[[firstLineStartPoint; last]]] |}
    [firstLine] lines) as (s' & Hs' & Hone & Huse); simpl.
  - lia.
  - done.
  - done.
  - by repeat constructor.
  - constructor; [exact Hsame | constructor].
  - by rewrite <- (delete_Permutation _ _ _ Hfirst).
  - rewrite Hs'. outcome_simpl. eauto.
Qed.

Lemma get_infill_start_location_spec (lines : list LineString) (p : Point) :
  lines ≠ [] → Forall two_point lines →
  ∃ i line start,
    get_infill_start_location_for_one_layer lines p = Ok (i, line, start) ∧
    lines !! i = Some line ∧ start ∈ line.
Proof.
  intros Hne Htwo. unfold get_infill_start_location_for_one_layer.
  destruct (np_argmin_map_bound (line_distance2 p) lines Hne) as (i & line & -> & Hline).
  outcome_simpl. rewrite (py_getitem_lookup _ _ _ Hline). outcome_simpl.
  assert (line ≠ []) as Hl.
  { eapply Forall_forall in Htwo; [|eapply list_elem_of_lookup_2, Hline].
    intros ->. discriminate Htwo. }
  destruct (np_argmin_map_bound (point_distance2 p) line Hl) as (j & start & -> & Hstart).
  outcome_simpl. rewrite (py_getitem_lookup _ _ _ Hstart). outcome_simpl.
  eexists _, _, _. split; [reflexivity|]. split; [done|].
  eapply list_elem_of_lookup_2, Hstart.
Qed.

(** C3. For a list of two-point segments, [optimize_infill_paths_for_one_layer]
    started at one of the segments and at one of its two ends returns, one
    segment per path element, every input segment exactly once, each
    possibly with its ends exchanged; so does the chain of the start
    selection and the ordering on every nonempty list. *)
Theorem optimize_infill_paths_uses_every_segment_once :
  (∀ (firstLineIndex : nat) (firstLine : LineString) (firstLineStartPoint : Point)
     (lines : list LineString),
      Forall two_point lines →
      lines !! firstLineIndex = Some firstLine →
      firstLineStartPoint ∈ firstLine →
      ∃ out,
        optimize_infill_paths_for_one_layer
          firstLineIndex firstLine firstLineStartPoint lines = Ok out ∧
        Forall (fun e => length e = 1%nat) out ∧
        uses_each_once (concat out) lines) ∧
  (∀ (lines : list LineString) (finalShellPoint : Point),
      lines ≠ [] → Forall two_point lines →
      ∃ out,
        optimized_infill_for_one_layer lines finalShellPoint = Ok out ∧
        Forall (fun e => length e = 1%nat) out ∧
        uses_each_once (concat out) lines).
Proof.
  split.
  - apply optimize_infill_paths_spec.
  - intros lines p Hne Htwo.
    destruct (get_infill_start_location_spec lines p Hne Htwo)
      as (i & line & start & Hloc & Hline & Hstart).
    unfold optimized_infill_for_one_layer.
    destruct lines as [|l0 ls] eqn:E; [done|]. rewrite <- E in *.
    rewrite Hloc. outcome_simpl.
    by apply optimize_infill_paths_spec.
Qed.

Lemma optimize_infill_paths_example :
  ∃ out,
    optimized_infill_for_one_layer
      [[pt 5 5; pt 6 6]; [pt 1 0; pt 2 0]] (pt 0 0) = Ok out ∧
    Forall (fun e => length e = 1%nat) out ∧
    uses_each_once (concat out) [[pt 5 5; pt 6 6]; [pt 1 0; pt 2 0]].
Proof.
  apply (proj2 optimize_infill_paths_uses_every_segment_once).
  - discriminate.
  - repeat constructor.
Defined.

(** ** Start selection *)

Lemma argmin_from_spec (pre l : list Qc) (best : Qc) (besti : nat) :
  pre !! besti = Some best →
  (∀ j y, pre !! j = Some y → (best ≤ y)%Qc) →
  (∀ j y, (j < besti)%nat → pre !! j = Some y → (best < y)%Qc) →
  ∃ m, (pre ++ l) !! argmin_from best besti (length pre) l = Some m ∧
       (∀ j y, (pre ++ l) !! j = Some y → (m ≤ y)%Qc) ∧
       (∀ j y, (j < argmin_from best besti (length pre) l)%nat →
               (pre ++ l) !! j = Some y → (m < y)%Qc).
Proof.
  revert pre best besti. induction l as [|x l IH]; intros pre best besti Hb Hle Hlt.
  - simpl. rewrite app_nil_r. eauto.
  - simpl. replace (pre ++ x :: l) with ((pre ++ [x]) ++ l)
      by (by rewrite <- (assoc_L (++))).
    replace (S (length pre)) with (length (pre ++ [x]))
      by (rewrite length_app; simpl; lia).
    destruct (decide (x < best)%Qc) as [Hx|Hx].
    + apply IH.
      * rewrite lookup_app_r by lia. by rewrite Nat.sub_diag.
      * intros j y Hj. apply lookup_app_Some in Hj as [Hj|[_ Hj]].
        -- apply Qclt_le_weak. eapply Qclt_le_trans; [exact Hx|]. eapply Hle, Hj.
        -- apply list_lookup_singleton_Some in Hj as [_ <-]. apply Qcle_refl.
      * intros j y Hjlt Hj. rewrite lookup_app_l in Hj by lia.
        eapply Qclt_le_trans; [exact Hx|]. eapply Hle, Hj.
    + apply Qcnot_lt_le in Hx. apply IH.
      * apply lookup_app_l_Some, Hb.
      * intros j y Hj. apply lookup_app_Some in Hj as [Hj|[_ Hj]].
        -- eapply Hle, Hj.
        -- by apply list_lookup_singleton_Some in Hj as [_ <-].
      * intros j y Hjlt Hj. pose proof (lookup_lt_Some _ _ _ Hb).
        rewrite lookup_app_l in Hj by lia. eapply Hlt; eauto.
Qed.

Lemma np_argmin_spec (l : list Qc) :
  l ≠ [] →
  ∃ r m, np_argmin l = Ok r ∧ l !! r = Some m ∧
         (∀ j y, l !! j = Some y → (m ≤ y)%Qc) ∧
         (∀ j y, (j < r)%nat → l !! j = Some y → (m < y)%Qc).
Proof.
  destruct l as [|x l]; [done|]. intros _.
  destruct (argmin_from_spec [x] l x 0%nat) as (m & Hm & Hle & Hlt).
  - done.
  - intros j y Hj. apply list_lookup_singleton_Some in Hj as [_ <-]. apply Qcle_refl.
  - intros j y Hj. lia.
  - eexists _, m. split; [reflexivity|]. eauto.
Qed.

Lemma np_argmin_map_spec {A} (f : A → Qc) (l : list A) :
  l ≠ [] →
  ∃ r a, np_argmin (map f l) = Ok r ∧ l !! r = Some a ∧
         (∀ j b, l !! j = Some b → (f a ≤ f b)%Qc) ∧
         (∀ j b, (j < r)%nat → l !! j = Some b → (f a < f b)%Qc).
Proof.
  intros Hne. destruct (np_argmin_spec (map f l)) as (r & m & Hr & Hm & Hle & Hlt).
  { by destruct l. }
  rewrite list_lookup_fmap in Hm.
  destruct (l !! r) as [a|] eqn:Ha; [|done]. injection Hm as <-.
  exists r, a. repeat split; try done.
  - intros j b Hb. apply (Hle j). by rewrite list_lookup_fmap, Hb.
  - intros j b Hj Hb. apply (Hlt j); [done|]. by rewrite list_lookup_fmap, Hb.
Qed.

(** C4, as the code has it. For a nonempty list of two-point candidate
    segments the function returns the first segment, in input order, whose
    distance from the reference point is least, the distance being taken to
    the whole segment; and, of that segment's two ends, the one nearest the
    reference point, the first when both are as near. *)
Theorem start_location_is_nearest_end_of_nearest_segment
    (lines : list LineString) (finalShellPoint : Point) :
  lines ≠ [] → Forall two_point lines →
  ∃ (i : nat) (line : LineString) (k : nat) (start : Point),
    get_infill_start_location_for_one_layer lines finalShellPoint = Ok (i, line, start) ∧
    lines !! i = Some line ∧
    (∀ j l, lines !! j = Some l →
       (line_distance2 finalShellPoint line ≤ line_distance2 finalShellPoint l)%Qc) ∧
    (∀ j l, (j < i)%nat → lines !! j = Some l →
       (line_distance2 finalShellPoint line < line_distance2 finalShellPoint l)%Qc) ∧
    line !! k = Some start ∧
    (∀ j q, line !! j = Some q →
       (point_distance2 finalShellPoint start ≤ point_distance2 finalShellPoint q)%Qc) ∧
    (∀ j q, (j < k)%nat → line !! j = Some q →
       (point_distance2 finalShellPoint start < point_distance2 finalShellPoint q)%Qc).
Proof.
  intros Hne Htwo. unfold get_infill_start_location_for_one_layer.
  destruct (np_argmin_map_spec (line_distance2 finalShellPoint) lines Hne)
    as (i & line & Hi & Hline & Hle & Hlt).
  rewrite Hi. outcome_simpl. rewrite (py_getitem_lookup _ _ _ Hline). outcome_simpl.
  assert (line ≠ []) as Hl.
  { eapply Forall_forall in Htwo; [|eapply list_elem_of_lookup_2, Hline].
    intros ->. discriminate Htwo. }
  destruct (np_argmin_map_spec (point_distance2 finalShellPoint) line Hl)
    as (k & start & Hk & Hstart & Hple & Hplt).
  rewrite Hk. outcome_simpl. rewrite (py_getitem_lookup _ _ _ Hstart). outcome_simpl.
  exists i, line, k, start. repeat split; done.
Qed.

Lemma start_location_example :
  ∃ (i : nat) (line : LineString) (k : nat) (start : Point),
    get_infill_start_location_for_one_layer
      [[pt 5 5; pt 6 6]; [pt 1 0; pt 2 0]] (pt 0 0) = Ok (i, line, start) ∧
    [[pt 5 5; pt 6 6]; [pt 1 0; pt 2 0]] !! i = Some line ∧
    (∀ j l, [[pt 5 5; pt 6 6]; [pt 1 0; pt 2 0]] !! j = Some l →
       (line_distance2 (pt 0 0) line ≤ line_distance2 (pt 0 0) l)%Qc) ∧
    (∀ j l, (j < i)%nat → [[pt 5 5; pt 6 6]; [pt 1 0; pt 2 0]] !! j = Some l →
       (line_distance2 (pt 0 0) line < line_distance2 (pt 0 0) l)%Qc) ∧
    line !! k = Some start ∧
    (∀ j q, line !! j = Some q →
       (point_distance2 (pt 0 0) start ≤ point_distance2 (pt 0 0) q)%Qc) ∧
    (∀ j q, (j < k)%nat → line !! j = Some q →
       (point_distance2 (pt 0 0) start < point_distance2 (pt 0 0) q)%Qc).
Proof.
  apply (start_location_is_nearest_end_of_nearest_segment
           [[pt 5 5; pt 6 6]; [pt 1 0; pt 2 0]] (pt 0 0)).
  - discriminate.
  - repeat constructor.
Defined.

(** C4, as the specification states it, fails: from (0,0), the segment
    (-4,3)-(4,3) passes at distance 3 and is chosen before (4,0)-(8,0), at
    distance 4; its ends are at distance 5, farther than the end (4,0) of
    the other segment. *)
Lemma start_location_not_nearest_endpoint :
  ¬ starts_at_nearest_endpoint [[pt (-4) 3; pt 4 3]; [pt 4 0; pt 8 0]] (pt 0 0).
Proof.
  intros H.
  specialize (H 0%nat [pt (-4) 3; pt 4 3] (pt (-4) 3) eq_refl
                [pt 4 0; pt 8 0] (pt 4 0)).
  apply Qcle_ngt in H.
  - apply H. reflexivity.
  - apply elem_of_cons. right. apply elem_of_cons. by left.
  - apply elem_of_cons. by left.
Qed.

(** ** Extrusion *)

Lemma PI_bounds : (3.141 < PI < 3.1422)%R.
Proof.
  pose proof (PI_2_3_7_ineq 1) as [H1 H2].
  unfold PI_2_3_7_tg, tg_alt, Ratan_seq in H1, H2. simpl in H1, H2.
  assert (E3 : (1 + 1 + 1 = 3)%R) by ring.
  assert (E5 : (1 + 1 + 1 + 1 + 1 = 5)%R) by ring.
  assert (E7 : (1 + 1 + 1 + 1 + 1 + 1 + 1 = 7)%R) by ring.
  rewrite ?E3, ?E5, ?E7 in H1, H2.
  split; lra.
Qed.

Lemma write_E cmds st : E (write cmds st) = E st.
Proof. reflexivity. Qed.

Lemma transcribe_first_point_E five c run_once new_chunk point st :
  E (transcribe_first_point five c run_once new_chunk point st).1 = E st.
Proof. unfold transcribe_first_point. by destruct run_once. Qed.

Lemma transcribe_first_point_previous five c run_once new_chunk point st :
  previousX (transcribe_first_point five c run_once new_chunk point st).2 = round_R point.1 5 ∧
  previousY (transcribe_first_point five c run_once new_chunk point st).2 = round_R point.2 5.
Proof. done. Qed.

(** One extruding move: the bead from the previous point to this one. *)
Lemma transcribe_next_point_E c F st loc point :
  E (transcribe_next_point c F (st, loc) point).1 =
    (E st + extrusion_length (layerHeight c) (lineWidth c)
              (sqrt ((round_R point.1 5 - previousX loc) ^ 2
                     + (round_R point.2 5 - previousY loc) ^ 2)))%R.
Proof. reflexivity. Qed.

Lemma transcribe_next_point_written c F st loc point :
  ∃ before,
    written (transcribe_next_point c F (st, loc) point).1 =
      before ++ [G1_XYE F (round_R point.1 5) (round_R point.2 5)
                   (round_R (E (transcribe_next_point c F (st, loc) point).1) 5)].
Proof.
  unfold transcribe_next_point. cbn [fst written E]. destruct (runOnce loc).
  - eexists. rewrite !(assoc_L (++)). reflexivity.
  - eexists. reflexivity.
Qed.

Lemma fold_transcribe_next_E c F rest st loc p :
  previousX loc = round_R p.1 5 → previousY loc = round_R p.2 5 →
  E (fold_left (transcribe_next_point c F) rest (st, loc)).1 =
    (E st + path_extrusion c p rest)%R.
Proof.
  revert st loc p. induction rest as [|q rest IH]; intros st loc p HX HY.
  - simpl. lra.
  - cbn [fold_left path_extrusion].
    destruct (transcribe_next_point c F (st, loc) q) as [st' loc'] eqn:Hstep.
    rewrite (IH st' loc' q).
    + pose proof (transcribe_next_point_E c F st loc q) as HE.
      rewrite Hstep in HE. cbn [fst] in HE. rewrite HE, HX, HY.
      unfold rounded_distance. lra.
    + unfold transcribe_next_point in Hstep. by injection Hstep as _ <-.
    + unfold transcribe_next_point in Hstep. by injection Hstep as _ <-.
Qed.

Lemma transcribe_E five c first rest F run_once new_chunk st :
  E (transcribe five c (first :: rest) F run_once new_chunk st) =
    (E st + path_extrusion c first rest)%R.
Proof.
  unfold transcribe.
  destruct (transcribe_first_point five c run_once new_chunk first st) as [st1 loc1] eqn:H1.
  rewrite (fold_transcribe_next_E c F rest st1 loc1 first).
  - pose proof (transcribe_first_point_E five c run_once new_chunk first st) as HE.
    rewrite H1 in HE. cbn [fst] in HE. by rewrite HE.
  - pose proof (transcribe_first_point_previous five c run_once new_chunk first st) as [HX _].
    by rewrite H1 in HX.
  - pose proof (transcribe_first_point_previous five c run_once new_chunk first st) as [_ HY].
    by rewrite H1 in HY.
Qed.

Lemma extrusion_length_example_value :
  (0.7482 < extrusion_length 0.3 0.6 10 < 0.7485)%R.
Proof.
  unfold extrusion_length. pose proof PI_bounds as [Hlo Hhi].
  assert (0 < PI * 1.75 ^ 2)%R as Hpos by nra.
  split.
  - apply (Rmult_lt_reg_r (PI * 1.75 ^ 2)); [exact Hpos|].
    unfold Rdiv. rewrite Rmult_assoc, Rinv_l by lra. nra.
  - apply (Rmult_lt_reg_r (PI * 1.75 ^ 2)); [exact Hpos|].
    unfold Rdiv. rewrite Rmult_assoc, Rinv_l by lra. nra.
Qed.

Lemma transcribe_calls_E five calls st :
  E (transcribe_calls five calls st) = (E st + total_extrusion calls)%R.
Proof.
  revert st. induction calls as [|k calls IH]; intros st.
  - simpl. lra.
  - unfold transcribe_calls in *. cbn [fold_left total_extrusion]. rewrite IH.
    unfold call_extrusion. destruct (call_pathPoints k) as [|first rest].
    + simpl. lra.
    + rewrite transcribe_E. lra.
Qed.

(** C6, as the code has it. Every point of a path after the first is an
    extruding move [G1 X Y E] whose cumulative extrusion value is the
    previous one plus 4 * layerHeight * lineWidth * s / (pi * 1.75^2), s the
    Euclidean distance between the two points rounded to five decimals; the
    value is carried over a whole path and from path to path, in the
    three-axis and in the five-axis writer alike.  For s = 10, layer height
    0.3 and line width 0.6 the increment is about 0.748 (the quotient
    7.2 / 1.75^2 = 2.351 still has to be divided by pi). *)
Theorem extrusion_accumulates :
  (∀ c F st loc point,
      let s := sqrt ((round_R point.1 5 - previousX loc) ^ 2
                     + (round_R point.2 5 - previousY loc) ^ 2) in
      let st' := (transcribe_next_point c F (st, loc) point).1 in
      E st' = (E st + (4 * layerHeight c * lineWidth c * s) / (PI * 1.75 ^ 2))%R ∧
      ∃ before,
        written st' =
          before ++ [G1_XYE F (round_R point.1 5) (round_R point.2 5) (round_R (E st') 5)]) ∧
  (∀ c first rest F runOnce st,
      E (Write3Axis.transcribe_pathPoints_to_gcode c (first :: rest) F runOnce st) =
        (E st + path_extrusion c first rest)%R) ∧
  (∀ c first rest F runOnce newChunk st,
      E (Write5Axis.transcribe_pathPoints_to_gcode c (first :: rest) F runOnce newChunk st) =
        (E st + path_extrusion c first rest)%R) ∧
  (∀ five_axis calls st,
      E (transcribe_calls five_axis calls st) = (E st + total_extrusion calls)%R) ∧
  (Rabs (extrusion_length 0.3 0.6 10 - 0.748) < 0.001)%R.
Proof.
  split; [|split; [|split; [|split]]].
  - intros c F st loc point. split.
    + apply transcribe_next_point_E.
    + apply transcribe_next_point_written.
  - intros. apply transcribe_E.
  - intros. apply transcribe_E.
  - apply transcribe_calls_E.
  - pose proof extrusion_length_example_value as [Hlo Hhi].
    apply Rabs_def1; lra.
Qed.

(** C6, the figure of the specification: 2.353 is not the increment for
    s = 10, layer height 0.3 and line width 0.6. *)
Lemma extrusion_example_is_not_2_353 :
  ¬ (Rabs (extrusion_length 0.3 0.6 10 - 2.353) < 0.001)%R.
Proof.
  pose proof extrusion_length_example_value as [Hlo Hhi].
  intros H. apply Rabs_def2 in H as [H1 H2]. lra.
Qed.

(** ** Collision check *)

Lemma for_each_sections (sections : list (list Q)) (acc : list (list Q)) :
  for_each (fun acc path2D =>
              match path2D with
              | Some zs => Ok (acc ++ [zs])
              | None => Raise AttributeError
              end) (map Some sections) acc = Ok (acc ++ sections).
Proof.
  revert acc. induction sections as [|zs sections IH]; intros acc; simpl.
  - by rewrite app_nil_r.
  - outcome_simpl. rewrite IH. by rewrite <- (assoc_L (++)).
Qed.

(** With a zero sine the quotient is an infinity or NaN: not below the
    clearance. *)
Lemma zero_sine_quotient_not_below (z : Q) :
  float_lt (float_div (Qabs z) (Finite 0)) minAcceptableBedToNozzleClearance = false.
Proof. simpl. by destruct (Qeq_bool (Qabs z) 0). Qed.

Lemma check_points_zero_sine (zs : list Q) (st : CollisionState) :
  stopSlicing st = false →
  fold_left (check_point (Finite 0)) zs st =
    {| stopSlicing := false;
       divisions := divisions st ++
         map (fun z => (Qabs z, Finite 0))
             (filter (fun z => Qle_bool z minAcceptableBedToNozzleClearance = true) zs) |}.
Proof.
  revert st. induction zs as [|z zs IH]; intros [stop divs] Hstop; simpl in Hstop; subst stop.
  - simpl. by rewrite app_nil_r.
  - cbn [fold_left]. unfold check_point at 2. cbn [stopSlicing negb divisions].
    rewrite filter_cons.
    destruct (Qle_bool z minAcceptableBedToNozzleClearance) eqn:Hz.
    + rewrite decide_True by done. rewrite zero_sine_quotient_not_below.
      rewrite IH by done. cbn [divisions map]. by rewrite <- (assoc_L (++)).
    + rewrite decide_False by done. by rewrite IH.
Qed.

Lemma check_sections_zero_sine (sections : list (list Q)) (st : CollisionState) :
  stopSlicing st = false →
  fold_left (fun st section => fold_left (check_point (Finite 0)) section st) sections st =
    {| stopSlicing := false;
       divisions := divisions st ++
         map (fun z => (Qabs z, Finite 0))
             (filter (fun z => Qle_bool z minAcceptableBedToNozzleClearance = true)
                     (concat sections)) |}.
Proof.
  revert st. induction sections as [|zs sections IH]; intros st Hstop.
  - destruct st as [stop divs]. simpl in *. subst stop. by rewrite app_nil_r.
  - cbn [fold_left concat]. rewrite (check_points_zero_sine zs st Hstop).
    rewrite IH by done. cbn [divisions].
    by rewrite filter_app, map_app, <- (assoc_L (++)).
Qed.

(** The check has no special case for a zero sine: for every point at or
    below the minimum clearance that it reaches while no stop is flagged, it
    divides |z| by sin(theta), whatever sin(theta) is.  With sin(theta) = 0
    every such division is by zero; the quotient, an infinity or NaN, is not
    below the clearance, and no stop is flagged. *)
Lemma collision_check_divides_unguarded :
  (∀ (sin_theta : float64) (st : CollisionState) (z : Q),
      stopSlicing st = false →
      Qle_bool z minAcceptableBedToNozzleClearance = true →
      divisions (check_point sin_theta st z) = divisions st ++ [(Qabs z, sin_theta)]) ∧
  (∀ (sections : list (list Q)),
      checkForBedNozzleCollisions (Finite 0) (map Some sections)
        {| stopSlicing := false; divisions := [] |} =
      Ok {| stopSlicing := false;
            divisions :=
              map (fun z => (Qabs z, Finite 0))
                  (filter (fun z => Qle_bool z minAcceptableBedToNozzleClearance = true)
                          (concat sections)) |}).
Proof.
  split.
  - intros sin_theta st z Hstop Hz. unfold check_point. by rewrite Hstop, Hz.
  - intros sections. unfold checkForBedNozzleCollisions.
    rewrite for_each_sections. outcome_simpl. simpl.
    by rewrite check_sections_zero_sine.
Qed.

(** The check on the slice planes, in [widget_functions.py], does have the
    special case: for a tilt that rounds to zero it divides nothing and
    takes every point as valid. *)
Lemma slice_plane_check_guards_zero_tilt (theta : Q) (sin_theta : float64)
    (zs : list Q) (st : ValidityState) :
  Qeq_bool (py_round theta 2) 0 = true →
  fold_left (check_slice_plane_point theta sin_theta) zs st =
    {| validity := validity st ++ map (fun _ => true) zs;
       validity_divisions := validity_divisions st |}.
Proof.
  intros Hzero. revert st. induction zs as [|z zs IH]; intros [v d].
  - simpl. by rewrite app_nil_r.
  - cbn [fold_left]. unfold check_slice_plane_point at 2. rewrite Hzero.
    rewrite IH. cbn. by rewrite <- (assoc_L (++)).
Qed.

(** C7, where the code departs from it. For a chunk tilted by zero and a
    cross-section point at world z = 5, below the clearance of 12,
    [checkForBedNozzleCollisions] divides 5 by sin(0) = 0: there is no
    special case.  The quotient, infinite, is not below the clearance, so
    the point passes as safe all the same.  The check that
    [widget_functions.py] makes on the same planes has the special case and
    divides nothing. *)
Theorem collision_check_divides_by_zero :
  checkForBedNozzleCollisions (Finite 0) [Some [5%Q]]
    {| stopSlicing := false; divisions := [] |} =
    Ok {| stopSlicing := false; divisions := [(5%Q, Finite 0)] |} ∧
  ¬ never_divides_by_zero (Finite 0) [Some [5%Q]] ∧
  validity_divisions
    (fold_left (check_slice_plane_point 0 (Finite 0)) [5%Q]
       {| validity := []; validity_divisions := [] |}) = [].
Proof.
  split; [reflexivity|]. split; [|reflexivity].
  intros H. specialize (H _ eq_refl). simpl in H.
  apply Forall_cons in H as [H _]. discriminate H.
Qed.

(** ** Safe union *)

Section SafeUnion.
Context {Geom : Type} `{!Shapely Geom}.

Lemma repair_one_eq (buffer_value : Q) (acc : list Geom) (geom : Geom) :
  repair_one buffer_value acc geom = Ok (acc ++ repaired buffer_value [geom]).
Proof.
  unfold repair_one, repaired. cbn [flat_map]. rewrite app_nil_r.
  destruct (buffer geom buffer_value) as [b|]; cbn.
  - destruct (make_valid b) as [v|]; cbn.
    + destruct (is_valid v && negb (is_empty v)); cbn; by rewrite ?app_nil_r.
    + by rewrite app_nil_r.
  - by rewrite app_nil_r.
Qed.

Lemma repair_each (buffer_value : Q) (geometries acc : list Geom) :
  for_each (repair_one buffer_value) geometries acc =
    Ok (acc ++ repaired buffer_value geometries).
Proof.
  revert acc. induction geometries as [|geom rest IH]; intros acc.
  - simpl. by rewrite app_nil_r.
  - cbn [for_each]. rewrite repair_one_eq. outcome_simpl. rewrite IH.
    rewrite <- (assoc_L (++)). f_equal. f_equal.
    unfold repaired. cbn [flat_map]. by rewrite app_nil_r.
Qed.

End SafeUnion.

(** C8. [safe_unary_union] returns a geometry on every input, whatever the
    library does, and raises nothing: the buffered plain union when that
    goes through; otherwise the union of the inputs repaired one by one
    (the empty polygon when none survives the repair); and, when that union
    raises too, the empty polygon, the failure printed. *)
Theorem safe_unary_union_three_tiers {Geom : Type} `{!Shapely Geom}
    (geometries : list Geom) (buffer_value : Q) (log : list LogEntry) :
  ∃ (g : Geom) (log' : list LogEntry),
    safe_unary_union geometries buffer_value log = (Ok g, log') ∧
    match geometries with
    | [] => g = empty_polygon ∧ log' = log
    | _ =>
        match u ← unary_union geometries; buffer u buffer_value with
        | Some b => g = b ∧ log' = log
        | None =>
            match repaired buffer_value geometries with
            | [] => g = empty_polygon ∧ log' = log
            | valid_geoms =>
                match unary_union valid_geoms with
                | Some u => g = u ∧ log' = log
                | None =>
                    g = empty_polygon ∧
                    log' = log ++ [FailedToCreateValidGeometry (LibraryError "shapely")]
                end
            end
        end
    end.
Proof.
  destruct geometries as [|g0 rest].
  { eexists _, _. split; [reflexivity|]. done. }
  unfold safe_unary_union, try_except_IO, pure. cbv beta iota.
  generalize (g0 :: rest). clear g0 rest. intros geometries.
  rewrite repair_each. cbn [app].
  destruct (unary_union geometries) as [u|]; cbn [lib mbind outcome_bind obind option_bind].
  - destruct (buffer u buffer_value) as [b|]; cbn [lib].
    + eexists _, _. split; [reflexivity|]. done.
    + destruct (repaired buffer_value geometries) as [|v vs].
      * eexists _, _. split; [reflexivity|]. done.
      * destruct (unary_union (v :: vs)) as [u2|]; cbn [lib];
          (eexists _, _; split; [reflexivity|]; done).
  - destruct (repaired buffer_value geometries) as [|v vs].
    + eexists _, _. split; [reflexivity|]. done.
    + destruct (unary_union (v :: vs)) as [u2|]; cbn [lib];
        (eexists _, _; split; [reflexivity|]; done).
Qed.

(** ** Area classifier: the pass over the layers *)

Lemma py_getitem_in_range {A} (l : list A) (i : Z) :
  0 ≤ i < Z.of_nat (length l) →
  ∃ x, py_getitem l i = Ok x ∧ l !! Z.to_nat i = Some x.
Proof.
  intros Hi. destruct (lookup_lt_is_Some_2 l (Z.to_nat i)) as [x Hx]; [lia|].
  exists x. split; [|done].
  rewrite <- (Z2Nat.id i) by lia. by apply py_getitem_lookup.
Qed.

Lemma py_getitem_Ok {A} (l : list A) (i : Z) (x : A) :
  0 ≤ i → py_getitem l i = Ok x →
  i < Z.of_nat (length l) ∧ l !! Z.to_nat i = Some x.
Proof.
  intros Hi. unfold py_getitem.
  destruct (Z.ltb_spec i 0) as [?|_]; [lia|].
  destruct (Z.leb_spec 0 i) as [_|?]; [|lia].
  destruct (Z.ltb_spec i (Z.of_nat (length l))) as [Hlt|?]; [|done].
  simpl. destruct (l !! Z.to_nat i) as [y|]; [|done].
  intros [= <-]. done.
Qed.

Lemma py_getitem_Raise {A} (l : list A) (i : Z) (e : exn) :
  py_getitem l i = Raise e → e = IndexError ∧ ¬ (0 ≤ i < Z.of_nat (length l)).
Proof.
  intros H. split.
  - unfold py_getitem in H.
    destruct (_ && _); [|by injection H].
    destruct (l !! _); [done|by injection H].
  - intros Hi. destruct (py_getitem_in_range l i Hi) as (x & Hx & _). congruence.
Qed.

Lemma init_areas_lookup {Geom : Type} (m : Z) (k : Z) :
  0 ≤ m → @init_areas Geom m !! k = if decide (0 ≤ k < m) then Some [] else None.
Proof.
  intros Hm. unfold init_areas, py_range. rewrite Z.sub_0_r.
  rewrite <- (Z2Nat.id m) by lia. generalize (Z.to_nat m). clear Hm m. intros m.
  induction m as [|m IH].
  - simpl. rewrite lookup_empty. by rewrite decide_False by lia.
  - rewrite seqZ_S. rewrite foldl_snoc. rewrite Z.add_0_l.
    destruct (decide (k = Z.of_nat m)) as [->|Hne].
    + rewrite lookup_insert_eq. by rewrite decide_True by lia.
    + rewrite lookup_insert_ne by done. rewrite IH.
      destruct (decide (0 ≤ k < Z.of_nat m)).
      * by rewrite decide_True by lia.
      * by rewrite decide_False by lia.
Qed.

Section ManifoldPass.
Context {Geom : Type} `{!Shapely Geom}.
Variable innerMostPolygonsList : list (list Geom).
Variables shellThickness n : Z.
Hypothesis length_layers : Z.of_nat (length innerMostPolygonsList) = n.

(** What is known of an area filed under a layer. *)
Variable ok : Z → Geom → Prop.
Hypothesis ok_area : ∀ k polygons u area,
  0 ≤ k → innerMostPolygonsList !! Z.to_nat k = Some polygons →
  unary_union polygons = Some u →
  fix_polygon_or_multipolygon_ring_orientation u = Ok area → ok k area.
Hypothesis ok_union : ∀ k polygons u,
  0 ≤ k → innerMostPolygonsList !! Z.to_nat k = Some polygons →
  unary_union polygons = Some u → ok k u.
Hypothesis ok_intersection : ∀ k a u r,
  ok k u → intersection a u = Some r → ok k r.
Hypothesis ok_geoms : ∀ k g g', ok k g → g' ∈ geoms g → ok k g'.
Hypothesis ok_difference : ∀ k a b d u,
  ok k a → difference a b = Some d → unary_union [d] = Some u → ok k u.

(** Whether the library is known to raise nothing where the pass calls it
    outside a [try]. *)
Variable strict : Prop.
Hypothesis strict_union : strict → ∀ gs : list Geom, is_Some (unary_union gs).
Hypothesis strict_fix : strict → ∀ (gs : list Geom) u,
  unary_union gs = Some u →
  ∃ area, fix_polygon_or_multipolygon_ring_orientation u = Ok area.

#[local] Abbreviation in_bounds := (layers_in_bounds shellThickness n).
#[local] Abbreviation inv := (areas_inv n ok).
#[local] Abbreviation post := (outcome_post in_bounds strict).

Lemma post_bind {A B} (Q : A → Prop) (R : B → Prop) (o : Outcome A) (f : A → Outcome B) :
  post Q o → (∀ a, o = Ok a → Q a → post R (f a)) → post R (o ≫= f).
Proof. destruct o as [a|e]; cbn; [eauto|done]. Qed.

Lemma post_for_each {A} (body : gmap Z (list Geom) → A → Outcome (gmap Z (list Geom)))
    (xs : list A) (areas : gmap Z (list Geom)) :
  inv areas →
  (∀ areas x, x ∈ xs → inv areas → post inv (body areas x)) →
  post inv (for_each body xs areas).
Proof.
  revert areas. induction xs as [|x xs IH]; intros areas Hinv Hbody; cbn [for_each].
  - done.
  - eapply post_bind.
    + apply Hbody; [by left|done].
    + intros areas' _ Hinv'. apply IH; [done|].
      intros a y Hy. apply Hbody. by right.
Qed.

Lemma post_dict_append (areas : gmap Z (list Geom)) (key : Z) (g : Geom) :
  inv areas → (0 ≤ key < n → ok key g) → (in_bounds → 0 ≤ key < n) →
  post inv (dict_append areas key g).
Proof.
  intros [Hdom Hok] Hg Hkey. unfold dict_append, dict_get.
  destruct (areas !! key) as [l|] eqn:Hl; cbn.
  - assert (0 ≤ key < n) as Hk by (apply Hdom; eauto).
    split.
    + intros k. rewrite lookup_insert_is_Some. rewrite <- Hdom.
      split; [|tauto]. intros [->|[_ ?]]; eauto.
    + intros k gs g' Hgs Hg'. destruct (decide (key = k)) as [->|Hne].
      * rewrite lookup_insert_eq in Hgs. injection Hgs as <-.
        apply elem_of_app in Hg' as [Hg'|Hg']; [eauto|].
        apply list_elem_of_singleton in Hg' as ->. auto.
      * rewrite lookup_insert_ne in Hgs by done. eauto.
  - intros Hb. exfalso. specialize (Hkey Hb). apply Hdom in Hkey.
    rewrite Hl in Hkey. by destruct Hkey.
Qed.

Lemma orient_each_harmless (parts acc : list Geom) (e : exn) :
  for_each (fun multiPolys poly => o ← lib (orient poly); Ok (multiPolys ++ [o]))
           parts acc = Raise e → harmless e.
Proof.
  revert acc. induction parts as [|p parts IH]; intros acc; cbn [for_each]; [done|].
  destruct (orient p); cbn; [apply IH|].
  intros [= <-]. split; discriminate.
Qed.

Lemma fix_orientation_harmless (g : Geom) (e : exn) :
  fix_polygon_or_multipolygon_ring_orientation g = Raise e → harmless e.
Proof.
  assert (∀ o : option Geom, lib o = Raise e → harmless e) as Hlib.
  { intros [?|]; cbn; [done|]. intros [= <-]. split; discriminate. }
  assert (∀ gs, (multiPolys ← orient_each gs; lib (MultiPolygon_of multiPolys)) = Raise e →
                harmless e) as Hmulti.
  { intros gs. unfold orient_each.
    destruct (for_each _ gs []) eqn:Hfe; cbn; [apply Hlib|].
    intros [= <-]. eapply orient_each_harmless, Hfe. }
  unfold fix_polygon_or_multipolygon_ring_orientation.
  destruct (geom_type g) eqn:Htype; try done; try apply Hlib; try apply Hmulti.
  destruct (is_empty g); cbn; [done|].
  generalize (@None Geom). induction (geoms g) as [|p ps IH]; intros r; cbn [for_each].
  - cbn. destruct r; [done|]. intros [= <-]. split; discriminate.
  - destruct (geom_type p); cbn; try apply IH.
    destruct (orient g); cbn; [apply IH|]. intros [= <-]. split; discriminate.
Qed.

Lemma post_layer_area (layer : Z) :
  0 ≤ layer → (in_bounds → layer < n) →
  post (fun area => ok layer area ∧ layer < n) (layer_area innerMostPolygonsList layer).
Proof.
  intros H0 Hb. unfold layer_area.
  destruct (py_getitem innerMostPolygonsList layer) as [polygons|e] eqn:Hget; cbn.
  - apply py_getitem_Ok in Hget as [Hlt Hpoly]; [|done].
    destruct (unary_union polygons) as [u|] eqn:Hu; cbn.
    + destruct (fix_polygon_or_multipolygon_ring_orientation u) as [area|e] eqn:Hfix; cbn.
      * split; [eauto|lia].
      * intros _. split; [eapply fix_orientation_harmless, Hfix|].
        intros Hs. destruct (strict_fix Hs polygons u Hu) as [? ?]. congruence.
    + intros _. split; [split; discriminate|].
      intros Hs. destruct (strict_union Hs polygons) as [? ?]. congruence.
  - apply py_getitem_Raise in Hget as [-> Hout]. intros Hin.
    exfalso. specialize (Hb Hin). lia.
Qed.

Lemma ok_overhang (k : Z) (currentLayerArea upperLayerArea : Geom) :
  ok k upperLayerArea →
  ok k (get_upperLayerOverhangArea currentLayerArea upperLayerArea).
Proof.
  intros Hup. unfold get_upperLayerOverhangArea.
  destruct (intersects currentLayerArea upperLayerArea) as [[|]|]; cbn; try done.
  destruct (difference upperLayerArea currentLayerArea) as [d|] eqn:Hd; cbn; try done.
  destruct (unary_union [d]) as [u|] eqn:Hu; cbn; try done.
  eapply ok_difference; eauto.
Qed.

Lemma ok_underhang (k : Z) (currentLayerArea upperLayerArea : Geom) :
  ok k currentLayerArea →
  ok k (get_currentLayerUnderHangArea currentLayerArea upperLayerArea).
Proof.
  intros Hcur. unfold get_currentLayerUnderHangArea.
  destruct (intersects currentLayerArea upperLayerArea) as [[|]|]; cbn; try done.
  destruct (difference currentLayerArea upperLayerArea) as [d|] eqn:Hd; cbn; try done.
  destruct (unary_union [d]) as [u|] eqn:Hu; cbn; try done.
  eapply ok_difference; eauto.
Qed.

(** One step of the thickening, [k] layers away from the exposed one. *)
Lemma post_build_up_step (layer : Z) (exposedLayer : ExposedLayer) (overlap : Geom)
    (areas : gmap Z (list Geom)) (k : Z) :
  inv areas → 1 ≤ k < shellThickness →
  (exposedLayer = Current_Layer → shellThickness ≤ layer < n) →
  (exposedLayer = Upper_Layer → 0 ≤ layer ∧ (in_bounds → layer + shellThickness < n)) →
  post inv (build_up_step innerMostPolygonsList layer exposedLayer overlap areas k).
Proof.
  intros Hinv Hk Hcur Hup. unfold build_up_step.
  set (idx := match exposedLayer with
              | Current_Layer => layer + -1 * k + 0
              | Upper_Layer => layer + 1 * k + 1
              end).
  assert (0 ≤ idx ∧ (in_bounds → idx < n)) as [Hidx0 Hidxn].
  { subst idx. destruct exposedLayer.
    - specialize (Hcur eq_refl). lia.
    - destruct (Hup eq_refl) as [? Hb]. split; [lia|]. intros Hin. specialize (Hb Hin). lia. }
  replace (let '(sign, indexAddition) :=
             match exposedLayer with
             | Current_Layer => (-1, 0)
             | Upper_Layer => (1, 1)
             end in _)
    with (polygons ← py_getitem innerMostPolygonsList idx;
          nextLayerArea ← lib (unary_union polygons);
          nextIntersection ←
            try_except (lib (intersection overlap nextLayerArea))
                       (fun _ => Ok nextLayerArea);
          if negb (is_empty nextIntersection) && polygonal nextIntersection then
            dict_append areas idx nextIntersection
          else
            match geom_type nextIntersection with
            | GT_GeometryCollection =>
                for_each
                  (fun manifoldAreas geometry =>
                     if polygonal geometry
                     then dict_append manifoldAreas idx geometry
                     else Ok manifoldAreas)
                  (geoms nextIntersection) areas
            | _ => Ok areas
            end)
    by (subst idx; by destruct exposedLayer).
  destruct (py_getitem innerMostPolygonsList idx) as [polygons|e] eqn:Hget; cbn.
  2:{ apply py_getitem_Raise in Hget as [-> Hout]. intros Hin.
      exfalso. specialize (Hidxn Hin). lia. }
  apply py_getitem_Ok in Hget as [Hlt Hpoly]; [|done].
  destruct (unary_union polygons) as [u|] eqn:Hu; cbn.
  2:{ intros _. split; [split; discriminate|].
      intros Hs. destruct (strict_union Hs polygons) as [? ?]. congruence. }
  assert (ok idx u) as Hoku by eauto.
  assert (∃ r, try_except (lib (intersection overlap u)) (fun _ => Ok u) = Ok r ∧ ok idx r)
    as (r & -> & Hokr).
  { destruct (intersection overlap u) as [r|] eqn:Hr; cbn; eauto. }
  cbn. destruct (negb (is_empty r) && polygonal r).
  - apply post_dict_append; [done|done|lia].
  - destruct (geom_type r); try done.
    apply post_for_each; [done|].
    intros areas' g Hg Hinv'. destruct (polygonal g); [|done].
    apply post_dict_append; [done| |lia]. intros _. eapply ok_geoms; eauto.
Qed.

Lemma post_build_up (layer : Z) (exposedLayer : ExposedLayer) (overlap : Geom)
    (areas : gmap Z (list Geom)) :
  inv areas →
  (exposedLayer = Current_Layer → shellThickness ≤ layer < n) →
  (exposedLayer = Upper_Layer → 0 ≤ layer ∧ (in_bounds → layer + shellThickness < n)) →
  post inv (build_up_exposed_layers innerMostPolygonsList shellThickness layer
              exposedLayer overlap areas).
Proof.
  intros Hinv Hcur Hup. unfold build_up_exposed_layers.
  apply post_for_each; [done|].
  intros areas' k Hk Hinv'. apply post_build_up_step; try done.
  unfold py_range in Hk. apply elem_of_seqZ in Hk. lia.
Qed.

Lemma post_append_unless_empty (areas : gmap Z (list Geom)) (key : Z) (area : Geom) :
  inv areas → ok key area → (in_bounds → 0 ≤ key < n) →
  post inv (append_unless_empty areas key area).
Proof.
  intros Hinv Hok Hkey. unfold append_unless_empty.
  destruct (negb (is_empty area)); [|done].
  by apply post_dict_append.
Qed.

Lemma post_expose (layer : Z) (exposedLayer : ExposedLayer) (key : Z) (area : Geom)
    (areas : gmap Z (list Geom)) :
  inv areas → ok key area → (in_bounds → 0 ≤ key < n) →
  (exposedLayer = Current_Layer → shellThickness ≤ layer < n) →
  (exposedLayer = Upper_Layer → 0 ≤ layer ∧ (in_bounds → layer + shellThickness < n)) →
  post inv (expose innerMostPolygonsList shellThickness layer exposedLayer key area areas).
Proof.
  intros Hinv Hok Hkey Hcur Hup. unfold expose.
  destruct (negb (is_empty area)); [|done].
  eapply post_bind.
  - by apply post_dict_append.
  - intros areas' _ Hinv'. by apply post_build_up.
Qed.

Lemma post_classify_layer (areas : gmap Z (list Geom)) (layer : Z) :
  inv areas → 0 ≤ layer < n →
  post inv (classify_layer innerMostPolygonsList shellThickness n areas layer).
Proof.
  intros Hinv Hlayer. unfold classify_layer.
  eapply post_bind; [apply post_layer_area; lia|].
  intros cur _ [Hcur _].
  destruct (Z.ltb_spec layer shellThickness) as [Hlow|Hlow].
  { (* bottom layers *)
    eapply post_bind; [apply post_append_unless_empty; [done|done|lia]|].
    intros areas1 _ Hinv1.
    eapply post_bind; [apply (post_layer_area (layer + 1)); [lia|]|].
    { intros [? ?]. lia. }
    intros up _ [Hup Hlt].
    apply post_expose; [done|by apply ok_overhang|lia|done|].
    intros _. split; [lia|]. intros [? ?]. lia. }
  destruct (Z.leb_spec shellThickness layer) as [_|?]; [|lia]. cbn [andb].
  destruct (Z.ltb_spec layer (n - shellThickness)) as [Hmid|Hmid].
  { (* middle layers *)
    eapply post_bind; [apply (post_layer_area (layer + 1)); [lia|]|].
    { intros [? ?]. lia. }
    intros up _ [Hup Hlt].
    destruct (negb (is_empty cur) && negb (is_empty up)).
    { eapply post_bind.
      - apply post_expose; [done|by apply ok_underhang|lia|lia|done].
      - intros areas1 _ Hinv1.
        apply post_expose; [done|by apply ok_overhang|lia|done|].
        intros _. split; [lia|]. intros _. lia. }
    destruct (negb (is_empty cur) && is_empty up).
    { eapply post_bind; [apply post_dict_append; [done|done|lia]|].
      intros areas1 _ Hinv1. apply post_build_up; [done|lia|done]. }
    destruct (is_empty cur && negb (is_empty up)); [|done].
    eapply post_bind; [apply post_dict_append; [done|done|lia]|].
    intros areas1 _ Hinv1. apply post_build_up; [done|done|].
    intros _. split; [lia|]. intros _. lia. }
  destruct (Z.ltb_spec layer (n - 1)) as [Htop|Htop].
  { (* uppermost layers up until the uppermost layer *)
    eapply post_bind; [apply post_append_unless_empty; [done|done|lia]|].
    intros areas1 _ Hinv1.
    eapply post_bind; [apply (post_layer_area (layer + 1)); lia|].
    intros up _ [Hup Hlt].
    apply post_expose; [done|by apply ok_underhang|lia|lia|done]. }
  destruct (Z.eqb_spec layer (n - 1)) as [Heq|Hne]; [|done].
  apply post_expose; [done|done|lia|lia|done].
Qed.

Lemma inv_init_areas : inv (init_areas n).
Proof.
  assert (0 ≤ n) by lia. split.
  - intros k. rewrite init_areas_lookup by done.
    destruct (decide (0 ≤ k < n)) as [Hk|Hk]; split; intros Hs.
    + done.
    + by eexists.
    + by destruct Hs.
    + done.
  - intros k gs g. rewrite init_areas_lookup by done.
    destruct (decide (0 ≤ k < n)); [|done]. intros [= <-] Hg. by apply elem_of_nil in Hg.
Qed.

Lemma post_classify_layers :
  post inv (for_each (classify_layer innerMostPolygonsList shellThickness n)
              (py_range 0 n) (init_areas n)).
Proof.
  apply post_for_each; [apply inv_init_areas|].
  intros areas layer Hlayer Hinv. apply post_classify_layer; [done|].
  unfold py_range in Hlayer. apply elem_of_seqZ in Hlayer. lia.
Qed.

Lemma post_solid_layer (areas : gmap Z (list Geom)) (layer : Z) :
  inv areas → 0 ≤ layer < n →
  post inv (solid_layer innerMostPolygonsList areas layer).
Proof.
  intros Hinv Hlayer. unfold solid_layer.
  eapply post_bind; [apply post_layer_area; lia|].
  intros cur _ [Hcur _]. apply post_append_unless_empty; [done|done|lia].
Qed.

Lemma post_solid_layers :
  post inv (for_each (solid_layer innerMostPolygonsList) (py_range 0 n) (init_areas n)).
Proof.
  apply post_for_each; [apply inv_init_areas|].
  intros areas layer Hlayer Hinv. apply post_solid_layer; [done|].
  unfold py_range in Hlayer. apply elem_of_seqZ in Hlayer. lia.
Qed.

End ManifoldPass.

(** The pass that fills [internalAreas] catches whatever is raised. *)
Lemma internal_layer_returns {Geom : Type} `{!Shapely Geom}
    (innerMostPolygonsList : list (list Geom))
    (manifoldAreas internalAreas : gmap Z (list Geom)) (layer : Z) (log : list LogEntry) :
  ∃ internalAreas' log',
    internal_layer innerMostPolygonsList manifoldAreas internalAreas layer log =
      (Ok internalAreas', log').
Proof.
  unfold internal_layer, try_except_IO at 1.
  match goal with |- context [match ?m log with _ => _ end] => destruct (m log) as [[a|e] log'] end.
  - eauto.
  - cbn. eauto.
Qed.

Lemma internal_layers_return {Geom : Type} `{!Shapely Geom}
    (innerMostPolygonsList : list (list Geom))
    (manifoldAreas internalAreas : gmap Z (list Geom)) (layers : list Z)
    (log : list LogEntry) :
  ∃ internalAreas' log',
    for_each_IO (internal_layer innerMostPolygonsList manifoldAreas) layers internalAreas log =
      (Ok internalAreas', log').
Proof.
  revert internalAreas log. induction layers as [|layer layers IH]; intros internalAreas log.
  - cbn. eauto.
  - cbn [for_each_IO]. unfold mbind, IO_bind.
    destruct (internal_layer_returns innerMostPolygonsList manifoldAreas internalAreas layer log)
      as (i1 & log1 & ->).
    apply IH.
Qed.

Lemma classifier_raises_harmless {Geom : Type} `{!Shapely Geom} (slice_levels : list Q)
    (innerMostPolygonsList : list (list Geom)) (infillPercentage : Q)
    (shellThickness : Z) (log : list LogEntry) (e : exn) :
  length innerMostPolygonsList = length slice_levels →
  (infillPercentage < 1)%Q →
  layers_in_bounds shellThickness (Z.of_nat (length slice_levels)) →
  (get_manifold_areas_for_one_chunk slice_levels innerMostPolygonsList
     infillPercentage shellThickness log).1 = Raise e →
  harmless e.
Proof.
  intros Hlen Hinfill Hb. unfold get_manifold_areas_for_one_chunk.
  destruct (Qle_bool 1 infillPercentage) eqn:Hfull.
  { apply Qle_bool_iff in Hfull. exfalso. eapply Qlt_not_le; eauto. }
  destruct (Qle_bool 0 infillPercentage); [|by cbn].
  set (n := Z.of_nat (length slice_levels)) in *.
  pose proof (post_classify_layers innerMostPolygonsList shellThickness n
                (ltac:(subst n; lia)) (fun _ _ => True)
                (ltac:(done)) (ltac:(done)) (ltac:(done)) (ltac:(done)) (ltac:(done))
                False (ltac:(done)) (ltac:(done)))
    as Hpost.
  unfold mbind at 1, IO_bind at 1, pure at 1.
  destruct (for_each _ _ _) as [m|e'].
  - destruct (negb (Qeq_bool infillPercentage 0)); [|by cbn].
    unfold mbind, IO_bind.
    destruct (internal_layers_return innerMostPolygonsList m (init_areas n) (py_range 0 n) log)
      as (i & log' & ->).
    by cbn.
  - cbn in *. intros [= <-]. by apply Hpost.
Qed.

(** C10. With at least 2 * shellThickness layers (and at least one shell)
    and an infill below 100%, no index that the classifier reads from the
    list of innermost polygons, and no key of its dicts, is out of range,
    whatever the geometry library computes; with fewer layers it can be: one
    layer and one shell read past the end of the list. *)
Theorem classifier_indices_in_bounds :
  (∀ {Geom : Type} `{!Shapely Geom} (slice_levels : list Q)
     (innerMostPolygonsList : list (list Geom)) (infillPercentage : Q)
     (shellThickness : Z) (log : list LogEntry),
      length innerMostPolygonsList = length slice_levels →
      (infillPercentage < 1)%Q →
      1 ≤ shellThickness →
      2 * shellThickness ≤ Z.of_nat (length slice_levels) →
      (get_manifold_areas_for_one_chunk slice_levels innerMostPolygonsList
         infillPercentage shellThickness log).1 ≠ Raise IndexError ∧
      (get_manifold_areas_for_one_chunk slice_levels innerMostPolygonsList
         infillPercentage shellThickness log).1 ≠ Raise KeyError) ∧
  (∃ (slice_levels : list Q) (innerMostPolygonsList : list (list (gset Cell)))
     (shellThickness : Z),
      length innerMostPolygonsList = length slice_levels ∧
      1 ≤ shellThickness ∧
      Z.of_nat (length slice_levels) < 2 * shellThickness ∧
      (get_manifold_areas_for_one_chunk slice_levels innerMostPolygonsList
         (1 # 2) shellThickness []).1 = Raise IndexError).
Proof.
  split.
  - intros Geom ? slice_levels L infill st log Hlen Hinfill Hst Hn.
    split; intros Hraise;
      eapply classifier_raises_harmless in Hraise as [? ?]; done.
  - exists [1%Q], [[Raster.rect 0 2 0 2]], 1. repeat split; try done.
Qed.

(** ** Area classifier on an exact library *)

Section ExactClassifier.
Context {Geom : Type} `{!Shapely Geom} `{!ExactShapely Geom}.

Lemma cells_of_app (xs ys : list Geom) :
  cells_of (xs ++ ys) = cells_of xs ∪ cells_of ys.
Proof. unfold cells_of. rewrite fmap_app. apply leibniz_equiv, union_list_app. Qed.

Lemma cells_of_singleton (g : Geom) : cells_of [g] = cells g.
Proof. unfold cells_of. cbn. set_solver. Qed.

Lemma cells_of_elem (g : Geom) (gs : list Geom) : g ∈ gs → cells g ⊆ cells_of gs.
Proof.
  intros Hg. unfold cells_of. intros c Hc. apply elem_of_union_list.
  exists (cells g). split; [|done]. by apply list_elem_of_fmap_2.
Qed.

Lemma cells_of_subseteq (gs : list Geom) (X : gset Cell) :
  (∀ g, g ∈ gs → cells g ⊆ X) → cells_of gs ⊆ X.
Proof.
  intros H. unfold cells_of. intros c Hc. apply elem_of_union_list in Hc as (Y & HY & Hc).
  apply list_elem_of_fmap in HY as (g & -> & Hg). by apply (H g).
Qed.

Lemma unary_union_cells (gs : list Geom) (u : Geom) :
  unary_union gs = Some u → cells u = cells_of gs ∧ areal u.
Proof.
  intros Hu. destruct (exact_unary_union gs) as (u' & Hu' & Hc & Ha).
  rewrite Hu in Hu'. by injection Hu' as <-.
Qed.

Lemma orient_each_cells (parts acc result : list Geom) :
  for_each (fun multiPolys poly => o ← lib (orient poly); Ok (multiPolys ++ [o]))
           parts acc = Ok result →
  cells_of result = cells_of acc ∪ cells_of parts.
Proof.
  revert acc. induction parts as [|p parts IH]; intros acc; cbn [for_each].
  - intros [= <-]. unfold cells_of at 3. cbn. set_solver.
  - destruct (exact_orient p) as (o & -> & Ho). cbn [lib]. outcome_simpl. intros Hr.
    rewrite (IH _ Hr), cells_of_app, cells_of_singleton, Ho.
    change (p :: parts) with ([p] ++ parts).
    rewrite cells_of_app, cells_of_singleton. set_solver.
Qed.

Lemma orient_each_total (parts acc : list Geom) :
  ∃ result,
    for_each (fun multiPolys poly => o ← lib (orient poly); Ok (multiPolys ++ [o]))
             parts acc = Ok result.
Proof.
  revert acc. induction parts as [|p parts IH]; intros acc; cbn [for_each]; [eauto|].
  destruct (exact_orient p) as (o & -> & Ho). cbn. apply IH.
Qed.

(** Fixing the orientation of the rings leaves the area as it is. *)
Lemma fix_orientation_cells (g r : Geom) :
  fix_polygon_or_multipolygon_ring_orientation g = Ok r → cells r = cells g.
Proof.
  assert (∀ r', (multiPolys ← orient_each (geoms g); lib (MultiPolygon_of multiPolys)) = Ok r' →
                geom_type g = GT_MultiPolygon → cells r' = cells g) as Hmulti.
  { intros r'. unfold orient_each.
    destruct (for_each _ (geoms g) []) as [ms|] eqn:Hms; cbn; [|done].
    destruct (exact_MultiPolygon ms) as (m & -> & Hm). cbn. intros [= <-] Htype.
    rewrite Hm. change (⋃ (cells <$> ms)) with (cells_of ms).
    rewrite (orient_each_cells _ _ _ Hms).
    rewrite <- (exact_geoms_multipolygon g Htype). unfold cells_of. cbn. set_solver. }
  unfold fix_polygon_or_multipolygon_ring_orientation.
  destruct (geom_type g) eqn:Htype; try (by intros [= <-]).
  - destruct (exact_orient g) as (o & -> & Ho). cbn. by intros [= <-].
  - intros Hr. by apply Hmulti.
  - destruct (is_empty g); cbn [negb]; [by intros [= <-]|].
    destruct (exact_orient g) as (o & Horient & Ho). rewrite Horient.
    match goal with
    | |- context [for_each ?body (geoms g) None] => set (f := body)
    end.
    assert (∀ (ps : list Geom) (r0 res : option Geom),
              (∀ x, r0 = Some x → cells x = cells g) →
              for_each f ps r0 = Ok res →
              ∀ x, res = Some x → cells x = cells g) as Hloop.
    { induction ps as [|p ps IH]; intros r0 res Hr0; cbn [for_each].
      - by intros [= <-].
      - unfold f at 2. destruct (geom_type p); cbn [lib]; outcome_simpl;
          try (apply IH; done).
        apply IH. by intros x [= <-]. }
    destruct (for_each f (geoms g) None) as [res|] eqn:Hres; outcome_simpl; [|done].
    destruct res as [x|]; [|done]. intros [= <-].
    eapply (Hloop _ None); [|exact Hres|done]. done.
Qed.

Lemma fix_orientation_total (g : Geom) :
  areal g → ∃ r, fix_polygon_or_multipolygon_ring_orientation g = Ok r.
Proof.
  intros Hareal. unfold fix_polygon_or_multipolygon_ring_orientation.
  destruct (geom_type g) eqn:Htype; eauto.
  - destruct (exact_orient g) as (o & -> & _). cbn. eauto.
  - unfold orient_each. destruct (orient_each_total (geoms g) []) as (ms & ->). cbn.
    destruct (exact_MultiPolygon ms) as (m & -> & _). cbn. eauto.
  - destruct Hareal as [?|Hempty]; [done|]. rewrite Hempty. cbn. eauto.
Qed.

Lemma layer_area_cells (innerMostPolygonsList : list (list Geom)) (layer : Z) (area : Geom) :
  0 ≤ layer → layer_area innerMostPolygonsList layer = Ok area →
  cells area = layer_cells innerMostPolygonsList layer.
Proof.
  intros H0. unfold layer_area, layer_cells.
  destruct (py_getitem innerMostPolygonsList layer) as [polygons|] eqn:Hget; [|done].
  apply py_getitem_Ok in Hget as [_ ->]; [|done]. outcome_simpl.
  destruct (unary_union polygons) as [u|] eqn:Hu; [|done]. cbn [lib]. outcome_simpl.
  intros Hfix. apply fix_orientation_cells in Hfix.
  apply unary_union_cells in Hu as [Hu _]. congruence.
Qed.

Lemma layer_area_total (innerMostPolygonsList : list (list Geom)) (layer : Z) :
  0 ≤ layer < Z.of_nat (length innerMostPolygonsList) →
  ∃ area, layer_area innerMostPolygonsList layer = Ok area.
Proof.
  intros Hlayer. unfold layer_area.
  destruct (py_getitem_in_range innerMostPolygonsList layer Hlayer) as (polygons & -> & _).
  outcome_simpl. destruct (exact_unary_union polygons) as (u & Hu & _ & Hareal).
  rewrite Hu. cbn [lib]. outcome_simpl. by apply fix_orientation_total.
Qed.

Lemma classify_layers_exact (innerMostPolygonsList : list (list Geom))
    (shellThickness n : Z) :
  Z.of_nat (length innerMostPolygonsList) = n →
  outcome_post (layers_in_bounds shellThickness n) True
    (areas_inv n (inside innerMostPolygonsList))
    (for_each (classify_layer innerMostPolygonsList shellThickness n)
       (py_range 0 n) (init_areas n)).
Proof.
  intros Hn. apply post_classify_layers; try done.
  - intros k polygons u area Hk Hpoly Hu Hfix. unfold inside, layer_cells.
    rewrite Hpoly. apply fix_orientation_cells in Hfix.
    apply unary_union_cells in Hu as [Hu _]. by rewrite Hfix, Hu.
  - intros k polygons u Hk Hpoly Hu. unfold inside, layer_cells.
    rewrite Hpoly. apply unary_union_cells in Hu as [Hu _]. by rewrite Hu.
  - intros k a u r Hu Hr. unfold inside in *.
    rewrite (exact_intersection _ _ _ Hr). set_solver.
  - intros k g g' Hg Hg'. unfold inside in *.
    pose proof (exact_geoms g g' Hg'). set_solver.
  - intros k a b d u Ha Hd Hu. unfold inside in *.
    destruct (exact_difference a b) as (d' & Hd' & Hcells & _).
    rewrite Hd in Hd'. injection Hd' as <-.
    apply unary_union_cells in Hu as [Hu _].
    rewrite Hu, cells_of_singleton, Hcells. set_solver.
  - intros _ gs. destruct (exact_unary_union gs) as (u & -> & _). eauto.
  - intros _ gs u Hu. apply fix_orientation_total.
    by apply unary_union_cells in Hu as [_ ?].
Qed.

(** On an exact library the first tier of [safe_unary_union] goes through. *)
Lemma safe_unary_union_exact (geometries : list Geom) (log : list LogEntry) :
  ∃ g, safe_unary_union geometries default_buffer_value log = (Ok g, log) ∧
       cells g = cells_of geometries ∧ areal g.
Proof.
  destruct geometries as [|g0 rest].
  - exists empty_polygon. split; [done|].
    destruct exact_empty_polygon as [Hc Ht]. split; [by rewrite Hc|].
    left. by rewrite Ht.
  - unfold safe_unary_union, try_except_IO, pure. cbv beta iota.
    destruct (exact_unary_union (g0 :: rest)) as (u & Hu & Hcells & Hareal).
    rewrite Hu. cbn [lib]. outcome_simpl.
    destruct (exact_buffer u) as (b & Hb & Hbc & Hba).
    unfold default_buffer_value. rewrite Hb. cbn [lib].
    exists b. split; [done|]. split; [by rewrite Hbc|auto].
Qed.

Lemma IO_bind_Ok {A B} (m : IO A) (k : A → IO B) (log log' : list LogEntry) (a : A) :
  m log = (Ok a, log') → (m ≫= k) log = k a log'.
Proof. intros H. unfold mbind, IO_bind. by rewrite H. Qed.

Lemma dict_append_empty (areas : gmap Z (list Geom)) (key : Z) (g : Geom) :
  areas !! key = Some [] → dict_append areas key g = Ok (<[key := [g]]> areas).
Proof. intros H. unfold dict_append, dict_get. by rewrite H. Qed.

Lemma cells_of_nil : cells_of (@nil Geom) = ∅.
Proof. done. Qed.

Lemma partition_difference (M A : gset Cell) :
  M ⊆ A → M ∪ (A ∖ M) = A ∧ M ∩ (A ∖ M) = ∅.
Proof.
  intros HM. split.
  - apply set_eq. intros c. rewrite elem_of_union, elem_of_difference.
    specialize (HM c). destruct (decide (c ∈ M)); tauto.
  - set_solver.
Qed.

Lemma partition_covered (M A : gset Cell) :
  M ⊆ A → A ∖ M = ∅ → M ∪ ∅ = A ∧ M ∩ ∅ = ∅.
Proof.
  intros HM HA. destruct (partition_difference M A HM) as [H1 H2].
  rewrite HA in H1, H2. done.
Qed.

Lemma partition_empty_manifold (A : gset Cell) : ∅ ∪ A = A ∧ ∅ ∩ A = ∅.
Proof. split; set_solver. Qed.

(** The internal area of a layer: what the layer has beyond its manifold
    areas. *)
Lemma internal_layer_exact (innerMostPolygonsList : list (list Geom)) (n : Z)
    (manifoldAreas internalAreas : gmap Z (list Geom)) (layer : Z)
    (log : list LogEntry) :
  Z.of_nat (length innerMostPolygonsList) = n → 0 ≤ layer < n →
  areas_inv n (inside innerMostPolygonsList) manifoldAreas →
  internalAreas !! layer = Some [] →
  ∃ gs,
    internal_layer innerMostPolygonsList manifoldAreas internalAreas layer log =
      (Ok (<[layer := gs]> internalAreas), log) ∧
    cells_of (areas_at manifoldAreas layer) ∪ cells_of gs =
      layer_cells innerMostPolygonsList layer ∧
    cells_of (areas_at manifoldAreas layer) ∩ cells_of gs = ∅.
Proof.
  intros Hn Hlayer [Hdom Hinside] Hi.
  destruct (py_getitem_in_range innerMostPolygonsList layer (ltac:(lia)))
    as (polygons & Hget & Hpoly).
  destruct (safe_unary_union_exact polygons log) as (u & Hu & Hucells & Huareal).
  destruct (fix_orientation_total u Huareal) as (oriented & Hfix).
  pose proof (fix_orientation_cells _ _ Hfix) as Hocells.
  destruct (exact_buffer oriented) as (cur & Hcur & Hccells & _).
  destruct (proj2 (Hdom layer) Hlayer) as [manifold Hm].
  assert (cells cur = layer_cells innerMostPolygonsList layer) as Harea.
  { unfold layer_cells. rewrite Hpoly. congruence. }
  assert (cells_of manifold ⊆ layer_cells innerMostPolygonsList layer) as Hsub.
  { apply cells_of_subseteq. intros g Hg. by apply (Hinside layer manifold). }
  assert (areas_at manifoldAreas layer = manifold) as Hat.
  { unfold areas_at. by rewrite Hm. }
  rewrite Hat.
  unfold internal_layer, try_except_IO at 1.
  rewrite Hget.
  rewrite (IO_bind_Ok (pure (Ok polygons)) _ log log polygons) by done.
  rewrite (IO_bind_Ok _ _ log log u Hu).
  rewrite Hfix.
  rewrite (IO_bind_Ok (pure (Ok oriented)) _ log log oriented) by done.
  rewrite Hcur. cbn [lib].
  rewrite (IO_bind_Ok (pure (Ok cur)) _ log log cur) by done.
  unfold dict_get at 1. rewrite Hm.
  rewrite (IO_bind_Ok (pure (Ok manifold)) _ log log manifold) by done.
  destruct (0 <? length manifold)%nat eqn:Hlen.
  - destruct (safe_unary_union_exact manifold log) as (combined & Hc & Hccells' & _).
    rewrite (IO_bind_Ok _ _ log log combined Hc).
    destruct (exact_equals_exact cur combined (1 # 1000)) as (same & Hsame & Heq).
    rewrite Hsame. cbn [lib].
    rewrite (IO_bind_Ok (pure (Ok same)) _ log log same) by done.
    destruct same.
    + exists []. rewrite insert_id by done. split; [done|].
      specialize (Heq eq_refl). rewrite cells_of_nil.
      rewrite <- Harea, Heq, Hccells'. apply partition_covered; [done|].
      clear. set_solver.
    + unfold try_except_IO, pure.
      destruct (exact_buffer cur) as (grown & Hg & Hgcells & _). rewrite Hg.
      cbn [lib]. outcome_simpl.
      destruct (exact_difference grown combined) as (d & Hd & Hdcells & Hvalid).
      rewrite Hd. cbn [lib]. outcome_simpl. rewrite Hvalid.
      assert (cells d = layer_cells innerMostPolygonsList layer ∖ cells_of manifold) as Hdc.
      { rewrite Hdcells, Hgcells, Harea, Hccells'. done. }
      destruct (is_empty d) eqn:Hempty; cbn [negb andb].
      * exists []. rewrite insert_id by done. split; [done|].
        apply exact_is_empty in Hempty. rewrite Hdc in Hempty.
        rewrite cells_of_nil. by apply partition_covered.
      * exists [d]. rewrite (dict_append_empty _ _ _ Hi). split; [done|].
        rewrite cells_of_singleton, Hdc. by apply partition_difference.
  - exists [cur]. unfold pure. rewrite (dict_append_empty _ _ _ Hi). split; [done|].
    assert (manifold = []) as ->.
    { destruct manifold; [done|]. simpl in Hlen. done. }
    rewrite cells_of_singleton, Harea, cells_of_nil. apply partition_empty_manifold.
Qed.

Lemma internal_layers_exact (innerMostPolygonsList : list (list Geom)) (n : Z)
    (manifoldAreas : gmap Z (list Geom)) (layers : list Z)
    (internalAreas : gmap Z (list Geom)) (log : list LogEntry) :
  Z.of_nat (length innerMostPolygonsList) = n →
  areas_inv n (inside innerMostPolygonsList) manifoldAreas →
  NoDup layers → (∀ k, k ∈ layers → 0 ≤ k < n) →
  (∀ k, k ∈ layers → internalAreas !! k = Some []) →
  (∀ k, 0 ≤ k < n → k ∉ layers →
        partitioned innerMostPolygonsList manifoldAreas internalAreas k) →
  ∃ internalAreas',
    for_each_IO (internal_layer innerMostPolygonsList manifoldAreas)
      layers internalAreas log = (Ok internalAreas', log) ∧
    ∀ k, 0 ≤ k < n → partitioned innerMostPolygonsList manifoldAreas internalAreas' k.
Proof.
  intros Hn Hinv. revert internalAreas.
  induction layers as [|layer layers IH]; intros internalAreas Hnodup Hrange Hfresh Hdone.
  - exists internalAreas. split; [done|]. intros k Hk. apply Hdone; [done|]. apply not_elem_of_nil.
  - apply NoDup_cons in Hnodup as [Hnotin Hnodup]. cbn [for_each_IO].
    destruct (internal_layer_exact innerMostPolygonsList n manifoldAreas internalAreas
                layer log Hn) as (gs & Hstep & Hunion & Hdisj).
    { apply Hrange. by left. }
    { done. }
    { apply Hfresh. by left. }
    rewrite (IO_bind_Ok _ _ log log _ Hstep).
    apply IH.
    + done.
    + intros k Hk. apply Hrange. by right.
    + intros k Hk. rewrite lookup_insert_ne; [apply Hfresh; by right|].
      intros ->. done.
    + intros k Hk Hnot. destruct (decide (k = layer)) as [->|Hne].
      * unfold partitioned, areas_at. rewrite lookup_insert_eq. done.
      * unfold partitioned, areas_at. rewrite lookup_insert_ne by done.
        apply Hdone; [done|]. intros [?|?]%elem_of_cons; done.
Qed.

Lemma solid_layers_exact (innerMostPolygonsList : list (list Geom)) (n : Z)
    (layers : list Z) (areas : gmap Z (list Geom)) :
  Z.of_nat (length innerMostPolygonsList) = n →
  NoDup layers → (∀ k, k ∈ layers → 0 ≤ k < n) →
  (∀ k, k ∈ layers → areas !! k = Some []) →
  (∀ k, 0 ≤ k < n → k ∉ layers → all_manifold innerMostPolygonsList areas k) →
  ∃ areas',
    for_each (solid_layer innerMostPolygonsList) layers areas = Ok areas' ∧
    ∀ k, 0 ≤ k < n → all_manifold innerMostPolygonsList areas' k.
Proof.
  intros Hn. revert areas.
  induction layers as [|layer layers IH]; intros areas Hnodup Hrange Hfresh Hdone.
  - exists areas. split; [done|]. intros k Hk. apply Hdone; [done|]. apply not_elem_of_nil.
  - apply NoDup_cons in Hnodup as [Hnotin Hnodup]. cbn [for_each].
    assert (0 ≤ layer < n) as Hlayer by (apply Hrange; by left).
    destruct (layer_area_total innerMostPolygonsList layer (ltac:(lia))) as (area & Harea).
    pose proof (layer_area_cells _ _ _ (proj1 Hlayer) Harea) as Hcells.
    assert (areas !! layer = Some []) as Hl by (apply Hfresh; by left).
    assert (solid_layer innerMostPolygonsList areas layer =
              Ok (<[layer := if is_empty area then [] else [area]]> areas)) as Hstep.
    { unfold solid_layer. rewrite Harea. outcome_simpl. unfold append_unless_empty.
      destruct (is_empty area); cbn [negb].
      - by rewrite insert_id.
      - by apply dict_append_empty. }
    rewrite Hstep. outcome_simpl. apply IH.
    + done.
    + intros k Hk. apply Hrange. by right.
    + intros k Hk. rewrite lookup_insert_ne; [apply Hfresh; by right|].
      intros ->. done.
    + intros k Hk Hnot. destruct (decide (k = layer)) as [->|Hne].
      * exists area. rewrite lookup_insert_eq. done.
      * destruct (Hdone k Hk) as (a & Ha & Hac & Hal).
        { intros [?|?]%elem_of_cons; done. }
        exists a. rewrite lookup_insert_ne by done. done.
Qed.

Lemma init_areas_at (n k : Z) : 0 ≤ n → areas_at (@init_areas Geom n) k = [].
Proof.
  intros Hn. unfold areas_at. rewrite init_areas_lookup by done.
  by destruct (decide (0 ≤ k < n)).
Qed.

End ExactClassifier.


(** C2. On an exact geometry library and for an infill of 100% or more the
    function returns, every layer's internal area is empty, and its manifold
    area is the union of its innermost polygons: that area itself when the
    layer has any, nothing otherwise. *)
Theorem full_infill_is_all_manifold {Geom : Type}
    `{!Shapely Geom} `{!ExactShapely Geom}
    (slice_levels : list Q) (innerMostPolygonsList : list (list Geom))
    (infillPercentage : Q) (shellThickness : Z) (log : list LogEntry) :
  length innerMostPolygonsList = length slice_levels →
  (1 <= infillPercentage)%Q →
  ∃ manifoldAreas internalAreas,
    get_manifold_areas_for_one_chunk slice_levels innerMostPolygonsList
      infillPercentage shellThickness log = (Ok (manifoldAreas, internalAreas), log) ∧
    ∀ layer, 0 ≤ layer < Z.of_nat (length slice_levels) →
      areas_at internalAreas layer = [] ∧
      all_manifold innerMostPolygonsList manifoldAreas layer ∧
      cells_of (areas_at manifoldAreas layer) = layer_cells innerMostPolygonsList layer.
Proof.
  intros Hlen Hfull. unfold get_manifold_areas_for_one_chunk.
  set (n := Z.of_nat (length slice_levels)).
  assert (Z.of_nat (length innerMostPolygonsList) = n) as Hn by (subst n; lia).
  apply Qle_bool_iff in Hfull. rewrite Hfull.
  destruct (solid_layers_exact innerMostPolygonsList n (py_range 0 n) (init_areas n) Hn)
    as (m & Hm & Hall).
  { apply NoDup_seqZ. }
  { intros k Hk. unfold py_range in Hk. apply elem_of_seqZ in Hk. lia. }
  { intros k Hk. unfold py_range in Hk. apply elem_of_seqZ in Hk.
    rewrite init_areas_lookup by lia. by rewrite decide_True by lia. }
  { intros k Hk Hnot. exfalso. apply Hnot. unfold py_range. apply elem_of_seqZ. lia. }
  rewrite Hm. exists m, (init_areas n). split; [done|].
  intros layer Hlayer. split; [apply init_areas_at; lia|].
  split; [by apply Hall|].
  destruct (Hall layer Hlayer) as (area & _ & Hcells & Hlookup).
  unfold areas_at. rewrite Hlookup.
  destruct (is_empty area) eqn:Hempty.
  - change (cells_of [] = layer_cells innerMostPolygonsList layer).
    apply exact_is_empty in Hempty. rewrite cells_of_nil. congruence.
  - change (cells_of [area] = layer_cells innerMostPolygonsList layer).
    by rewrite cells_of_singleton.
Qed.

(** ** Chunk decomposition *)

Lemma chisel_first_of_two_equal (raw : Mesh) :
  chisel 2 [Some raw; Some raw] 0 = Ok [None; Some raw].
Proof.
  unfold chisel. change (reverse (py_range 0 2)) with [1; 0]. cbn [for_each].
  change (py_getitem [Some raw; Some raw] 0) with (Ok (Some raw)).
  change (py_getitem [Some raw; Some raw] 1) with (Ok (Some raw)).
  change (0 <? 1) with true. change (0 <? 0) with false.
  outcome_simpl. cbn [mesh_difference]. outcome_simpl.
  rewrite difference_diag_L. by rewrite decide_True by done.
Qed.

Lemma chisel_last_of_two (first : option Mesh) (raw : Mesh) :
  chisel 2 [first; Some raw] 1 =
    Ok [first; if decide (raw = ∅) then None else Some raw].
Proof.
  unfold chisel. change (reverse (py_range 0 2)) with [1; 0]. cbn [for_each].
  change (py_getitem [first; Some raw] 1) with (Ok (Some raw)).
  change (1 <? 1) with false. change (1 <? 0) with false.
  outcome_simpl. done.
Qed.

(** C5, where the code departs from it. Two slicing directions with the
    same start and the same orientation: the first chunk, less the second,
    is empty and is recorded as [None]; the next stage does not skip it but
    raises on it. *)
Theorem empty_chunk_is_recorded_but_not_skipped
    (slice_plane : Mesh → Vector3 → Vector3 → Mesh)
    (bounds_z : Mesh → Q * Q) (aligned_bounds_z : Mesh → Vector3 → Vector3 → Q * Q)
    (mesh : Mesh) (start : Vector3) (direction : R * R) (layerHeight : Q) :
  ∃ last,
    create_chunkList slice_plane mesh 2 [start; start] [direction; direction] =
      Ok [None; last] ∧
    inverse_transform_chunks_to_get_respective_slice_levels bounds_z aligned_bounds_z
      2 [start; start] [direction; direction] [None; last] layerHeight =
      Raise AttributeError.
Proof.
  set (raw := slice_plane mesh start (spherical_to_normal direction.1 direction.2)).
  exists (if decide (raw = ∅) then None else Some raw). split.
  - unfold create_chunkList, unprocessed_chunks.
    change (py_range 0 2) with [0; 1]. cbn [for_each].
    change (py_getitem [start; start] 0) with (Ok start).
    change (py_getitem [start; start] 1) with (Ok start).
    change (py_getitem [direction; direction] 0) with (Ok direction).
    change (py_getitem [direction; direction] 1) with (Ok direction).
    outcome_simpl. fold raw. cbn [app].
    rewrite chisel_first_of_two_equal. outcome_simpl.
    rewrite chisel_last_of_two. done.
  - unfold inverse_transform_chunks_to_get_respective_slice_levels.
    change (py_range 0 2) with [0; 1]. done.
Qed.

Section ChunksDisjoint.
Variable slice_plane : Mesh → Vector3 → Vector3 → Mesh.
Variable mesh : Mesh.
Variable numSlicingDirections : Z.
Variable startingPositions : list Vector3.
Variable directions : list (R * R).

Lemma unprocessed_chunks_all_there (ks : list Z) (acc : list Mesh)
    (chunkList : list (option Mesh)) :
  for_each
    (fun chunkList k =>
       currentStart ← py_getitem startingPositions k;
       direction ← py_getitem directions k;
       let currentNormal := spherical_to_normal direction.1 direction.2 in
       Ok (chunkList ++ [Some (slice_plane mesh currentStart currentNormal)]))
    ks (Some <$> acc) = Ok chunkList →
  ∃ raws, chunkList = Some <$> raws ∧ length raws = (length acc + length ks)%nat.
Proof.
  revert acc. induction ks as [|k ks IH]; intros acc; cbn [for_each].
  - intros [= <-]. exists acc. split; [done|]. simpl. lia.
  - destruct (py_getitem startingPositions k) as [s|]; [|done].
    destruct (py_getitem directions k) as [d|]; [|done]. outcome_simpl.
    replace ((Some <$> acc) ++ [Some (slice_plane mesh s (spherical_to_normal d.1 d.2))])
      with (Some <$> (acc ++ [slice_plane mesh s (spherical_to_normal d.1 d.2)]))
      by (by rewrite fmap_app).
    intros H. apply IH in H as (raws & -> & Hlen). exists raws. split; [done|].
    rewrite length_app in Hlen. simpl in *. lia.
Qed.

(** The inner loop: what is left lies in what there was and meets none of
    the later chunks gone through. *)
Lemma chisel_inner (chunkList : list (option Mesh)) (raws : list Mesh) (k : Z)
    (rs : list Z) (c0 : Mesh) :
  0 ≤ k →
  (∀ r, r ∈ rs → 0 ≤ r < Z.of_nat (length chunkList)) →
  (∀ r raw, k < r → raws !! Z.to_nat r = Some raw →
            chunkList !! Z.to_nat r = Some (Some raw)) →
  length raws = length chunkList →
  ∃ c,
    for_each
      (fun remainingChunk r =>
         if k <? r then
           latterChunk ← py_getitem chunkList r;
           mesh_difference remainingChunk latterChunk
         else Ok remainingChunk)
      rs (Some c0) = Ok (Some c) ∧
    c ⊆ c0 ∧
    (∀ r raw, r ∈ rs → k < r → raws !! Z.to_nat r = Some raw → c ∩ raw = ∅).
Proof.
  intros Hk Hrange Hlater Hlen. revert c0.
  induction rs as [|r rs IH]; intros c0; cbn [for_each].
  - exists c0. split; [done|]. split; [done|]. intros r raw Hr. by apply elem_of_nil in Hr.
  - assert (0 ≤ r < Z.of_nat (length chunkList)) as Hr by (apply Hrange; by left).
    assert (∀ r', r' ∈ rs → 0 ≤ r' < Z.of_nat (length chunkList)) as Hrange'.
    { intros r' Hr'. apply Hrange. by right. }
    destruct (Z.ltb_spec k r) as [Hlt|Hge].
    + destruct (lookup_lt_is_Some_2 raws (Z.to_nat r)) as [raw Hraw]; [lia|].
      pose proof (Hlater r raw Hlt Hraw) as Hcl.
      destruct (py_getitem_in_range chunkList r Hr) as (x & Hx & Hx').
      rewrite Hcl in Hx'. injection Hx' as <-. rewrite Hx. outcome_simpl.
      cbn [mesh_difference]. outcome_simpl.
      destruct (IH Hrange' (c0 ∖ raw)) as (c & Hc & Hsub & Hdisj).
      exists c. split; [done|]. split; [set_solver|].
      intros r' raw' Hr' Hlt' Hraw'. apply elem_of_cons in Hr' as [->|Hr'].
      * rewrite Hraw in Hraw'. injection Hraw' as <-. set_solver.
      * eauto.
    + outcome_simpl. destruct (IH Hrange' c0) as (c & Hc & Hsub & Hdisj).
      exists c. split; [done|]. split; [done|].
      intros r' raw' Hr' Hlt' Hraw'. apply elem_of_cons in Hr' as [->|Hr'].
      * lia.
      * eauto.
Qed.

Lemma chisel_step (chunkList : list (option Mesh)) (raws : list Mesh) (k : Z) :
  numSlicingDirections = Z.of_nat (length raws) →
  0 ≤ k < numSlicingDirections →
  length chunkList = length raws →
  (∀ j raw, k ≤ j → raws !! Z.to_nat j = Some raw →
            chunkList !! Z.to_nat j = Some (Some raw)) →
  ∃ entry,
    chisel numSlicingDirections chunkList k = Ok (<[Z.to_nat k := entry]> chunkList) ∧
    chiselled raws (Z.to_nat k) entry.
Proof.
  intros HN Hk Hlen Hraw.
  destruct (lookup_lt_is_Some_2 raws (Z.to_nat k)) as [raw_k Hrk]; [lia|].
  pose proof (Hraw k raw_k (ltac:(lia)) Hrk) as Hck.
  destruct (py_getitem_in_range chunkList k (ltac:(lia))) as (x & Hx & Hx').
  rewrite Hck in Hx'. injection Hx' as <-.
  destruct (chisel_inner chunkList raws k (reverse (py_range 0 numSlicingDirections)) raw_k)
    as (c & Hc & Hsub & Hdisj).
  - lia.
  - intros r Hr. rewrite elem_of_reverse in Hr. unfold py_range in Hr.
    apply elem_of_seqZ in Hr. lia.
  - intros r raw Hlt. apply Hraw. lia.
  - done.
  - unfold chisel. rewrite Hx. outcome_simpl. rewrite Hc. outcome_simpl.
    eexists. split; [reflexivity|].
    destruct (decide (c = ∅)) as [|Hne]; [done|]. cbn.
    split; [done|]. split; [eauto|].
    intros r raw Hr Hraw'. apply (Hdisj (Z.of_nat r) raw).
    + rewrite elem_of_reverse. unfold py_range. apply elem_of_seqZ.
      pose proof (lookup_lt_Some _ _ _ Hraw'). lia.
    + lia.
    + by rewrite Nat2Z.id.
Qed.

Lemma chisel_all (raws : list Mesh) (m : nat) (k : Z) (chunkList : list (option Mesh)) :
  numSlicingDirections = Z.of_nat (length raws) →
  0 ≤ k → k + Z.of_nat m = numSlicingDirections →
  length chunkList = length raws →
  (∀ j e, (j < Z.to_nat k)%nat → chunkList !! j = Some e → chiselled raws j e) →
  (∀ j raw, k ≤ j → raws !! Z.to_nat j = Some raw →
            chunkList !! Z.to_nat j = Some (Some raw)) →
  ∃ final,
    for_each (chisel numSlicingDirections) (seqZ k (Z.of_nat m)) chunkList = Ok final ∧
    ∀ j e, final !! j = Some e → chiselled raws j e.
Proof.
  intros HN. revert k chunkList.
  induction m as [|m IH]; intros k chunkList Hk Hsum Hlen Hdone Hraw.
  - exists chunkList. split; [done|]. intros j e Hj. apply Hdone; [|done].
    pose proof (lookup_lt_Some _ _ _ Hj). lia.
  - rewrite Nat2Z.inj_succ, seqZ_cons by lia. cbn [for_each].
    destruct (chisel_step chunkList raws k HN (ltac:(lia)) Hlen Hraw) as (entry & Hstep & Hent).
    rewrite Hstep. outcome_simpl. rewrite Z.pred_succ.
    apply IH.
    + lia.
    + lia.
    + by rewrite length_insert.
    + intros j e Hj He. destruct (decide (j = Z.to_nat k)) as [->|Hne].
      * rewrite list_lookup_insert_eq in He by lia. by injection He as <-.
      * rewrite list_lookup_insert_ne in He by done. apply Hdone; [lia|done].
    + intros j raw Hj Hr. rewrite list_lookup_insert_ne by lia. apply Hraw; [lia|done].
Qed.

(** The chunks that [create_chunkList] retains are nonempty and pairwise
    disjoint. *)
Lemma create_chunkList_disjoint (chunkList : list (option Mesh)) :
  create_chunkList slice_plane mesh numSlicingDirections startingPositions directions =
    Ok chunkList →
  (∀ j a, chunkList !! j = Some (Some a) → a ≠ ∅) ∧
  (∀ j k a b, (j < k)%nat →
     chunkList !! j = Some (Some a) → chunkList !! k = Some (Some b) → a ∩ b = ∅).
Proof.
  unfold create_chunkList, unprocessed_chunks.
  destruct (for_each _ (py_range 0 numSlicingDirections) []) as [raw_list|] eqn:Hraws;
    [|done].
  outcome_simpl. intros Hfinal.
  apply (unprocessed_chunks_all_there _ []) in Hraws as (raws & -> & Hlen).
  unfold py_range in Hlen, Hfinal. rewrite Z.sub_0_r in Hlen, Hfinal.
  rewrite length_seqZ in Hlen. simpl in Hlen.
  assert (∀ j e, chunkList !! j = Some e → chiselled raws j e) as Hall.
  { destruct (Z.le_gt_cases numSlicingDirections 0) as [Hneg|Hpos].
    - replace (seqZ 0 numSlicingDirections) with (@nil Z) in Hfinal.
      2:{ symmetry. apply length_zero_iff_nil. rewrite length_seqZ. lia. }
      cbn in Hfinal. injection Hfinal as <-.
      assert (raws = []) as -> by (apply length_zero_iff_nil; lia).
      intros j e Hj. change (Some <$> []) with (@nil (option Mesh)) in Hj.
      by rewrite lookup_nil in Hj.
    - destruct (chisel_all raws (length raws) 0 (Some <$> raws)) as (final & Hf & Hch).
      + lia.
      + lia.
      + lia.
      + by rewrite length_fmap.
      + intros j e Hj. simpl in Hj. lia.
      + intros j raw _ Hr. by rewrite list_lookup_fmap, Hr.
      + replace (Z.of_nat (length raws)) with numSlicingDirections in Hf by lia.
        rewrite Hf in Hfinal. by injection Hfinal as <-. }
  split.
  - intros j a Hj. by destruct (Hall j (Some a) Hj) as [? _].
  - intros j k a b Hjk Ha Hb.
    destruct (Hall j (Some a) Ha) as (_ & _ & Hdisj).
    destruct (Hall k (Some b) Hb) as (_ & (raw & Hraw & Hsub) & _).
    specialize (Hdisj k raw Hjk Hraw). set_solver.
Qed.

End ChunksDisjoint.

(** ** The raster is an exact library *)

#[global] Instance raster_exact : ExactShapely (gset Cell).
Proof.
  refine {| cells := fun g => g |}.
  - intros g Hg. by apply bool_decide_eq_true in Hg.
  - done.
  - intros g g' Hg. apply list_elem_of_singleton in Hg as ->. done.
  - intros g Hg. discriminate Hg.
  - intros gs. exists (⋃ gs). split; [done|]. split; [by rewrite list_fmap_id|].
    left. discriminate.
  - intros g. by exists g.
  - intros gs. exists (⋃ gs). split; [done|]. by rewrite list_fmap_id.
  - intros g. exists g. done.
  - intros a b r [= <-]. done.
  - intros a b. exists (a ∖ b). done.
  - intros a b tolerance. exists (bool_decide (a = b)). split; [done|].
    intros H. by apply bool_decide_eq_true in H.
Defined.



Lemma full_infill_is_all_manifold_example :
  ∃ manifoldAreas internalAreas,
    get_manifold_areas_for_one_chunk [1; 2]%Q
      [[Raster.rect 0 4 0 4]; [Raster.rect 1 3 1 3]] 1 3 [] =
      (Ok (manifoldAreas, internalAreas), []) ∧
    ∀ layer, 0 ≤ layer < Z.of_nat (length [1; 2]%Q) →
      areas_at internalAreas layer = [] ∧
      all_manifold [[Raster.rect 0 4 0 4]; [Raster.rect 1 3 1 3]] manifoldAreas layer ∧
      cells_of (areas_at manifoldAreas layer) =
        layer_cells [[Raster.rect 0 4 0 4]; [Raster.rect 1 3 1 3]] layer.
Proof.
  apply (full_infill_is_all_manifold [1; 2]%Q
           [[Raster.rect 0 4 0 4]; [Raster.rect 1 3 1 3]] 1 3 []).
  - reflexivity.
  - discriminate.
Defined.

Lemma classifier_indices_in_bounds_example :
  (get_manifold_areas_for_one_chunk [1; 2]%Q
     [[Raster.rect 0 4 0 4]; [Raster.rect 1 3 1 3]] (1 # 2) 1 []).1 ≠ Raise IndexError ∧
  (get_manifold_areas_for_one_chunk [1; 2]%Q
     [[Raster.rect 0 4 0 4]; [Raster.rect 1 3 1 3]] (1 # 2) 1 []).1 ≠ Raise KeyError.
Proof.
  apply (proj1 classifier_indices_in_bounds (gset Cell) _ [1; 2]%Q
           [[Raster.rect 0 4 0 4]; [Raster.rect 1 3 1 3]] (1 # 2) 1 []).
  - reflexivity.
  - reflexivity.
  - lia.
  - simpl. lia.
Defined.

Lemma safe_unary_union_example :
  ∃ (g : gset Cell) (log' : list LogEntry),
    safe_unary_union [Raster.rect 0 2 0 2; Raster.rect 1 3 1 3] default_buffer_value [] =
      (Ok g, log') ∧
    g = Raster.rect 0 2 0 2 ∪ (Raster.rect 1 3 1 3 ∪ ∅) ∧ log' = [].
Proof.
  exact (safe_unary_union_three_tiers
           [Raster.rect 0 2 0 2; Raster.rect 1 3 1 3] default_buffer_value []).
Defined.

(** ** Laying a chunk on the XY plane *)

(** X1. The normal of a slicing direction, computed from its two angles
    in degrees, is a unit vector. *)
Theorem spherical_to_normal_is_unit (theta phi : R) :
  norm (spherical_to_normal theta phi) = 1%R.
Proof.
  unfold norm, spherical_to_normal, dot.
  set (t := (theta * (PI / 180))%R). set (p := (phi * (PI / 180))%R).
  replace (sin t * cos p * (sin t * cos p) + sin t * sin p * (sin t * sin p) + cos t * cos t)%R
    with ((sin t)² * ((sin p)² + (cos p)²) + (cos t)²)%R by (unfold Rsqr; ring).
  rewrite sin2_cos2, Rmult_1_r, sin2_cos2. apply sqrt_1.
Qed.

Lemma dot_self_nonneg (v : Vector3) : (0 <= dot v v)%R.
Proof. destruct v as [[x y] z]. unfold dot. nra. Qed.

Lemma norm_sqr (v : Vector3) : (norm v * norm v = dot v v)%R.
Proof. unfold norm. apply sqrt_sqrt, dot_self_nonneg. Qed.

Lemma norm_nonneg (v : Vector3) : (0 <= norm v)%R.
Proof. apply sqrt_pos. Qed.

Lemma unit_divide (v : Vector3) :
  norm v ≠ 0%R → dot (divide v (norm v)) (divide v (norm v)) = 1%R.
Proof.
  intros Hn. pose proof (norm_sqr v) as Hs. destruct v as [[x y] z].
  unfold divide. unfold dot in *.
  replace (x / norm (x, y, z) * (x / norm (x, y, z)) + y / norm (x, y, z) * (y / norm (x, y, z))
           + z / norm (x, y, z) * (z / norm (x, y, z)))%R
    with ((x * x + y * y + z * z) / (norm (x, y, z) * norm (x, y, z)))%R by (field; done).
  rewrite Hs. field. rewrite <- Hs. nra.
Qed.

Lemma isclose_zero_0 : isclose_zero 0 = true.
Proof. unfold isclose_zero. rewrite Rabs_R0. destruct (Rle_dec 0 1e-8) as [|H]; [done|]. lra. Qed.

(** The rotation for a unit normal that is off the Z axis, entry by entry. *)
Lemma alignment_rotation_entries (nx ny nz : R) :
  (nx * nx + ny * ny + nz * nz = 1)%R →
  allclose_zero (cross (nx, ny, nz) (0, 0, 1)%R) = false →
  ∃ k : R,
    (k * (1 + nz) = 1)%R ∧
    let s := norm (cross (nx, ny, nz) (0, 0, 1)%R) in
    let '(a0, a1, a2) := divide (cross (nx, ny, nz) (0, 0, 1)%R) s in
    let angle := acos (clip (dot (nx, ny, nz) (0, 0, 1)%R) (-1) 1) in
    let K : Matrix3 := ((0, - a2, a1), (a2, 0, - a0), (- a1, a0, 0))%R in
    matadd (matadd eye3 (matscale (sin angle) K))
           (matscale (1 - cos angle) (matmul K K)) =
    ((1 - k * nx * nx, - (k * nx * ny), - nx),
     (- (k * nx * ny), 1 - k * ny * ny, - ny),
     (nx, ny, nz))%R.
Proof.
  intros Hunit Hfar. cbn zeta.
  assert (cross (nx, ny, nz) (0, 0, 1)%R = (ny, - nx, 0)%R) as Hcross.
  { unfold cross. f_equal; [f_equal|]; ring. }
  rewrite Hcross in *.
  assert (dot (nx, ny, nz) (0, 0, 1)%R = nz) as -> by (unfold dot; ring).
  set (s := norm (ny, (- nx)%R, 0%R)).
  assert (s * s = nx * nx + ny * ny)%R as Hs.
  { unfold s. rewrite norm_sqr. unfold dot. ring. }
  assert (0 <= s)%R as Hs0 by apply norm_nonneg.
  assert (s ≠ 0%R) as Hsne.
  { intros Hz. rewrite Hz in Hs.
    assert (nx = 0%R) as -> by nra. assert (ny = 0%R) as -> by nra.
    unfold allclose_zero in Hfar. rewrite Ropp_0, isclose_zero_0 in Hfar. done. }
  assert (-1 <= nz <= 1)%R as Hnz by nra.
  assert (1 + nz ≠ 0)%R as Hup by nra.
  assert (clip nz (-1) 1 = nz) as ->.
  { unfold clip. rewrite Rmax_right by lra. by rewrite Rmin_right by lra. }
  assert (sin (acos nz) = s) as Hsin.
  { rewrite sin_acos by done. unfold Rsqr.
    replace (1 - nz * nz)%R with (s * s)%R by lra. by apply sqrt_square. }
  rewrite cos_acos by done. rewrite Hsin.
  exists (/ (1 + nz))%R. split; [by field|].
  assert ((1 - nz) / (s * s) = / (1 + nz))%R as Hk.
  { rewrite Hs. replace (nx * nx + ny * ny)%R with ((1 - nz) * (1 + nz))%R by lra.
    field. split; [done|]. intros Hz. apply Hsne. nra. }
  rewrite <- Hk.
  unfold divide, matmul, matscale, matadd, eye3, column, dot, scale3, add3. cbn.
  repeat f_equal; try (field; done).
  field_simplify; [|done].
  replace (ny ^ 2)%R with (s * s - nx * nx)%R by lra. field. done.
Qed.

Lemma alignment_rotation_tilted (base_normal : Vector3) :
  norm base_normal ≠ 0%R →
  allclose_zero (cross (divide base_normal (norm base_normal)) (0, 0, 1)%R) = false →
  (alignment_rotation base_normal).2 = divide base_normal (norm base_normal).
Proof.
  intros Hn Hfar. unfold alignment_rotation. rewrite Hfar.
  pose proof (unit_divide base_normal Hn) as Hunit.
  destruct (divide base_normal (norm base_normal)) as [[nx ny] nz] eqn:Hd.
  destruct (alignment_rotation_entries nx ny nz) as (k & Hk & Hrow);
    [unfold dot in Hunit; lra | done |].
  cbn zeta in Hrow.
  destruct (divide (cross (nx, ny, nz) (0, 0, 1)%R) (norm (cross (nx, ny, nz) (0, 0, 1)%R)))
    as [[a0 a1] a2].
  by rewrite Hrow.
Qed.

Lemma transform_vertex_align (rotation : Matrix3) (base_point v : Vector3) :
  transform_vertex (z_translation (- (matvec rotation base_point).2))
    (transform_vertex (homogeneous rotation) v) =
  ((matvec rotation v).1.1, (matvec rotation v).1.2,
   (dot rotation.2 v - dot rotation.2 base_point)%R).
Proof.
  destruct rotation as [[[[r00 r01] r02] [[r10 r11] r12]] [[r20 r21] r22]].
  destruct v as [[x y] z]. destruct base_point as [[bx by_] bz].
  unfold transform_vertex, homogeneous, z_translation, matvec, dot4, dot. cbn.
  f_equal; [f_equal|]; ring.
Qed.

Lemma transform_vertex_compose (a b : Matrix4) (v : Vector3) :
  b.2 = (0, 0, 0, 1)%R →
  transform_vertex (matmul4 a b) v = transform_vertex a (transform_vertex b v).
Proof.
  destruct a as [[[[[[a00 a01] a02] a03] [[[a10 a11] a12] a13]] [[[a20 a21] a22] a23]]
                 [[[a30 a31] a32] a33]].
  destruct b as [[[[[[b00 b01] b02] b03] [[[b10 b11] b12] b13]] [[[b20 b21] b22] b23]]
                 [[[b30 b31] b32] b33]].
  destruct v as [[x y] z]. cbn. intros [= -> -> -> ->].
  unfold transform_vertex, matmul4, column4, dot4. cbn.
  f_equal; [f_equal|]; ring.
Qed.

Lemma alignment_rotation_explicit (base_normal : Vector3) :
  norm base_normal ≠ 0%R →
  allclose_zero (cross (divide base_normal (norm base_normal)) (0, 0, 1)%R) = false →
  ∃ nx ny nz k : R,
    divide base_normal (norm base_normal) = (nx, ny, nz) ∧
    (nx * nx + ny * ny + nz * nz = 1)%R ∧ (k * (1 + nz) = 1)%R ∧
    alignment_rotation base_normal =
      ((1 - k * nx * nx, - (k * nx * ny), - nx),
       (- (k * nx * ny), 1 - k * ny * ny, - ny),
       (nx, ny, nz))%R.
Proof.
  intros Hn Hfar. unfold alignment_rotation. rewrite Hfar.
  pose proof (unit_divide base_normal Hn) as Hunit.
  destruct (divide base_normal (norm base_normal)) as [[nx ny] nz] eqn:Hd.
  assert (nx * nx + ny * ny + nz * nz = 1)%R as Hu by (unfold dot in Hunit; lra).
  destruct (alignment_rotation_entries nx ny nz Hu Hfar) as (k & Hk & Hrow).
  cbn zeta in Hrow.
  destruct (divide (cross (nx, ny, nz) (0, 0, 1)%R) (norm (cross (nx, ny, nz) (0, 0, 1)%R)))
    as [[a0 a1] a2].
  exists nx, ny, nz, k. by rewrite Hrow.
Qed.

Lemma tilt_factor (nx ny nz k : R) :
  (nx * nx + ny * ny + nz * nz = 1)%R → (k * (1 + nz) = 1)%R →
  (k * (nx * nx + ny * ny) = 1 - nz)%R.
Proof.
  intros H1 H2. replace (nx * nx + ny * ny)%R with ((1 - nz) * (1 + nz))%R by lra.
  replace (k * ((1 - nz) * (1 + nz)))%R with ((1 - nz) * (k * (1 + nz)))%R by ring.
  rewrite H2. ring.
Qed.

(** The rotation keeps inner products, whatever the normal. *)
Lemma alignment_rotation_isometry (base_normal u v : Vector3) :
  norm base_normal ≠ 0%R →
  dot (matvec (alignment_rotation base_normal) u) (matvec (alignment_rotation base_normal) v) =
    dot u v.
Proof.
  intros Hn.
  destruct (allclose_zero (cross (divide base_normal (norm base_normal)) (0, 0, 1)%R))
    eqn:Hclose.
  - unfold alignment_rotation. rewrite Hclose.
    destruct u as [[ux uy] uz], v as [[vx vy] vz]. unfold matvec, eye3, dot. ring.
  - destruct (alignment_rotation_explicit base_normal Hn Hclose)
      as (nx & ny & nz & k & _ & H1 & H2 & ->).
    pose proof (tilt_factor nx ny nz k H1 H2) as H3.
    assert (1 - 2 * k + k * (k * (nx * nx + ny * ny)) = 0)%R as H4.
    { rewrite H3. replace (1 - 2 * k + k * (1 - nz))%R with (1 - k * (1 + nz))%R by ring.
      rewrite H2. ring. }
    assert (-1 + k * (nx * nx + ny * ny) + nz = 0)%R as H5 by (rewrite H3; ring).
    destruct u as [[ux uy] uz], v as [[vx vy] vz]. unfold matvec, dot.
    match goal with |- ?lhs = _ =>
      replace lhs with
        ((1 + nx * nx * (1 - 2 * k + k * (k * (nx * nx + ny * ny)))) * (ux * vx)
         + (nx * ny * (1 - 2 * k + k * (k * (nx * nx + ny * ny)))) * (ux * vy + uy * vx)
         + (nx * (-1 + k * (nx * nx + ny * ny) + nz)) * (ux * vz + uz * vx)
         + (1 + ny * ny * (1 - 2 * k + k * (k * (nx * nx + ny * ny)))) * (uy * vy)
         + (ny * (-1 + k * (nx * nx + ny * ny) + nz)) * (uy * vz + uz * vy)
         + (nx * nx + ny * ny + nz * nz) * (uz * vz))%R by ring
    end.
    rewrite H4, H5, H1. ring.
Qed.

(** X2. A base normal that is off the Z axis: the rotation takes the unit
    normal to the Z axis, and every vertex of the returned mesh lies as
    high above the XY plane as the vertex it comes from lies ahead of the
    base plane, the plane through [base_point] with that normal. *)
Theorem align_mesh_base_to_xy_heights (mesh : list Vector3)
    (base_point base_normal : Vector3) :
  norm base_normal ≠ 0%R →
  allclose_zero (cross (divide base_normal (norm base_normal)) (0, 0, 1)%R) = false →
  let unit_normal := divide base_normal (norm base_normal) in
  matvec (alignment_rotation base_normal) unit_normal = (0, 0, 1)%R ∧
  (λ vertex : Vector3, vertex.2) <$> (align_mesh_base_to_xy mesh base_point base_normal).1 =
    (λ vertex, (dot unit_normal vertex - dot unit_normal base_point)%R) <$> mesh.
Proof.
  intros Hn Hfar unit_normal. split.
  - destruct (alignment_rotation_explicit base_normal Hn Hfar)
      as (nx & ny & nz & k & Hd & H1 & H2 & ->).
    subst unit_normal. rewrite Hd.
    pose proof (tilt_factor nx ny nz k H1 H2) as H3.
    unfold matvec, dot. f_equal; [f_equal|].
    + replace ((1 - k * nx * nx) * nx + - (k * nx * ny) * ny + - nx * nz)%R
        with (nx * (1 - nz - k * (nx * nx + ny * ny)))%R by ring.
      rewrite H3. ring.
    + replace (- (k * nx * ny) * nx + (1 - k * ny * ny) * ny + - ny * nz)%R
        with (ny * (1 - nz - k * (nx * nx + ny * ny)))%R by ring.
      rewrite H3. ring.
    + done.
  - unfold align_mesh_base_to_xy. cbn [fst].
    rewrite <- list_fmap_compose. rewrite <- list_fmap_compose.
    apply list_fmap_ext. intros i v _. cbn [compose].
    rewrite transform_vertex_align. cbn [snd].
    by rewrite alignment_rotation_tilted.
Qed.

(** X3. The chunk is moved rigidly: any two vertices of the returned mesh
    are as far apart as the vertices they come from. *)
Theorem align_mesh_base_to_xy_rigid (mesh : list Vector3)
    (base_point base_normal : Vector3) (i j : nat) (u v u' v' : Vector3) :
  norm base_normal ≠ 0%R →
  mesh !! i = Some u → mesh !! j = Some v →
  (align_mesh_base_to_xy mesh base_point base_normal).1 !! i = Some u' →
  (align_mesh_base_to_xy mesh base_point base_normal).1 !! j = Some v' →
  distance3 u' v' = distance3 u v.
Proof.
  intros Hn Hu Hv. unfold align_mesh_base_to_xy. cbn [fst].
  rewrite <- list_fmap_compose, !list_lookup_fmap, Hu, Hv. cbn.
  intros [= <-] [= <-]. rewrite !transform_vertex_align.
  set (rot := alignment_rotation base_normal).
  pose proof (alignment_rotation_isometry base_normal
                (add3 u (scale3 (-1) v)) (add3 u (scale3 (-1) v)) Hn) as Hiso.
  fold rot in Hiso. unfold distance3, norm. f_equal. rewrite <- Hiso.
  destruct rot as [[[[r00 r01] r02] [[r10 r11] r12]] [[r20 r21] r22]].
  destruct u as [[ux uy] uz], v as [[vx vy] vz], base_point as [[bx by_] bz].
  unfold matvec, dot, add3, scale3. cbn. ring.
Qed.

(** X4. A base normal along the Z axis within the tolerance of
    [np.allclose], upwards or downwards: the mesh is only moved along Z,
    by the height of the base point; a chunk whose normal points straight
    down is not turned over. *)
Theorem align_mesh_base_to_xy_along_z (mesh : list Vector3)
    (base_point base_normal : Vector3) :
  allclose_zero (cross (divide base_normal (norm base_normal)) (0, 0, 1)%R) = true →
  (align_mesh_base_to_xy mesh base_point base_normal).1 =
    (λ vertex : Vector3, (vertex.1.1, vertex.1.2, (vertex.2 - base_point.2)%R)) <$> mesh.
Proof.
  intros Hclose. unfold align_mesh_base_to_xy. cbn [fst].
  rewrite <- list_fmap_compose. apply list_fmap_ext. intros i v _. cbn [compose].
  rewrite transform_vertex_align. unfold alignment_rotation. rewrite Hclose.
  destruct v as [[x y] z], base_point as [[bx by_] bz].
  unfold matvec, eye3, dot. cbn. f_equal; [f_equal|]; ring.
Qed.

(** X5. The transform that is returned is the one that was applied: it
    takes every vertex of the mesh to the vertex of the returned mesh. *)
Theorem align_mesh_base_to_xy_final_transform (mesh : list Vector3)
    (base_point base_normal : Vector3) :
  let '(rotated_mesh, final_transform) := align_mesh_base_to_xy mesh base_point base_normal in
  rotated_mesh = transform_vertex final_transform <$> mesh.
Proof.
  unfold align_mesh_base_to_xy. rewrite <- list_fmap_compose.
  apply list_fmap_ext. intros i v _. cbn [compose].
  rewrite transform_vertex_compose; [done|].
  by destruct (alignment_rotation base_normal) as [[[[r00 r01] r02] [[r10 r11] r12]] [[r20 r21] r22]].
Qed.

Lemma norm_x_axis : norm (1, 0, 0)%R = 1%R.
Proof.
  unfold norm, dot. replace (1 * 1 + 0 * 0 + 0 * 0)%R with 1%R by ring. apply sqrt_1.
Qed.

Lemma norm_z_axis : norm (0, 0, 1)%R = 1%R.
Proof.
  unfold norm, dot. replace (0 * 0 + 0 * 0 + 1 * 1)%R with 1%R by ring. apply sqrt_1.
Qed.

Lemma x_axis_is_off_z :
  allclose_zero (cross (divide (1, 0, 0)%R (norm (1, 0, 0)%R)) (0, 0, 1)%R) = false.
Proof.
  rewrite norm_x_axis. unfold divide, cross, allclose_zero.
  replace (0 / 1 * 0 - 1 / 1 * 1)%R with (- (1))%R by field.
  unfold isclose_zero at 2. rewrite Rabs_Ropp, Rabs_R1.
  destruct (Rle_dec 1 1e-8) as [H|_]; [lra|]. by rewrite andb_false_r.
Qed.

Lemma z_axis_is_along_z :
  allclose_zero (cross (divide (0, 0, 1)%R (norm (0, 0, 1)%R)) (0, 0, 1)%R) = true.
Proof.
  rewrite norm_z_axis. unfold divide, cross, allclose_zero.
  replace (0 / 1 * 1 - 1 / 1 * 0)%R with 0%R by field.
  replace (1 / 1 * 0 - 0 / 1 * 1)%R with 0%R by field.
  replace (0 / 1 * 0 - 0 / 1 * 0)%R with 0%R by field.
  by rewrite isclose_zero_0.
Qed.

Lemma align_mesh_base_to_xy_heights_example :
  norm (1, 0, 0)%R ≠ 0%R ∧
  allclose_zero (cross (divide (1, 0, 0)%R (norm (1, 0, 0)%R)) (0, 0, 1)%R) = false ∧
  (λ vertex : Vector3, vertex.2) <$>
      (align_mesh_base_to_xy [(3, 5, 7)%R] (1, 0, 0)%R (1, 0, 0)%R).1 =
    (λ vertex, (dot (divide (1, 0, 0)%R (norm (1, 0, 0)%R)) vertex
                - dot (divide (1, 0, 0)%R (norm (1, 0, 0)%R)) (1, 0, 0)%R)%R)
      <$> [(3, 5, 7)%R].
Proof.
  assert (norm (1, 0, 0)%R ≠ 0%R) as Hn by (rewrite norm_x_axis; lra).
  split; [exact Hn|]. split; [exact x_axis_is_off_z|].
  exact (proj2 (align_mesh_base_to_xy_heights [(3, 5, 7)%R] (1, 0, 0)%R (1, 0, 0)%R
                  Hn x_axis_is_off_z)).
Defined.

Lemma align_mesh_base_to_xy_rigid_example :
  ∃ u' v',
    (align_mesh_base_to_xy [(3, 5, 7); (0, 0, 0)]%R (1, 0, 0)%R (1, 0, 0)%R).1 !! 0%nat
      = Some u' ∧
    (align_mesh_base_to_xy [(3, 5, 7); (0, 0, 0)]%R (1, 0, 0)%R (1, 0, 0)%R).1 !! 1%nat
      = Some v' ∧
    distance3 u' v' = distance3 (3, 5, 7)%R (0, 0, 0)%R.
Proof.
  eexists _, _. split; [reflexivity|]. split; [reflexivity|].
  apply (align_mesh_base_to_xy_rigid [(3, 5, 7); (0, 0, 0)]%R (1, 0, 0)%R (1, 0, 0)%R
           0 1 (3, 5, 7)%R (0, 0, 0)%R).
  - rewrite norm_x_axis. lra.
  - reflexivity.
  - reflexivity.
  - reflexivity.
  - reflexivity.
Defined.

Lemma align_mesh_base_to_xy_along_z_example :
  (align_mesh_base_to_xy [(3, 5, 7)%R] (0, 0, 2)%R (0, 0, 1)%R).1 =
    [(3, 5, 7 - 2)%R].
Proof.
  exact (align_mesh_base_to_xy_along_z [(3, 5, 7)%R] (0, 0, 2)%R (0, 0, 1)%R
           z_axis_is_along_z).
Defined.

(** ** G-code emission: travel, retraction and the toolpath *)

Lemma extrusion_length_nonneg (c : WriterContext) (s : R) :
  (0 <= s)%R → (0 <= extrusion_length (layerHeight c) (lineWidth c) s)%R.
Proof.
  intros Hs. unfold extrusion_length, lineWidth.
  pose proof PI_RGT_0 as Hpi.
  apply Rmult_le_pos.
  - replace (4 * layerHeight c * (layerHeight c * 2) * s)%R
      with (8 * (layerHeight c * layerHeight c) * s)%R by ring.
    apply Rmult_le_pos; [|done]. nra.
  - apply Rlt_le, Rinv_0_lt_compat. nra.
Qed.

Lemma path_extrusion_nonneg (c : WriterContext) (first : R * R) (rest : list (R * R)) :
  (0 <= path_extrusion c first rest)%R.
Proof.
  revert first. induction rest as [|q rest IH]; intros first; simpl; [lra|].
  pose proof (extrusion_length_nonneg c (rounded_distance first q) (sqrt_pos _)).
  specialize (IH q). lra.
Qed.

Lemma total_extrusion_nonneg (calls : list PathCall) : (0 <= total_extrusion calls)%R.
Proof.
  induction calls as [|k calls IH]; simpl; [lra|].
  unfold call_extrusion. destruct (call_pathPoints k) as [|first rest]; [lra|].
  pose proof (path_extrusion_nonneg (call_context k) first rest). lra.
Qed.

(** X6. The extrusion axis only ever advances: whatever the paths and the
    settings (the line width being twice the layer height), the cumulative
    extrusion value after any number of paths is at least what it was
    after fewer of them. *)
Theorem extrusion_never_decreases (five_axis : bool) (calls more_calls : list PathCall)
    (st : ExtruderState) :
  (E (transcribe_calls five_axis calls st)
   <= E (transcribe_calls five_axis (calls ++ more_calls) st))%R.
Proof.
  unfold transcribe_calls. rewrite fold_left_app.
  fold (transcribe_calls five_axis calls st).
  fold (transcribe_calls five_axis more_calls (transcribe_calls five_axis calls st)).
  rewrite (transcribe_calls_E five_axis more_calls).
  pose proof (total_extrusion_nonneg more_calls). lra.
Qed.

Lemma fold_next_plain c F rest st loc :
  runOnce loc = false →
  ∃ moves,
    written (fold_left (transcribe_next_point c F) rest (st, loc)).1 = written st ++ moves ∧
    forallb is_extruding_move moves = true ∧
    omap xy_target moves = rounded_point <$> rest ∧
    length moves = length rest ∧
    (previousE st = E st →
     previousE (fold_left (transcribe_next_point c F) rest (st, loc)).1 =
       E (fold_left (transcribe_next_point c F) rest (st, loc)).1).
Proof.
  revert st loc. induction rest as [|q rest IH]; intros st loc Hrun.
  - exists []. cbn. by rewrite app_nil_r.
  - cbn [fold_left].
    destruct (transcribe_next_point c F (st, loc) q) as [s1 l1] eqn:Hstep.
    unfold transcribe_next_point in Hstep. rewrite Hrun in Hstep.
    injection Hstep as <- <-.
    match goal with |- context [fold_left _ rest (?s, ?l)] =>
      destruct (IH s l eq_refl) as (moves & Hw & Hall & Hxy & Hlen & Hprev) end.
    eexists (_ :: moves). rewrite Hw. cbn [written].
    split; [by rewrite <- (assoc_L (++))|].
    split; [done|]. split; [cbn; by rewrite Hxy|]. split; [cbn; by rewrite Hlen|].
    intros _. by apply Hprev.
Qed.

(** X7. With retraction enabled, every path that lays filament starts
    with a retraction by the retraction distance and, after the travel to
    its first point, undoes it to exactly the value the extrusion axis had
    before (both rounded to five decimals), before the first extruding
    move; the globals [E] and [previousE] agree again when the path is
    finished. *)
Theorem retraction_is_undone (five_axis : bool) (c : WriterContext)
    (first : R * R) (rest : list (R * R)) (F : R) (run_once new_chunk : bool)
    (st : ExtruderState) :
  enableRetraction c = true →
  previousE st = E st →
  run_once = false ∨ rest ≠ [] →
  let st' := transcribe five_axis c (first :: rest) F run_once new_chunk st in
  ∃ travel moves,
    written st' =
      written st
      ++ [G1_E (E_FEEDRATE c) (round_R (E st - retractionDistance c) 5) "Retraction"]
      ++ travel
      ++ [G1_E (E_FEEDRATE c) (round_R (E st) 5) "Reversed Retraction"]
      ++ moves ∧
    forallb is_travel travel = true ∧
    forallb is_extruding_move moves = true ∧
    length moves = length rest ∧
    previousE st' = E st'.
Proof.
  intros Hretract Hprev Hcase st'. subst st'. unfold transcribe.
  set (travel :=
         when (enableZHop c)
           [G0_Z (G0Z_FEEDRATE c) (round_R (nozzleHeight c + layerHeight c) 5)]
         ++ when (five_axis && new_chunk)
              [G0_Z (G0Z_FEEDRATE c) (round_R (nozzleHeight c + 30 + layerHeight c) 5)]
         ++ [G0_XY (G0XY_FEEDRATE c) (round_R first.1 5) (round_R first.2 5)]
         ++ when (enableZHop c) [G0_Z (G0Z_FEEDRATE c) (round_R (nozzleHeight c) 5)]).
  assert (forallb is_travel travel = true) as Htravel
    by (subst travel; by destruct (enableZHop c), (five_axis && new_chunk)).
  set (a1 := transcribe_first_point five_axis c run_once new_chunk first st).
  destruct run_once.
  - destruct Hcase as [|Hrest]; [done|]. destruct rest as [|q rest]; [done|].
    cbn [fold_left]. set (a2 := transcribe_next_point c F a1 q).
    destruct (fold_next_plain c F rest a2.1 a2.2 eq_refl)
      as (moves & Hw & Hall & _ & Hlen & Hp).
    rewrite <- surjective_pairing in Hw, Hp. rewrite Hw.
    exists travel. eexists (_ :: moves).
    split; [|split; [done|split; [|split; [cbn; by rewrite Hlen|by apply Hp]]]].
    + subst a2 a1 travel. unfold transcribe_next_point, transcribe_first_point.
      cbn [write written fst snd runOnce previousE E].
      rewrite Hretract, Hprev. cbn [when].
      rewrite <- !(assoc_L (++)). reflexivity.
    + done.
  - destruct (fold_next_plain c F rest a1.1 a1.2 eq_refl)
      as (moves & Hw & Hall & _ & Hlen & Hp).
    rewrite <- surjective_pairing in Hw, Hp. rewrite Hw.
    exists travel, moves.
    split; [|split; [done|split; [done|split; [done|by apply Hp]]]].
    subst a1 travel. unfold transcribe_first_point.
    cbn [write written fst snd runOnce previousE E].
    rewrite Hretract. cbn [when].
    rewrite <- !(assoc_L (++)). reflexivity.
Qed.

Lemma fold_next_traced c F rest st loc :
  ∃ cmds,
    written (fold_left (transcribe_next_point c F) rest (st, loc)).1 = written st ++ cmds ∧
    omap xy_target cmds = rounded_point <$> rest ∧
    omap extruding_target cmds = rounded_point <$> rest.
Proof.
  revert st loc. induction rest as [|q rest IH]; intros st loc.
  - exists []. cbn. by rewrite app_nil_r.
  - cbn [fold_left]. set (a := transcribe_next_point c F (st, loc) q).
    destruct (IH a.1 a.2) as (cmds & Hw & Hxy & Hex).
    rewrite <- surjective_pairing in Hw. rewrite Hw.
    subst a. unfold transcribe_next_point. cbn [written fst].
    eexists. split; [by rewrite <- (assoc_L (++))|].
    rewrite !omap_app, Hxy, Hex.
    by destruct (runOnce loc), (enableZHop c), (enableRetraction c).
Qed.

(** X8. The moves written for a path trace it: the positions the nozzle
    is sent to are the points of the path, each rounded to five decimals,
    in order; it travels to the first and lays filament to each of the
    others, whatever the settings. *)
Theorem path_is_traced (five_axis : bool) (c : WriterContext) (pathPoints : list (R * R))
    (F : R) (run_once new_chunk : bool) (st : ExtruderState) :
  ∃ cmds,
    written (transcribe five_axis c pathPoints F run_once new_chunk st) = written st ++ cmds ∧
    omap xy_target cmds = rounded_point <$> pathPoints ∧
    omap extruding_target cmds = rounded_point <$> tail pathPoints.
Proof.
  destruct pathPoints as [|first rest].
  - exists []. cbn. by rewrite app_nil_r.
  - unfold transcribe.
    set (a := transcribe_first_point five_axis c run_once new_chunk first st).
    destruct (fold_next_traced c F rest a.1 a.2) as (cmds & Hw & Hxy & Hex).
    rewrite <- surjective_pairing in Hw. rewrite Hw.
    subst a. unfold transcribe_first_point. cbn [tail].
    destruct run_once; cbn [write written fst].
    + eexists. split; [by rewrite <- !(assoc_L (++))|].
      rewrite !omap_app, Hxy, Hex.
      by destruct (enableZHop c), (enableRetraction c), (five_axis && new_chunk).
    + eexists. split; [by rewrite <- !(assoc_L (++))|].
      rewrite !omap_app, Hxy, Hex.
      by destruct (enableZHop c), (enableRetraction c), (five_axis && new_chunk).
Qed.

Lemma retraction_is_undone_example :
  let c := {| enableRetraction := true; enableZHop := false; retractionDistance := 5;
              layerHeight := 0.2; nozzleHeight := 0.2; E_FEEDRATE := 2400;
              G0XY_FEEDRATE := 6000; G0Z_FEEDRATE := 1200 |}%R in
  let st := {| E := 3; previousE := 3; written := [] |}%R in
  ∃ travel moves,
    written (transcribe false c [(0, 0); (10, 0)]%R 1800 true false st) =
      written st
      ++ [G1_E (E_FEEDRATE c) (round_R (E st - retractionDistance c) 5) "Retraction"]
      ++ travel
      ++ [G1_E (E_FEEDRATE c) (round_R (E st) 5) "Reversed Retraction"]
      ++ moves ∧
    forallb is_travel travel = true ∧
    forallb is_extruding_move moves = true ∧
    length moves = length [(10, 0)%R] ∧
    previousE (transcribe false c [(0, 0); (10, 0)]%R 1800 true false st) =
      E (transcribe false c [(0, 0); (10, 0)]%R 1800 true false st).
Proof.
  intros c st.
  apply (retraction_is_undone false c (0, 0)%R [(10, 0)%R] 1800 true false st).
  - reflexivity.
  - reflexivity.
  - right. discriminate.
Defined.

(** ** Collision checks: what they flag *)

Lemma check_point_stop (sin_theta : float64) (st : CollisionState) (z : Q) :
  stopSlicing (check_point sin_theta st z) = stopSlicing st || collides sin_theta z.
Proof.
  unfold check_point, collides. destruct (stopSlicing st) eqn:Hstop; cbn [negb orb].
  - done.
  - destruct (Qle_bool z minAcceptableBedToNozzleClearance); cbn [stopSlicing andb].
    + by destruct (float_lt _ _).
    + done.
Qed.

Lemma check_points_stop (sin_theta : float64) (zs : list Q) (st : CollisionState) :
  stopSlicing (fold_left (check_point sin_theta) zs st) =
    stopSlicing st || existsb (collides sin_theta) zs.
Proof.
  revert st. induction zs as [|z zs IH]; intros st; cbn [fold_left existsb].
  - by rewrite orb_false_r.
  - by rewrite IH, check_point_stop, orb_assoc.
Qed.

Lemma check_sections_stop (sin_theta : float64) (sections : list (list Q))
    (st : CollisionState) :
  stopSlicing
    (fold_left (fun st section => fold_left (check_point sin_theta) section st) sections st) =
    stopSlicing st || existsb (collides sin_theta) (concat sections).
Proof.
  revert st. induction sections as [|zs sections IH]; intros st; cbn [fold_left concat].
  - by rewrite orb_false_r.
  - by rewrite IH, check_points_stop, existsb_app, orb_assoc.
Qed.

Lemma for_each_sections_missing (meshSections : list (option (list Q))) (acc : list (list Q)) :
  None ∈ meshSections →
  for_each (fun acc path2D =>
              match path2D with
              | Some zs => Ok (acc ++ [zs])
              | None => Raise AttributeError
              end) meshSections acc = Raise AttributeError.
Proof.
  revert acc. induction meshSections as [|s rest IH]; intros acc Hin.
  - by apply elem_of_nil in Hin.
  - cbn [for_each]. destruct s as [zs|]; [|done]. outcome_simpl.
    apply IH. by apply elem_of_cons in Hin as [|].
Qed.

(** X9. What the slicing-time collision check returns.  When every slice
    plane gave a section, the flag [stopSlicing] comes out raised exactly
    when it was raised already or some vertex of some section collides;
    for a bed tilted so that 0 < sin(theta), a vertex collides exactly
    when its height z is at most 12 and |z| < 12 sin(theta).  A slice plane
    that missed the chunk ([None]) makes the check raise before it looks
    at any vertex. *)
Theorem collision_check_flags_colliding_vertices :
  (∀ sin_theta sections st,
      ∃ st', checkForBedNozzleCollisions sin_theta (Some <$> sections) st = Ok st' ∧
             stopSlicing st' = stopSlicing st || existsb (collides sin_theta) (concat sections)) ∧
  (∀ (s z : Q), (0 < s)%Q →
      collides (Finite s) z = true ↔ (z <= 12)%Q ∧ (Qabs z < 12 * s)%Q) ∧
  (∀ sin_theta meshSections st,
      None ∈ meshSections →
      checkForBedNozzleCollisions sin_theta meshSections st = Raise AttributeError).
Proof.
  split; [|split].
  - intros sin_theta sections st. unfold checkForBedNozzleCollisions.
    change (Some <$> sections) with (map Some sections).
    rewrite (for_each_sections sections []). outcome_simpl. cbn [app].
    eexists. split; [reflexivity|]. apply check_sections_stop.
  - intros s z Hs. unfold collides, minAcceptableBedToNozzleClearance.
    rewrite andb_true_iff, Qle_bool_iff. unfold float_div, float_lt.
    assert (Qeq_bool s 0 = false) as ->.
    { destruct (Qeq_bool s 0) eqn:H0; [|done]. apply Qeq_bool_iff in H0.
      rewrite H0 in Hs. by apply Qlt_irrefl in Hs. }
    assert (¬ s == 0)%Q as Hne.
    { intros H0. rewrite H0 in Hs. by apply Qlt_irrefl in Hs. }
    destruct (Qlt_le_dec (Qabs z / s) 12) as [Hlt|Hge].
    + apply (Qmult_lt_r _ _ s) in Hlt; [|done].
      rewrite (Qmult_comm (Qabs z / s)), Qmult_div_r in Hlt by done.
      split; intros [Hz _]; split; done.
    + apply (Qmult_le_r _ _ s) in Hge; [|done].
      rewrite (Qmult_comm (Qabs z / s)), Qmult_div_r in Hge by done.
      split; [by intros [_ ?]|]. intros [_ Hlt]. exfalso.
      by apply Qle_not_lt in Hge.
  - intros sin_theta meshSections st Hin. unfold checkForBedNozzleCollisions.
    by rewrite for_each_sections_missing.
Qed.

Lemma float_gt_not_lt (x : float64) (bound : Q) :
  float_gt x bound = true → float_lt x bound = false.
Proof.
  destruct x as [q| | | |]; cbn; try done.
  - destruct (Qlt_le_dec bound q) as [Hgt|]; [|done]. intros _.
    destruct (Qlt_le_dec q bound) as [Hlt|]; [|done].
    exfalso. apply (Qlt_irrefl q). by etrans.
  - destruct (Qlt_le_dec bound 0) as [Hgt|]; [|done]. intros _.
    destruct (Qlt_le_dec 0 bound) as [Hlt|]; [|done].
    exfalso. apply (Qlt_irrefl 0). by etrans.
Qed.

(** X10. The two collision checks agree where both compute: a vertex that
    the check on the slice planes ([checkSlicePlaneValidity]) records as
    valid, for a tilt that does not round to zero, does not raise the flag
    of the slicing-time check at the same tilt. *)
Theorem valid_vertex_is_not_flagged (theta : Q) (sin_theta : float64) (z : Q)
    (validity_state : ValidityState) (collision_state : CollisionState) :
  Qeq_bool (py_round theta 2) 0 = false →
  last (validity (check_slice_plane_point theta sin_theta validity_state z)) = Some true →
  stopSlicing (check_point sin_theta collision_state z) = stopSlicing collision_state.
Proof.
  intros Htilt. unfold check_slice_plane_point. rewrite Htilt.
  rewrite check_point_stop. unfold collides.
  destruct (Qle_bool z minAcceptableBedToNozzleClearance); cbn [validity andb].
  - rewrite last_snoc. intros [= Hgt]. apply float_gt_not_lt in Hgt. rewrite Hgt.
    by rewrite orb_false_r.
  - intros _. by rewrite orb_false_r.
Qed.

Lemma valid_vertex_is_not_flagged_example :
  stopSlicing (check_point (Finite (1 # 2)) {| stopSlicing := false; divisions := [] |} 8) =
    false.
Proof.
  apply (valid_vertex_is_not_flagged (1 # 2) (Finite (1 # 2)) 8
           {| validity := []; validity_divisions := [] |}
           {| stopSlicing := false; divisions := [] |}).
  - reflexivity.
  - reflexivity.
Defined.

(** ** Slice levels in general *)

Lemma py_round_Qeq (x y : Q) (ndigits : nat) : (x == y)%Q → py_round x ndigits = py_round y ndigits.
Proof.
  intros Hxy. unfold py_round.
  set (scale := inject_Z (10 ^ Z.of_nat ndigits)).
  assert (x * scale == y * scale)%Q as Hs by (by rewrite Hxy).
  rewrite (Qfloor_comp _ _ Hs).
  assert (x * scale - inject_Z (Qfloor (y * scale)) == y * scale - inject_Z (Qfloor (y * scale)))%Q
    as Hf by (by rewrite Hs).
  by rewrite (Qcompare_comp _ _ Hf (1 # 2) (1 # 2) (Qeq_refl _)).
Qed.

Lemma Qceiling_pos (x : Q) : (0 < x)%Q → 0 < Qceiling x.
Proof.
  intros Hx. pose proof (Qle_ceiling x) as Hc.
  destruct (Z.lt_ge_cases 0 (Qceiling x)) as [|Hle]; [done|]. exfalso.
  assert (inject_Z (Qceiling x) <= 0)%Q as H0 by (rewrite (Zle_Qle _ 0) in Hle; done).
  apply (Qlt_irrefl 0). eapply Qlt_le_trans; [exact Hx|].
  eapply Qle_trans; [exact Hc|exact H0].
Qed.

Lemma Qceiling_nonpos (x : Q) : (x <= 0)%Q → Qceiling x ≤ 0.
Proof.
  intros Hx. pose proof (Qceiling_lt x) as Hc.
  destruct (Z.le_gt_cases (Qceiling x) 0) as [|Hgt]; [done|]. exfalso.
  assert (0 <= inject_Z (Qceiling x - 1))%Q as H0.
  { rewrite <- (Zle_Qle 0). lia. }
  apply (Qlt_irrefl 0). eapply Qle_lt_trans; [exact H0|].
  eapply Qlt_le_trans; [exact Hc|exact Hx].
Qed.

(** X11. The levels at which a mesh is cut.  With [lo] the bottom of the
    mesh, or 0 when the bottom is not above the bed: a mesh whose top is
    not above [lo] raises [IndexError] (there is no level to delete).  For
    bounds and a layer height that the doubles hold exactly, where numpy
    counts as the exact quotient does, and with [n] the least integer not
    below (top - lo) / layerHeight, a mesh whose top is above [lo] gives
    [n - 1] levels, level [i] being
    [lo + (i + 1) * layerHeight - layerHeight / 2] rounded to five
    decimals, and, before rounding, every level is more than half a layer
    height below the top of the mesh. *)
Theorem slice_levels_in_general (meshBottom meshTop layerHeight : Q) :
  (0 < layerHeight)%Q →
  let lo := if Qle_bool meshBottom 0 then 0%Q else meshBottom in
  let n := Qceiling ((meshTop - lo) / layerHeight) in
  ((meshTop <= lo)%Q →
   SliceLevels.slice_levels meshBottom meshTop layerHeight = Raise IndexError) ∧
  (exact_double meshBottom → exact_double meshTop → exact_double layerHeight →
   (lo < meshTop)%Q →
   ∃ levels,
     SliceLevels.slice_levels meshBottom meshTop layerHeight = Ok levels ∧
     Z.of_nat (length levels) = n - 1 ∧
     ∀ i : nat, (i < length levels)%nat →
       levels !! i =
         Some (py_round (lo + inject_Z (Z.of_nat i + 1) * layerHeight - layerHeight / 2) 5) ∧
       (lo + inject_Z (Z.of_nat i + 1) * layerHeight - layerHeight / 2
        < meshTop - layerHeight / 2)%Q).
Proof.
  intros Hh lo n.
  assert (SliceLevels.z_extents meshBottom meshTop = (lo, meshTop)) as Hext.
  { unfold SliceLevels.z_extents. subst lo. by destruct (Qle_bool meshBottom 0). }
  unfold SliceLevels.slice_levels, SliceLevels.nominal_slice_levels, SliceLevels.z_levels.
  rewrite Hext. unfold np_arange. fold n.
  assert (¬ layerHeight == 0)%Q as Hne.
  { intros H0. rewrite H0 in Hh. by apply Qlt_irrefl in Hh. }
  split.
  - intros Htop.
    assert (n ≤ 0) as Hn.
    { apply Qceiling_nonpos. apply (Qmult_le_r _ _ layerHeight); [done|].
      rewrite Qmult_0_l, (Qmult_comm _ layerHeight), Qmult_div_r by done.
      rewrite <- (Qplus_opp_r lo). by apply Qplus_le_l. }
    replace (seqZ 0 n) with (@nil Z); [done|].
    symmetry. apply length_zero_iff_nil. rewrite length_seqZ. lia.
  - intros _ _ _ Htop.
    assert (0 < n) as Hn.
    { apply Qceiling_pos. apply (Qmult_lt_r _ _ layerHeight); [done|].
      rewrite Qmult_0_l, (Qmult_comm _ layerHeight), Qmult_div_r by done.
      rewrite <- (Qplus_opp_r lo). by apply Qplus_lt_l. }
    replace n with (Z.succ (n - 1)) at 1 by lia.
    rewrite seqZ_cons by lia. cbn [map SliceLevels.del_first].
    replace (Z.pred (Z.succ (n - 1))) with (n - 1) by lia.
    eexists. split; [reflexivity|]. rewrite !length_map, length_seqZ.
    split; [lia|]. intros i Hi.
    assert (Z.of_nat i < n - 1) as Hi' by lia.
    split.
    + rewrite !list_lookup_fmap, lookup_seqZ_lt by lia. cbn.
      f_equal. apply py_round_Qeq. rewrite Qred_correct.
      by replace (Z.succ 0 + Z.of_nat i) with (Z.of_nat i + 1) by lia.
    + apply Qplus_lt_l.
      assert (inject_Z (Z.of_nat i + 1) < (meshTop - lo) / layerHeight)%Q as Hlt.
      { eapply Qle_lt_trans; [|apply Qceiling_lt]. fold n. rewrite <- Zle_Qle. lia. }
      apply (Qmult_lt_r _ _ layerHeight) in Hlt; [|done].
      rewrite (Qmult_comm ((meshTop - lo) / layerHeight)), Qmult_div_r in Hlt by done.
      apply (Qplus_lt_r _ _ lo) in Hlt.
      eapply Qlt_le_trans; [exact Hlt|]. ring_simplify. apply Qle_refl.
Qed.

Lemma slice_levels_in_general_example :
  let lo := if Qle_bool (-1) 0 then 0%Q else (-1)%Q in
  let n := Qceiling ((3 - lo) / (1 # 4)) in
  ((3 <= lo)%Q → SliceLevels.slice_levels (-1) 3 (1 # 4) = Raise IndexError) ∧
  (exact_double (-1) → exact_double 3 → exact_double (1 # 4) →
   (lo < 3)%Q →
   ∃ levels,
     SliceLevels.slice_levels (-1) 3 (1 # 4) = Ok levels ∧
     Z.of_nat (length levels) = n - 1 ∧
     ∀ i : nat, (i < length levels)%nat →
       levels !! i =
         Some (py_round (lo + inject_Z (Z.of_nat i + 1) * (1 # 4) - (1 # 4) / 2) 5) ∧
       (lo + inject_Z (Z.of_nat i + 1) * (1 # 4) - (1 # 4) / 2 < 3 - (1 # 4) / 2)%Q).
Proof.
  apply (slice_levels_in_general (-1) 3 (1 # 4)). reflexivity.
Defined.

(** ** Path ordering: the nearest-neighbour tour *)

Lemma nearest_end_first (prev : Point) (line : LineString) :
  two_point line →
  ∃ i near far,
    np_argmin (map (point_distance2 prev) line) = Ok i ∧
    py_getitem line (Z.of_nat i) = Ok near ∧
    py_getitem line (if decide (i = 0%nat) then 1 else 0) = Ok far ∧
    same_segment [near; far] line ∧
    (point_distance2 prev near ≤ point_distance2 prev far)%Qc.
Proof.
  intros Hlen. destruct line as [|a [|b [|? ?]]]; try discriminate Hlen.
  destruct (np_argmin_map_spec (point_distance2 prev) [a; b])
    as (i & near & Hi & Hnear & Hle & _); [done|].
  exists i. destruct i as [|[|i]]; [| |done].
  - injection Hnear as <-. exists a, b. repeat split; try done; [by left|].
    by apply (Hle 1%nat).
  - injection Hnear as <-. exists b, a. repeat split; try done; [by right|].
    by apply (Hle 0%nat).
Qed.

Lemma optimize_step_nearest (s : OptimizerState) n :
  length (infillLineStrings s) = S (S n) →
  (visitedLineIndex s < length (infillLineStrings s))%nat →
  Forall two_point (infillLineStrings s) →
  ∃ s' line near far,
    optimize_step s = Ok s' ∧
    infillLineStrings s' = delete (visitedLineIndex s) (infillLineStrings s) ∧
    infillLineStrings s' !! visitedLineIndex s' = Some line ∧
    (∀ other, other ∈ infillLineStrings s' →
       (line_distance2 (previousTailPoint s) line
        ≤ line_distance2 (previousTailPoint s) other)%Qc) ∧
    same_segment [near; far] line ∧
    (point_distance2 (previousTailPoint s) near
     ≤ point_distance2 (previousTailPoint s) far)%Qc ∧
    previousTailPoint s' = far ∧
    optimizedInfillPath s' = optimizedInfillPath s ++ [[[near; far]]].
Proof.
  intros Hlen Hv Htwo. unfold optimize_step, py_pop.
  rewrite decide_True by done. outcome_simpl.
  set (rest := delete (visitedLineIndex s) (infillLineStrings s)).
  assert (length rest = S n) as Hrest.
  { pose proof (length_delete (infillLineStrings s) (visitedLineIndex s)) as Hd.
    destruct (lookup_lt_is_Some_2 _ _ Hv) as [x Hx].
    specialize (Hd (ltac:(eauto))). subst rest. lia. }
  destruct (np_argmin_map_spec (line_distance2 (previousTailPoint s)) rest)
    as (i & line & -> & Hline & Hmin & _).
  { intros E. by rewrite E in Hrest. }
  outcome_simpl. rewrite (py_getitem_lookup _ _ _ Hline). outcome_simpl.
  assert (two_point line) as Hl2.
  { assert (Forall two_point rest) as Hall.
    { subst rest. rewrite delete_take_drop. apply Forall_app. split.
      - by apply Forall_take.
      - by apply Forall_drop. }
    eapply Forall_forall in Hall; [exact Hall|].
    eapply list_elem_of_lookup_2, Hline. }
  destruct (nearest_end_first (previousTailPoint s) line Hl2)
    as (j & near & far & Hj & Hnear & Hfar & Hsame & Hdist).
  rewrite Hj. outcome_simpl. rewrite Hnear. outcome_simpl.
  rewrite Hfar. outcome_simpl. eexists _, line, near, far. split; [reflexivity|].
  cbn. repeat split; try done.
  intros other Hother. apply list_elem_of_lookup in Hother as [k Hk]. by apply (Hmin k).
Qed.

Lemma iterate_optimize_tour n (s : OptimizerState) :
  length (infillLineStrings s) = S n →
  (visitedLineIndex s < length (infillLineStrings s))%nat →
  Forall two_point (infillLineStrings s) →
  ∃ s' out,
    iterate n optimize_step s = Ok s' ∧
    optimizedInfillPath s' = optimizedInfillPath s ++ ((λ o, [o]) <$> out) ∧
    nearest_neighbour_tour (previousTailPoint s)
      (delete (visitedLineIndex s) (infillLineStrings s)) out.
Proof.
  revert s. induction n as [|n IH]; intros s Hlen Hv Htwo.
  - exists s, []. split; [reflexivity|]. split; [by rewrite app_nil_r|].
    destruct (infillLineStrings s) as [|x [|? ?]]; try discriminate Hlen.
    simpl in Hv. assert (visitedLineIndex s = 0%nat) as -> by lia. constructor.
  - destruct (optimize_step_nearest s n Hlen Hv Htwo)
      as (s1 & line & near & far & Hstep & Hrem & Hline & Hmin & Hsame & Hdist & Htail & Hout).
    cbn [iterate]. rewrite Hstep. outcome_simpl.
    destruct (lookup_lt_is_Some_2 _ _ Hv) as [x Hx].
    assert (length (infillLineStrings s1) = S n) as Hlen1.
    { rewrite Hrem. pose proof (length_delete (infillLineStrings s) (visitedLineIndex s)) as Hd.
      specialize (Hd (ltac:(eauto))). lia. }
    destruct (IH s1) as (s' & out & Hs' & Hpath & Htour).
    + done.
    + eapply lookup_lt_Some, Hline.
    + rewrite Hrem, delete_take_drop. apply Forall_app. split.
      * by apply Forall_take.
      * by apply Forall_drop.
    + exists s', ([near; far] :: out). split; [done|]. split.
      * rewrite Hpath, Hout, <- (assoc_L (++)). done.
      * rewrite <- Hrem. econstructor; try done. by rewrite <- Htail.
Qed.

(** X12. The order of the infill segments is a nearest-neighbour tour.
    For two-point segments, started on one of them at one of its ends, the
    result is that segment from the start point followed, one segment per
    path element, by a tour of the others in which each next segment is
    one nearest to where the last one ended, entered by its nearer end. *)
Theorem optimize_infill_paths_is_nearest_neighbour_tour (firstLineIndex : nat)
    (firstLine : LineString) (firstLineStartPoint : Point) (lines : list LineString) :
  Forall two_point lines →
  lines !! firstLineIndex = Some firstLine →
  firstLineStartPoint ∈ firstLine →
  ∃ firstLineEndPoint out,
    optimize_infill_paths_for_one_layer firstLineIndex firstLine firstLineStartPoint lines =
      Ok ([[firstLineStartPoint; firstLineEndPoint]] :: ((λ o, [o]) <$> out)) ∧
    same_segment [firstLineStartPoint; firstLineEndPoint] firstLine ∧
    nearest_neighbour_tour firstLineEndPoint (delete firstLineIndex lines) out.
Proof.
  intros Htwo Hfirst Hstart.
  assert (two_point firstLine) as H2.
  { eapply Forall_forall in Htwo; [exact Htwo|]. eapply list_elem_of_lookup_2, Hfirst. }
  destruct (py_remove_two_point _ _ H2 Hstart) as (last & Hrem & Hsame).
  unfold optimize_infill_paths_for_one_layer. rewrite Hrem.
  outcome_simpl. change (py_getitem [last] 0) with (Ok last).
  outcome_simpl.
  pose proof (lookup_lt_Some _ _ _ Hfirst) as Hlt.
  destruct (iterate_optimize_tour (length lines - 1)
    {| infillLineStrings := lines; visitedLineIndex := firstLineIndex;
       previousTailPoint := last;
       optimizedInfillPath := [[[firstLineStartPoint; last]]] |})
    as (s' & out & Hs' & Hpath & Htour); cbn.
  - lia.
  - done.
  - done.
  - rewrite Hs'. outcome_simpl. exists last, out. by rewrite Hpath.
Qed.

Lemma optimize_infill_paths_is_nearest_neighbour_tour_example :
  ∃ firstLineEndPoint out,
    optimize_infill_paths_for_one_layer 0 [pt 0 0; pt 4 0] (pt 0 0)
      [[pt 0 0; pt 4 0]; [pt 9 9; pt 9 5]; [pt 8 0; pt 5 0]] =
      Ok ([[pt 0 0; firstLineEndPoint]] :: ((λ o, [o]) <$> out)) ∧
    same_segment [pt 0 0; firstLineEndPoint] [pt 0 0; pt 4 0] ∧
    nearest_neighbour_tour firstLineEndPoint
      (delete 0%nat [[pt 0 0; pt 4 0]; [pt 9 9; pt 9 5]; [pt 8 0; pt 5 0]]) out.
Proof.
  apply (optimize_infill_paths_is_nearest_neighbour_tour 0 [pt 0 0; pt 4 0] (pt 0 0)
           [[pt 0 0; pt 4 0]; [pt 9 9; pt 9 5]; [pt 8 0; pt 5 0]]).
  - repeat constructor.
  - reflexivity.
  - apply elem_of_cons. by left.
Defined.

(** ** The area classifier, whatever the geometry library *)

Lemma dict_append_keys {Geom : Type} (areas areas' : gmap Z (list Geom)) (key : Z) (g : Geom) :
  dict_append areas key g = Ok areas' →
  ∀ k, is_Some (areas' !! k) ↔ is_Some (areas !! k).
Proof.
  unfold dict_append, dict_get. destruct (areas !! key) as [l|] eqn:Hkey; [|done].
  outcome_simpl. intros [= <-] k. destruct (decide (key = k)) as [<-|Hne].
  - rewrite lookup_insert_eq, Hkey. split; eauto.
  - by rewrite lookup_insert_ne.
Qed.

(** A layer of the internal pass leaves the dict as it is or appends one
    area to the list of that layer. *)
Lemma internal_layer_appends {Geom : Type} `{!Shapely Geom}
    (innerMostPolygonsList : list (list Geom))
    (manifoldAreas internalAreas internalAreas' : gmap Z (list Geom)) (layer : Z)
    (log log' : list LogEntry) :
  internal_layer innerMostPolygonsList manifoldAreas internalAreas layer log =
    (Ok internalAreas', log') →
  internalAreas' = internalAreas ∨
  ∃ g, dict_append internalAreas layer g = Ok internalAreas'.
Proof.
  unfold internal_layer, try_except_IO at 1.
  match goal with |- context [match ?m log with _ => _ end] =>
    destruct (m log) as [[a|e] log1] eqn:Hbody end.
  2:{ cbn. intros [= <- _]. by left. }
  intros [= <- <-]. revert Hbody.
  unfold mbind at 1, IO_bind at 1, pure at 1.
  destruct (py_getitem innerMostPolygonsList layer) as [polygons|]; [|done].
  unfold mbind at 1, IO_bind at 1.
  destruct (safe_unary_union polygons default_buffer_value log) as [[u|] log2]; [|done].
  unfold mbind at 1, IO_bind at 1, pure at 1.
  destruct (fix_polygon_or_multipolygon_ring_orientation u) as [oriented|]; [|done].
  unfold mbind at 1, IO_bind at 1, pure at 1.
  destruct (lib (buffer oriented (1 # 100000))) as [currentLayerArea|]; [|done].
  unfold mbind at 1, IO_bind at 1, pure at 1.
  destruct (dict_get manifoldAreas layer) as [manifold|]; [|done].
  destruct (0 <? length manifold)%nat.
  - unfold mbind at 1, IO_bind at 1.
    destruct (safe_unary_union manifold default_buffer_value log2) as [[combined|] log3];
      [|done].
    unfold mbind at 1, IO_bind at 1, pure at 1.
    destruct (lib (equals_exact currentLayerArea combined (1 # 1000))) as [same|]; [|done].
    destruct same.
    + intros [= <- _]. by left.
    + unfold try_except_IO, pure.
      destruct (lib (buffer currentLayerArea (1 # 100000))) as [grown|]; outcome_simpl.
      2:{ cbn. intros [= <- _]. by left. }
      destruct (lib (difference grown combined)) as [d|]; outcome_simpl.
      2:{ cbn. intros [= <- _]. by left. }
      destruct (negb (is_empty d) && is_valid d).
      * destruct (dict_append internalAreas layer d) as [i'|] eqn:Happ.
        -- intros [= <- _]. right. eauto.
        -- cbn. intros [= <- _]. by left.
      * intros [= <- _]. by left.
  - unfold pure. destruct (dict_append internalAreas layer currentLayerArea) as [i'|] eqn:Happ;
      [|done].
    intros [= <- _]. right. eauto.
Qed.

Lemma internal_layers_keys {Geom : Type} `{!Shapely Geom}
    (innerMostPolygonsList : list (list Geom))
    (manifoldAreas : gmap Z (list Geom)) (layers : list Z)
    (internalAreas internalAreas' : gmap Z (list Geom)) (log log' : list LogEntry) :
  for_each_IO (internal_layer innerMostPolygonsList manifoldAreas) layers internalAreas log =
    (Ok internalAreas', log') →
  ∀ k, is_Some (internalAreas' !! k) ↔ is_Some (internalAreas !! k).
Proof.
  revert internalAreas log. induction layers as [|layer layers IH]; intros internalAreas log.
  - cbn. by intros [= <- _].
  - cbn [for_each_IO]. unfold mbind, IO_bind.
    destruct (internal_layer innerMostPolygonsList manifoldAreas internalAreas layer log)
      as [[i1|] log1] eqn:Hlayer; [|done].
    intros Hrest k. rewrite (IH _ _ Hrest k).
    apply internal_layer_appends in Hlayer as [->|[g Hg]]; [done|].
    by apply (dict_append_keys _ _ _ _ Hg).
Qed.

(** X13. Whatever the geometry library computes and whatever the infill,
    the two dicts that the classifier returns have one entry for each
    layer, keys 0 to n - 1, and no other. *)
Theorem classifier_returns_one_entry_per_layer {Geom : Type} `{!Shapely Geom}
    (slice_levels : list Q) (innerMostPolygonsList : list (list Geom))
    (infillPercentage : Q) (shellThickness : Z) (log log' : list LogEntry)
    (manifoldAreas internalAreas : gmap Z (list Geom)) :
  length innerMostPolygonsList = length slice_levels →
  get_manifold_areas_for_one_chunk slice_levels innerMostPolygonsList
    infillPercentage shellThickness log = (Ok (manifoldAreas, internalAreas), log') →
  ∀ k, (is_Some (manifoldAreas !! k) ↔ 0 ≤ k < Z.of_nat (length slice_levels)) ∧
       (is_Some (internalAreas !! k) ↔ 0 ≤ k < Z.of_nat (length slice_levels)).
Proof.
  intros Hlen. unfold get_manifold_areas_for_one_chunk.
  set (n := Z.of_nat (length slice_levels)).
  assert (Z.of_nat (length innerMostPolygonsList) = n) as Hn by (subst n; lia).
  assert (∀ k, is_Some (@init_areas Geom n !! k) ↔ 0 ≤ k < n) as Hinit.
  { intros k. rewrite init_areas_lookup by (subst n; lia).
    destruct (decide (0 ≤ k < n)) as [Hk|Hk].
    - split; [done|]. intros _. eauto.
    - split; [by intros [? ?]|done]. }
  destruct (Qle_bool 1 infillPercentage).
  - pose proof (post_solid_layers innerMostPolygonsList shellThickness n Hn
                  (fun _ _ => True) (ltac:(done)) False (ltac:(done)) (ltac:(done)))
      as Hpost.
    unfold mbind at 1, IO_bind at 1, pure at 1.
    destruct (for_each _ _ _) as [m|e]; [|done].
    cbn in Hpost. destruct Hpost as [Hkeys _].
    intros [= <- <- _] k. split; [apply Hkeys|apply Hinit].
  - destruct (Qle_bool 0 infillPercentage).
    + pose proof (post_classify_layers innerMostPolygonsList shellThickness n Hn
                    (fun _ _ => True)
                    (ltac:(done)) (ltac:(done)) (ltac:(done)) (ltac:(done)) (ltac:(done))
                    False (ltac:(done)) (ltac:(done))) as Hpost.
      unfold mbind at 1, IO_bind at 1, pure at 1.
      destruct (for_each _ _ _) as [m|e]; [|done].
      cbn in Hpost. destruct Hpost as [Hkeys _].
      destruct (negb (Qeq_bool infillPercentage 0)).
      * unfold mbind at 1, IO_bind at 1.
        destruct (for_each_IO _ _ _ _) as [[i|] log1] eqn:Hint; [|done].
        intros [= <- <- _] k. split; [apply Hkeys|].
        rewrite (internal_layers_keys _ _ _ _ _ _ _ Hint k). apply Hinit.
      * intros [= <- <- _] k. split; [apply Hkeys|apply Hinit].
    + intros [= <- <- _] k. split; apply Hinit.
Qed.

Lemma classifier_returns_one_entry_per_layer_example :
  ∃ manifoldAreas internalAreas log',
    get_manifold_areas_for_one_chunk [1; 2]%Q
      [[Raster.rect 0 2 0 2]; [Raster.rect 0 1 0 1]] (1 # 2) 1 [] =
      (Ok (manifoldAreas, internalAreas), log') ∧
    ∀ k, (is_Some (manifoldAreas !! k) ↔ 0 ≤ k < Z.of_nat (length [1; 2]%Q)) ∧
         (is_Some (internalAreas !! k) ↔ 0 ≤ k < Z.of_nat (length [1; 2]%Q)).
Proof.
  destruct (get_manifold_areas_for_one_chunk [1; 2]%Q
              [[Raster.rect 0 2 0 2]; [Raster.rect 0 1 0 1]] (1 # 2) 1 [])
    as [[[manifoldAreas internalAreas]|e] log'] eqn:Hrun.
  - exists manifoldAreas, internalAreas, log'. split; [done|].
    by apply (classifier_returns_one_entry_per_layer [1; 2]%Q
                [[Raster.rect 0 2 0 2]; [Raster.rect 0 1 0 1]] (1 # 2) 1 [] log').
  - exfalso. revert Hrun. vm_compute. discriminate.
Defined.

(** X14. The internal pass is contained.  For an infill strictly between
    0 and 100%, whatever the geometry library does, the manifold areas and
    whether the classifier raises are what they are for an infill of 0,
    where there is no internal pass: an exception while the internal area
    of a layer is computed is printed, never raised, and the manifold
    areas are not touched. *)
Theorem internal_pass_is_contained {Geom : Type} `{!Shapely Geom}
    (slice_levels : list Q) (innerMostPolygonsList : list (list Geom))
    (infillPercentage : Q) (shellThickness : Z) (log : list LogEntry) :
  (0 < infillPercentage)%Q → (infillPercentage < 1)%Q →
  match get_manifold_areas_for_one_chunk slice_levels innerMostPolygonsList
          0 shellThickness log with
  | (Ok (manifoldAreas, _), _) =>
      ∃ internalAreas log',
        get_manifold_areas_for_one_chunk slice_levels innerMostPolygonsList
          infillPercentage shellThickness log = (Ok (manifoldAreas, internalAreas), log')
  | (Raise e, _) =>
      get_manifold_areas_for_one_chunk slice_levels innerMostPolygonsList
        infillPercentage shellThickness log = (Raise e, log)
  end.
Proof.
  intros Hpos Hlt. unfold get_manifold_areas_for_one_chunk.
  set (n := Z.of_nat (length slice_levels)).
  assert (Qle_bool 1 infillPercentage = false) as ->.
  { destruct (Qle_bool 1 infillPercentage) eqn:H1; [|done].
    apply Qle_bool_iff in H1. exfalso. eapply Qlt_not_le; eauto. }
  assert (Qle_bool 0 infillPercentage = true) as ->.
  { apply Qle_bool_iff. by apply Qlt_le_weak. }
  assert (Qeq_bool infillPercentage 0 = false) as ->.
  { destruct (Qeq_bool infillPercentage 0) eqn:H0; [|done].
    apply Qeq_bool_iff in H0. rewrite H0 in Hpos. by apply Qlt_irrefl in Hpos. }
  change (Qle_bool 1 0) with false. change (Qle_bool 0 0) with true.
  change (Qeq_bool 0 0) with true. cbn [negb].
  unfold mbind at 1 3, IO_bind at 1 3, pure at 1 2.
  destruct (for_each (classify_layer innerMostPolygonsList shellThickness n)
              (py_range 0 n) (init_areas n)) as [m|e].
  - cbn [mret IO_ret].
    destruct (internal_layers_return innerMostPolygonsList m (init_areas n) (py_range 0 n) log)
      as (i & log' & Hint).
    exists i, log'. unfold mbind, IO_bind. by rewrite Hint.
  - done.
Qed.

Lemma internal_pass_is_contained_example :
  match get_manifold_areas_for_one_chunk [1; 2]%Q
          [[Raster.rect 0 2 0 2]; [Raster.rect 0 1 0 1]] 0 1 [] with
  | (Ok (manifoldAreas, _), _) =>
      ∃ internalAreas log',
        get_manifold_areas_for_one_chunk [1; 2]%Q
          [[Raster.rect 0 2 0 2]; [Raster.rect 0 1 0 1]] (1 # 2) 1 [] =
          (Ok (manifoldAreas, internalAreas), log')
  | (Raise e, _) =>
      get_manifold_areas_for_one_chunk [1; 2]%Q
        [[Raster.rect 0 2 0 2]; [Raster.rect 0 1 0 1]] (1 # 2) 1 [] = (Raise e, [])
  end.
Proof.
  apply (internal_pass_is_contained [1; 2]%Q
           [[Raster.rect 0 2 0 2]; [Raster.rect 0 1 0 1]] (1 # 2) 1 []); reflexivity.
Defined.

(** X15. There are internal areas only for an infill strictly between 0
    and 100%.  For any other value, whatever the geometry library does,
    every internal list that is returned is empty and nothing is printed;
    for a negative infill nothing is classified at all: the function
    returns at once, both dicts holding an empty list for every layer. *)
Theorem no_internal_areas_outside_partial_infill {Geom : Type} `{!Shapely Geom}
    (slice_levels : list Q) (innerMostPolygonsList : list (list Geom))
    (shellThickness : Z) (log : list LogEntry) :
  let n := Z.of_nat (length slice_levels) in
  (∀ infillPercentage manifoldAreas internalAreas log',
      (infillPercentage <= 0)%Q ∨ (1 <= infillPercentage)%Q →
      get_manifold_areas_for_one_chunk slice_levels innerMostPolygonsList
        infillPercentage shellThickness log = (Ok (manifoldAreas, internalAreas), log') →
      internalAreas = init_areas n ∧ log' = log ∧
      ∀ k, 0 ≤ k < n → internalAreas !! k = Some []) ∧
  (∀ infillPercentage,
      (infillPercentage < 0)%Q →
      get_manifold_areas_for_one_chunk slice_levels innerMostPolygonsList
        infillPercentage shellThickness log = (Ok (init_areas n, init_areas n), log)).
Proof.
  intros n. split.
  - intros infill m i log' Hout. unfold get_manifold_areas_for_one_chunk. fold n.
    assert (∀ k, 0 ≤ k < n → @init_areas Geom n !! k = Some []) as Hinit.
    { intros k Hk. rewrite init_areas_lookup by lia. by rewrite decide_True. }
    destruct (Qle_bool 1 infill) eqn:Hfull.
    + unfold mbind at 1, IO_bind at 1, pure at 1.
      destruct (for_each _ _ _) as [m'|e]; [|done]. by intros [= _ <- <-].
    + destruct Hout as [Hneg|Hfull']; [|by apply Qle_bool_iff in Hfull'; congruence].
      destruct (Qle_bool 0 infill) eqn:Hzero; [|by intros [= _ <- <-]].
      apply Qle_bool_iff in Hzero.
      assert (Qeq_bool infill 0 = true) as ->.
      { apply Qeq_bool_iff. by apply Qle_antisym. }
      unfold mbind at 1, IO_bind at 1, pure at 1.
      destruct (for_each _ _ _) as [m'|e]; [|done]. by intros [= _ <- <-].
  - intros infill Hneg. unfold get_manifold_areas_for_one_chunk. fold n.
    assert (Qle_bool 1 infill = false) as ->.
    { destruct (Qle_bool 1 infill) eqn:H1; [|done]. apply Qle_bool_iff in H1.
      exfalso. apply (Qlt_irrefl infill). eapply Qlt_le_trans; [exact Hneg|].
      eapply Qle_trans; [|exact H1]. discriminate. }
    assert (Qle_bool 0 infill = false) as ->.
    { destruct (Qle_bool 0 infill) eqn:H0; [|done]. apply Qle_bool_iff in H0.
      exfalso. by apply Qle_not_lt in H0. }
    done.
Qed.

(** ** Chunk decomposition: what is returned *)

Lemma unprocessed_chunks_return (slice_plane : Mesh → Vector3 → Vector3 → Mesh)
    (mesh : Mesh) (startingPositions : list Vector3) (directions : list (R * R))
    (ks : list Z) (acc : list (option Mesh)) :
  (∀ k, k ∈ ks → 0 ≤ k < Z.of_nat (length startingPositions) ∧
                 0 ≤ k < Z.of_nat (length directions)) →
  ∃ chunkList,
    for_each
      (fun chunkList k =>
         currentStart ← py_getitem startingPositions k;
         direction ← py_getitem directions k;
         let currentNormal := spherical_to_normal direction.1 direction.2 in
         Ok (chunkList ++ [Some (slice_plane mesh currentStart currentNormal)]))
      ks acc = Ok chunkList.
Proof.
  revert acc. induction ks as [|k ks IH]; intros acc Hin; cbn [for_each].
  - eauto.
  - destruct (Hin k) as [Hs Hd]; [by left|].
    destruct (py_getitem_in_range startingPositions k Hs) as (s & -> & _).
    destruct (py_getitem_in_range directions k Hd) as (d & -> & _).
    outcome_simpl. apply IH. intros k' Hk'. apply Hin. by right.
Qed.

Lemma chisel_length (numSlicingDirections : Z) (chunkList chunkList' : list (option Mesh))
    (k : Z) :
  chisel numSlicingDirections chunkList k = Ok chunkList' →
  length chunkList' = length chunkList.
Proof.
  unfold chisel. destruct (py_getitem chunkList k) as [c|]; [|done]. outcome_simpl.
  destruct (for_each _ _ _) as [[remaining|]|]; try done. outcome_simpl.
  intros [= <-]. by rewrite length_insert.
Qed.

Lemma chisel_all_length (numSlicingDirections : Z) (ks : list Z)
    (chunkList chunkList' : list (option Mesh)) :
  for_each (chisel numSlicingDirections) ks chunkList = Ok chunkList' →
  length chunkList' = length chunkList.
Proof.
  revert chunkList. induction ks as [|k ks IH]; intros chunkList; cbn [for_each].
  - by intros [= <-].
  - destruct (chisel numSlicingDirections chunkList k) as [c1|] eqn:Hstep; [|done].
    outcome_simpl. intros Hrest. rewrite (IH _ Hrest). by apply chisel_length in Hstep.
Qed.

(** X16. With a starting position and a direction for each slicing
    direction, [create_chunkList] returns, one entry per direction; the
    chunks it retains are nonempty and no two of them overlap.  A chunk
    that comes out empty, recorded as [None] while the loop is still
    running, does not break the chiselling of the chunks after it. *)
Theorem create_chunkList_returns_disjoint_chunks
    (slice_plane : Mesh → Vector3 → Vector3 → Mesh) (mesh : Mesh)
    (numSlicingDirections : Z) (startingPositions : list Vector3)
    (directions : list (R * R)) :
  numSlicingDirections ≤ Z.of_nat (length startingPositions) →
  numSlicingDirections ≤ Z.of_nat (length directions) →
  ∃ chunkList,
    create_chunkList slice_plane mesh numSlicingDirections startingPositions directions =
      Ok chunkList ∧
    length chunkList = Z.to_nat numSlicingDirections ∧
    (∀ j a, chunkList !! j = Some (Some a) → a ≠ ∅) ∧
    (∀ j k a b, j ≠ k →
       chunkList !! j = Some (Some a) → chunkList !! k = Some (Some b) → a ∩ b = ∅).
Proof.
  intros Hs Hd.
  assert (∃ raw_list,
            unprocessed_chunks slice_plane mesh numSlicingDirections startingPositions
              directions = Ok raw_list) as (raw_list & Hraws).
  { apply unprocessed_chunks_return.
    intros k Hk. unfold py_range in Hk. apply elem_of_seqZ in Hk. lia. }
  pose proof Hraws as Hraws'.
  apply (unprocessed_chunks_all_there _ _ _ _ _ []) in Hraws' as (raws & -> & Hlen).
  unfold py_range in Hlen. rewrite Z.sub_0_r, length_seqZ in Hlen. simpl in Hlen.
  assert (∃ chunkList,
            for_each (chisel numSlicingDirections) (py_range 0 numSlicingDirections)
              (Some <$> raws) = Ok chunkList) as (chunkList & Hfinal).
  { unfold py_range. rewrite Z.sub_0_r.
    destruct (Z.le_gt_cases numSlicingDirections 0) as [Hneg|Hpos].
    - replace (seqZ 0 numSlicingDirections) with (@nil Z).
      2:{ symmetry. apply length_zero_iff_nil. rewrite length_seqZ. lia. }
      cbn. eauto.
    - destruct (chisel_all slice_plane numSlicingDirections raws (length raws) 0
                  (Some <$> raws)) as (final & Hf & _).
      + lia.
      + lia.
      + lia.
      + by rewrite length_fmap.
      + intros j e Hj. simpl in Hj. lia.
      + intros j raw _ Hr. by rewrite list_lookup_fmap, Hr.
      + replace (Z.of_nat (length raws)) with numSlicingDirections in Hf by lia. eauto. }
  assert (create_chunkList slice_plane mesh numSlicingDirections startingPositions directions
          = Ok chunkList) as Hrun.
  { unfold create_chunkList. rewrite Hraws. by outcome_simpl. }
  exists chunkList. split; [done|].
  destruct (create_chunkList_disjoint _ _ _ _ _ _ Hrun) as [Hne Hdisj].
  split; [|split; [done|]].
  - apply chisel_all_length in Hfinal. rewrite Hfinal, length_fmap. lia.
  - intros j k a b Hjk Ha Hb. destruct (Nat.lt_total j k) as [Hlt|[->|Hgt]]; [|done|].
    + by apply (Hdisj j k).
    + rewrite (comm_L (∩)). by apply (Hdisj k j).
Qed.

Lemma create_chunkList_returns_disjoint_chunks_example :
  ∃ chunkList,
    create_chunkList (λ mesh _ _, mesh) {[ (0, 0, 0) ]} 2
      [(0, 0, 0)%R; (0, 0, 1)%R] [(0, 0)%R; (30, 0)%R] = Ok chunkList ∧
    length chunkList = Z.to_nat 2 ∧
    (∀ j a, chunkList !! j = Some (Some a) → a ≠ ∅) ∧
    (∀ j k a b, j ≠ k →
       chunkList !! j = Some (Some a) → chunkList !! k = Some (Some b) → a ∩ b = ∅).
Proof.
  apply (create_chunkList_returns_disjoint_chunks (λ mesh _ _, mesh) {[ (0, 0, 0) ]} 2
           [(0, 0, 0)%R; (0, 0, 1)%R] [(0, 0)%R; (30, 0)%R]).
  - simpl. lia.
  - simpl. lia.
Defined.

(** ** The two rotary axes *)

Lemma arctan2_cos_sin (y x : R) :
  (Rabs (cos (arctan2 y x)) * Rabs y = Rabs (sin (arctan2 y x)) * Rabs x)%R.
Proof.
  assert (∀ t, 0 < sqrt (1 + t²))%R as Hpos.
  { intros t. apply sqrt_lt_R0. pose proof (Rle_0_sqr t). lra. }
  assert (∀ t, x ≠ 0%R → t = (y / x)%R →
            (Rabs (1 / sqrt (1 + t²)) * Rabs y = Rabs (t / sqrt (1 + t²)) * Rabs x)%R) as Hmain.
  { intros t Hx ->. specialize (Hpos (y / x)%R).
    unfold Rdiv at 1 3. rewrite !Rabs_mult, Rabs_R1, Rmult_1_l.
    unfold Rdiv. rewrite Rabs_mult, (Rabs_inv x).
    field. by apply Rabs_no_R0. }
  unfold arctan2. destruct (Rlt_dec 0 x) as [Hx|Hx].
  - rewrite cos_atan, sin_atan. apply Hmain; [lra|done].
  - destruct (Rlt_dec x 0) as [Hx'|Hx'].
    + destruct (Rle_dec 0 y).
      * rewrite neg_cos, neg_sin, !Rabs_Ropp, cos_atan, sin_atan. apply Hmain; [lra|done].
      * unfold Rminus. rewrite <- (cos_neg (atan (y / x) + - PI)).
        rewrite <- (Rabs_Ropp (sin _)), <- sin_neg.
        replace (- (atan (y / x) + - PI))%R with (- atan (y / x) + PI)%R by ring.
        rewrite neg_cos, neg_sin, !Rabs_Ropp, cos_neg, sin_neg, Rabs_Ropp.
        rewrite cos_atan, sin_atan. apply Hmain; [lra|done].
    + assert (x = 0%R) as -> by lra. rewrite Rabs_R0, Rmult_0_r.
      destruct (Rlt_dec 0 y).
      * rewrite cos_PI2, Rabs_R0. ring.
      * destruct (Rlt_dec y 0).
        -- rewrite cos_neg, cos_PI2, Rabs_R0. ring.
        -- assert (y = 0%R) as -> by lra. rewrite Rabs_R0. ring.
Qed.

Lemma scaled_speeds_norm (theta : R) :
  (Rabs (AB_FEEDRATE * cos theta) ^ 2 + Rabs (AB_FEEDRATE * sin theta) ^ 2
   = AB_FEEDRATE ^ 2)%R.
Proof.
  rewrite !RPow_abs, !Rabs_pos_eq by (apply pow2_ge_0).
  pose proof (sin2_cos2 theta) as H. unfold Rsqr in H.
  replace ((AB_FEEDRATE * cos theta) ^ 2 + (AB_FEEDRATE * sin theta) ^ 2)%R
    with (AB_FEEDRATE ^ 2 * (sin theta * sin theta + cos theta * cos theta))%R by ring.
  rewrite H. ring.
Qed.

Lemma scale_speeds_step (AMOVE BMOVE ASPEED BSPEED : list R) (k : nat) (a a' b b' : R) :
  (1 ≤ k)%nat →
  AMOVE !! k = Some a → AMOVE !! (k - 1)%nat = Some a' →
  BMOVE !! k = Some b → BMOVE !! (k - 1)%nat = Some b' →
  scale_speeds AMOVE BMOVE (ASPEED, BSPEED) (Z.of_nat k) =
    Ok (ASPEED ++ [Rabs (AB_FEEDRATE * cos (arctan2 (b - b') (a - a')))],
        BSPEED ++ [Rabs (AB_FEEDRATE * sin (arctan2 (b - b') (a - a')))]).
Proof.
  intros Hk Ha Ha' Hb Hb'. unfold scale_speeds.
  destruct (Z.ltb_spec 0 (Z.of_nat k)) as [_|?]; [|lia].
  rewrite (py_getitem_lookup _ _ _ Ha). outcome_simpl.
  replace (Z.of_nat k - 1) with (Z.of_nat (k - 1)) by lia.
  rewrite (py_getitem_lookup _ _ _ Ha'). outcome_simpl.
  rewrite (py_getitem_lookup _ _ _ Hb). outcome_simpl.
  rewrite (py_getitem_lookup _ _ _ Hb'). outcome_simpl.
  done.
Qed.

(** The speeds computed so far: one pair for each of the first [m] moves,
    each pair after the first scaled by the move it is for. *)
Lemma scale_speeds_loop (AMOVE BMOVE : list R) (m : nat) (k : nat)
    (ASPEED BSPEED : list R) :
  length BMOVE = length AMOVE →
  (1 ≤ k)%nat → (k + m = length AMOVE)%nat →
  length ASPEED = k → length BSPEED = k →
  (∀ d a a' b b' sa sb, (S d < k)%nat →
     AMOVE !! d = Some a' → AMOVE !! S d = Some a →
     BMOVE !! d = Some b' → BMOVE !! S d = Some b →
     ASPEED !! S d = Some sa → BSPEED !! S d = Some sb →
     sa = Rabs (AB_FEEDRATE * cos (arctan2 (b - b') (a - a'))) ∧
     sb = Rabs (AB_FEEDRATE * sin (arctan2 (b - b') (a - a')))) →
  ∃ ASPEED' BSPEED',
    for_each (scale_speeds AMOVE BMOVE) (seqZ (Z.of_nat k) (Z.of_nat m)) (ASPEED, BSPEED) =
      Ok (ASPEED', BSPEED') ∧
    length ASPEED' = length AMOVE ∧ length BSPEED' = length AMOVE ∧
    ASPEED' !! 0%nat = ASPEED !! 0%nat ∧ BSPEED' !! 0%nat = BSPEED !! 0%nat ∧
    (∀ d a a' b b' sa sb,
       AMOVE !! d = Some a' → AMOVE !! S d = Some a →
       BMOVE !! d = Some b' → BMOVE !! S d = Some b →
       ASPEED' !! S d = Some sa → BSPEED' !! S d = Some sb →
       sa = Rabs (AB_FEEDRATE * cos (arctan2 (b - b') (a - a'))) ∧
       sb = Rabs (AB_FEEDRATE * sin (arctan2 (b - b') (a - a')))).
Proof.
  intros HB. revert k ASPEED BSPEED.
  induction m as [|m IH]; intros k ASPEED BSPEED Hk Hsum HlA HlB Hinv.
  - exists ASPEED, BSPEED. split; [done|]. split; [lia|]. split; [lia|].
    split; [done|]. split; [done|].
    intros d a a' b b' sa sb Ha' Ha Hb' Hb Hsa Hsb.
    apply (Hinv d a a' b b' sa sb); try done.
    pose proof (lookup_lt_Some _ _ _ Hsa). lia.
  - rewrite Nat2Z.inj_succ, seqZ_cons by lia. cbn [for_each].
    destruct (lookup_lt_is_Some_2 AMOVE k) as [a Ha]; [lia|].
    destruct (lookup_lt_is_Some_2 AMOVE (k - 1)) as [a' Ha']; [lia|].
    destruct (lookup_lt_is_Some_2 BMOVE k) as [b Hb]; [lia|].
    destruct (lookup_lt_is_Some_2 BMOVE (k - 1)) as [b' Hb']; [lia|].
    rewrite (scale_speeds_step _ _ _ _ k a a' b b') by done. outcome_simpl.
    rewrite Z.pred_succ.
    replace (Z.succ (Z.of_nat k)) with (Z.of_nat (S k)) by lia.
    destruct (IH (S k)
                (ASPEED ++ [Rabs (AB_FEEDRATE * cos (arctan2 (b - b') (a - a')))])
                (BSPEED ++ [Rabs (AB_FEEDRATE * sin (arctan2 (b - b') (a - a')))]))
      as (SA & SB & Hrun & HSA & HSB & H0A & H0B & Hall).
    + lia.
    + lia.
    + rewrite length_app. simpl. lia.
    + rewrite length_app. simpl. lia.
    + intros d a1 a1' b1 b1' sa sb Hd Ha1' Ha1 Hb1' Hb1 Hsa Hsb.
      destruct (decide (S d = k)) as [Heq|Hne].
      * replace (k - 1)%nat with d in Ha', Hb' by lia.
        rewrite <- Heq in Ha, Hb.
        rewrite Ha in Ha1. rewrite Ha' in Ha1'. rewrite Hb in Hb1. rewrite Hb' in Hb1'.
        injection Ha1 as <-. injection Ha1' as <-. injection Hb1 as <-. injection Hb1' as <-.
        rewrite lookup_app_r in Hsa, Hsb by lia.
        replace (S d - length ASPEED)%nat with 0%nat in Hsa by lia.
        replace (S d - length BSPEED)%nat with 0%nat in Hsb by lia.
        injection Hsa as <-. injection Hsb as <-. done.
      * rewrite lookup_app_l in Hsa, Hsb by lia.
        apply (Hinv d a1 a1' b1 b1' sa sb); try done. lia.
    + exists SA, SB. split; [done|]. split; [done|]. split; [done|].
      split; [by rewrite H0A, lookup_app_l by lia|].
      split; [by rewrite H0B, lookup_app_l by lia|]. done.
Qed.

(** X17. The moves of the two rotary axes.  For at least one slicing
    direction the writer has one angle and one speed per direction for
    each axis, and one more for the return to zero; the first chunk is
    printed at A = B = 0 and both axes go back to 0 at the end.  The
    speeds of every move after the first share the feedrate of 25 between
    the axes in proportion to the angles they turn by: their squares add
    up to 25^2, and the speed of A times the angle B turns by is the speed
    of B times the angle A turns by, so that both axes arrive together. *)
Theorem rotary_speeds_are_scaled (directions : list (R * R)) :
  directions ≠ [] →
  ∃ AMOVE BMOVE ASPEED BSPEED,
    rotary_moves directions = Ok (AMOVE, BMOVE, (ASPEED, BSPEED)) ∧
    length AMOVE = S (length directions) ∧ length BMOVE = S (length directions) ∧
    length ASPEED = S (length directions) ∧ length BSPEED = S (length directions) ∧
    AMOVE !! 0%nat = Some 0%R ∧ BMOVE !! 0%nat = Some 0%R ∧
    last AMOVE = Some 0%R ∧ last BMOVE = Some 0%R ∧
    (∀ k theta phi, (1 ≤ k)%nat → directions !! k = Some (theta, phi) →
       AMOVE !! k = Some (90 - phi)%R ∧ BMOVE !! k = Some theta) ∧
    (∀ d a a' b b' sa sb,
       AMOVE !! d = Some a' → AMOVE !! S d = Some a →
       BMOVE !! d = Some b' → BMOVE !! S d = Some b →
       ASPEED !! S d = Some sa → BSPEED !! S d = Some sb →
       (sa ^ 2 + sb ^ 2 = AB_FEEDRATE ^ 2)%R ∧
       (sa * Rabs (b - b') = sb * Rabs (a - a'))%R).
Proof.
  intros Hne. destruct directions as [|first rest]; [done|]. clear Hne.
  unfold rotary_moves, machine_directions. cbn [fmap list_fmap]. outcome_simpl.
  set (machine := (0%R, 0%R) :: ((λ d : R * R, (d.1, (90 - d.2)%R)) <$> rest)).
  set (AMOVE := AMOVE_Degrees machine). set (BMOVE := BMOVE_Degrees machine).
  assert (length AMOVE = S (S (length rest))) as HlA.
  { subst AMOVE machine. unfold AMOVE_Degrees.
    rewrite length_app, length_fmap. cbn. rewrite length_fmap. lia. }
  assert (length BMOVE = S (S (length rest))) as HlB.
  { subst BMOVE machine. unfold BMOVE_Degrees.
    rewrite length_app, length_fmap. cbn. rewrite length_fmap. lia. }
  unfold py_range. rewrite Z.sub_0_r, HlA.
  rewrite Nat2Z.inj_succ, seqZ_cons by lia. cbn [for_each].
  change (scale_speeds AMOVE BMOVE ([AB_FEEDRATE], [AB_FEEDRATE]) 0)
    with (Ok ([AB_FEEDRATE], [AB_FEEDRATE])).
  outcome_simpl. rewrite Z.pred_succ.
  destruct (scale_speeds_loop AMOVE BMOVE (S (length rest)) 1 [AB_FEEDRATE] [AB_FEEDRATE])
    as (SA & SB & Hrun & HSA & HSB & _ & _ & Hall).
  { by rewrite HlA, HlB. }
  { done. }
  { rewrite HlA. lia. }
  { done. }
  { done. }
  { intros d a a' b b' sa sb Hd. lia. }
  change (Z.succ 0) with (Z.of_nat 1). rewrite Hrun. outcome_simpl.
  exists AMOVE, BMOVE, SA, SB. split; [done|].
  cbn [length]. split; [done|]. split; [done|]. split; [lia|]. split; [lia|].
  split; [done|]. split; [done|].
  split; [subst AMOVE; unfold AMOVE_Degrees; by rewrite last_snoc|].
  split; [subst BMOVE; unfold BMOVE_Degrees; by rewrite last_snoc|].
  split.
  - intros k theta phi Hk Hdir. destruct k as [|k]; [lia|].
    change ((first :: rest) !! S k) with (rest !! k) in Hdir.
    pose proof (lookup_lt_Some _ _ _ Hdir) as Hlt.
    set (turned := (λ d : R * R, (d.1, (90 - d.2)%R)) <$> rest) in *.
    assert (turned !! k = Some (theta, (90 - phi)%R)) as Hturned
      by (subst turned; by rewrite list_lookup_fmap, Hdir).
    assert (length turned = length rest) as Hlt' by (subst turned; by rewrite length_fmap).
    subst AMOVE BMOVE machine. unfold AMOVE_Degrees, BMOVE_Degrees.
    rewrite !lookup_app_l by (rewrite length_fmap; cbn; lia).
    rewrite !fmap_cons. change ((?x :: ?l) !! S k) with (l !! k).
    by rewrite !list_lookup_fmap, Hturned.
  - intros d a a' b b' sa sb Ha' Ha Hb' Hb Hsa Hsb.
    destruct (Hall d a a' b b' sa sb Ha' Ha Hb' Hb Hsa Hsb) as [-> ->].
    split; [apply scaled_speeds_norm|].
    rewrite !Rabs_mult, !Rmult_assoc. f_equal. apply arctan2_cos_sin.
Qed.

Lemma rotary_speeds_are_scaled_example :
  ∃ AMOVE BMOVE ASPEED BSPEED,
    rotary_moves [(0, 0); (30, 45)]%R = Ok (AMOVE, BMOVE, (ASPEED, BSPEED)) ∧
    length AMOVE = S (length [(0, 0); (30, 45)]%R) ∧
    length BMOVE = S (length [(0, 0); (30, 45)]%R) ∧
    length ASPEED = S (length [(0, 0); (30, 45)]%R) ∧
    length BSPEED = S (length [(0, 0); (30, 45)]%R) ∧
    AMOVE !! 0%nat = Some 0%R ∧ BMOVE !! 0%nat = Some 0%R ∧
    last AMOVE = Some 0%R ∧ last BMOVE = Some 0%R ∧
    (∀ k theta phi, (1 ≤ k)%nat → [(0, 0); (30, 45)]%R !! k = Some (theta, phi) →
       AMOVE !! k = Some (90 - phi)%R ∧ BMOVE !! k = Some theta) ∧
    (∀ d a a' b b' sa sb,
       AMOVE !! d = Some a' → AMOVE !! S d = Some a →
       BMOVE !! d = Some b' → BMOVE !! S d = Some b →
       ASPEED !! S d = Some sa → BSPEED !! S d = Some sb →
       (sa ^ 2 + sb ^ 2 = AB_FEEDRATE ^ 2)%R ∧
       (sa * Rabs (b - b') = sb * Rabs (a - a'))%R).
Proof.
  apply (rotary_speeds_are_scaled [(0, 0); (30, 45)]%R). discriminate.
Defined.

(** X18. The rotation that takes a chunk to the orientation it is printed
    in keeps inner products, and so lengths and angles, whatever the
    angles of the two axes. *)
Theorem chunk_rotation_is_rigid (AMOVE BMOVE : list R) (key : Z) (DCM : Matrix3)
    (u v : Vector3) :
  DCM_AB AMOVE BMOVE key = Ok DCM →
  dot (matvec DCM u) (matvec DCM v) = dot u v.
Proof.
  unfold DCM_AB. destruct (py_getitem BMOVE key) as [b|]; [|done]. outcome_simpl.
  destruct (py_getitem AMOVE key) as [a|]; [|done]. outcome_simpl.
  destruct u as [[ux uy] uz], v as [[vx vy] vz].
  destruct (key =? 0); intros [= <-].
  - unfold matvec, eye3, dot. ring.
  - set (theta := (b * (PI / 180))%R). set (phi := (a * (PI / 180))%R).
    pose proof (sin2_cos2 theta) as Ht. pose proof (sin2_cos2 phi) as Hp.
    unfold Rsqr in Ht, Hp.
    unfold matmul, QA, QB, column, matvec, dot. cbn [fst snd].
    match goal with |- ?lhs = _ =>
      replace lhs with
        ((ux * vx + uy * vy) * (cos phi * cos phi + sin phi * sin phi
             * (sin theta * sin theta + cos theta * cos theta))
         + (ux * vx + uy * vy) * (sin phi * sin phi - sin phi * sin phi)
         + (ux * vx) * ((sin phi * sin phi) * (sin theta * sin theta + cos theta * cos theta)
                        - sin phi * sin phi)
         + (uy * vy) * ((cos phi * cos phi) * (sin theta * sin theta + cos theta * cos theta)
                        - cos phi * cos phi)
         + (ux * vy + uy * vx) * (sin phi * cos phi
                                  * (sin theta * sin theta + cos theta * cos theta)
                                  - sin phi * cos phi)
         + (ux * vx + uy * vy) * (sin phi * sin phi
                                  - sin phi * sin phi
                                    * (sin theta * sin theta + cos theta * cos theta))
         + uz * vz * (sin theta * sin theta + cos theta * cos theta))%R by ring
    end.
    rewrite Ht. replace (cos phi * cos phi + sin phi * sin phi * 1)%R
      with (sin phi * sin phi + cos phi * cos phi)%R by ring.
    rewrite Hp. ring.
Qed.

Lemma chunk_rotation_is_rigid_example :
  dot (matvec (matmul (QB (30 * (PI / 180))) (QA (45 * (PI / 180)))) (1, 2, 3)%R)
      (matvec (matmul (QB (30 * (PI / 180))) (QA (45 * (PI / 180)))) (4, 5, 6)%R) =
    dot (1, 2, 3)%R (4, 5, 6)%R.
Proof.
  apply (chunk_rotation_is_rigid [0; 45; 0]%R [0; 30; 0]%R 1). reflexivity.
Defined.

(** ** From the slicing plane to the printable orientation *)

Lemma transform_points_length (transform : option Matrix4) (path : list (R * R))
    (acc coords_3d : list Vector3) :
  for_each (λ (acc : list Vector3) point,
              p ← transform_point point transform; Ok (acc ++ [p])) path acc = Ok coords_3d →
  length coords_3d = (length acc + length path)%nat.
Proof.
  revert acc. induction path as [|point path IH]; intros acc; cbn [for_each].
  - intros [= <-]. simpl. lia.
  - destruct (transform_point point transform) as [p|]; [|done]. outcome_simpl.
    intros Hrest. rewrite (IH _ Hrest), length_app. simpl. lia.
Qed.

Lemma printable_path_length (transform : option Matrix4) (DCM : Matrix3)
    (path : list (R * R)) (printable : list Vector3) :
  printable_path transform DCM path = Ok printable → length printable = length path.
Proof.
  unfold printable_path.
  destruct (for_each _ path []) as [coords_3d|] eqn:Hc; [|done]. outcome_simpl.
  intros [= <-]. rewrite length_map. by apply transform_points_length in Hc.
Qed.

Lemma printable_paths_of_layer (transform : option Matrix4) (DCM : Matrix3)
    (paths : list (list (R * R))) (acc layerPaths : list (list (R * R)))
    (coords coords' : option (list Vector3)) :
  for_each
    (λ (acc : list (list (R * R)) * option (list Vector3)) path,
       printable ← printable_path transform DCM path;
       Ok (acc.1 ++ [map (λ point : Vector3, (point.1.1, point.1.2)) printable],
           Some printable))
    paths (acc, coords) = Ok (layerPaths, coords') →
  (∃ outs, layerPaths = acc ++ outs ∧
           Forall2 (λ (out path : list (R * R)), length out = length path) outs paths) ∧
  (paths = [] → coords' = coords).
Proof.
  revert acc coords. induction paths as [|path paths IH]; intros acc coords; cbn [for_each].
  - intros [= <- <-]. split; [|done]. exists []. by rewrite app_nil_r.
  - destruct (printable_path transform DCM path) as [printable|] eqn:Hp; [|done].
    outcome_simpl. cbn [fst]. intros Hrest.
    apply IH in Hrest as [(outs & -> & Hall) _]. split; [|done].
    eexists (_ :: outs). split; [by rewrite <- (assoc_L (++))|].
    constructor; [|done]. rewrite length_map. by apply printable_path_length in Hp.
Qed.

(** After [m] layers: one entry per layer in both lists, the paths of
    every layer with the lengths they had, the height of a layer without
    paths that of the layer before, and the last height that of the
    coordinates that are still bound. *)
Lemma printable_layers_spec (DCM : Matrix3)
    (layers : list (list (list (R * R)) * option Matrix4))
    (done_layers : list (list (list (R * R)) * option Matrix4))
    (s s' : PrintableState) :
  length (printable_pathPoints s) = length done_layers →
  length (midLayer_Z_Heights s) = length done_layers →
  (done_layers = [] → printable_coords_3d s = None) →
  (done_layers ≠ [] →
   ∃ first others, printable_coords_3d s = Some (first :: others) ∧
                   last (midLayer_Z_Heights s) = Some first.2) →
  (∀ k layer, done_layers !! k = Some layer → layer.1 = [] →
     ∃ k', k = S k' ∧ midLayer_Z_Heights s !! k = midLayer_Z_Heights s !! k') →
  Forall2 (λ out layer, Forall2 (λ (o p : list (R * R)), length o = length p) out layer.1)
    (printable_pathPoints s) done_layers →
  for_each (printable_layer DCM) layers s = Ok s' →
  length (printable_pathPoints s') = length (done_layers ++ layers) ∧
  length (midLayer_Z_Heights s') = length (done_layers ++ layers) ∧
  (∀ k layer, (done_layers ++ layers) !! k = Some layer → layer.1 = [] →
     ∃ k', k = S k' ∧ midLayer_Z_Heights s' !! k = midLayer_Z_Heights s' !! k') ∧
  Forall2 (λ out layer, Forall2 (λ (o p : list (R * R)), length o = length p) out layer.1)
    (printable_pathPoints s') (done_layers ++ layers).
Proof.
  revert done_layers s. induction layers as [|layer layers IH];
    intros done_layers s Hlp Hlh Hnone Hsome Hstale Hshape; cbn [for_each].
  - intros [= <-]. by rewrite app_nil_r.
  - destruct (printable_layer DCM s layer) as [s1|] eqn:Hlayer; [|done].
    outcome_simpl. intros Hrest.
    replace (done_layers ++ layer :: layers) with ((done_layers ++ [layer]) ++ layers)
      by (by rewrite <- (assoc_L (++))).
    unfold printable_layer in Hlayer. destruct layer as [paths transform].
    destruct (for_each _ paths ([], printable_coords_3d s)) as [[layerPaths coords]|] eqn:Hin;
      [|done].
    apply printable_paths_of_layer in Hin as [(outs & -> & Hall) Hkeep].
    revert Hlayer. outcome_simpl. destruct coords as [[|first others]|]; try done.
    intros [= <-].
    refine (IH (done_layers ++ [(paths, transform)]) _ _ _ _ _ _ _ Hrest); cbn.
    + rewrite !length_app. simpl. lia.
    + rewrite !length_app. simpl. lia.
    + intros Heq. by destruct done_layers.
    + intros _. exists first, others. split; [done|]. by rewrite last_snoc.
    + intros k layer Hk Hempty.
      apply lookup_app_Some in Hk as [Hk|[Hge Hk]].
      * destruct (Hstale k layer Hk Hempty) as (k' & -> & Heq).
        exists k'. split; [done|].
        pose proof (lookup_lt_Some _ _ _ Hk). rewrite !lookup_app_l by lia. done.
      * apply list_lookup_singleton_Some in Hk as [Hk0 <-]. cbn in Hempty. subst paths.
        specialize (Hkeep eq_refl).
        destruct done_layers as [|d0 dl] eqn:Hdl.
        { rewrite Hnone in Hkeep; done. }
        destruct Hsome as (f & o & Hc & Hlast); [done|].
        rewrite Hc in Hkeep. injection Hkeep as <- <-.
        assert (k = length (d0 :: dl)) as -> by lia. cbn [length].
        exists (length dl). split; [done|].
        rewrite lookup_app_r by (rewrite Hlh; cbn; lia).
        rewrite Hlh. cbn [length]. rewrite Nat.sub_diag. cbn [lookup list_lookup].
        rewrite lookup_app_l by (rewrite Hlh; cbn; lia).
        rewrite last_lookup in Hlast. rewrite Hlh in Hlast. cbn in Hlast.
        by rewrite Hlast.
    + apply Forall2_app; [done|]. constructor; [|done]. done.
Qed.

(** X19. The paths of a chunk in the printable orientation and the heights
    of its layers.  When the function returns, there is one list of paths
    and one height for each layer that has a transform, every path has as
    many points as it had, and a layer without paths has the height of
    the layer before it; when the first layer has no paths the function
    raises [UnboundLocalError]. *)
Theorem printable_orientation_heights (DCM : Matrix3) :
  (∀ layer_paths transformation_matrices printable heights,
      transform_paths_to_printable_orientation layer_paths transformation_matrices DCM =
        Ok (printable, heights) →
      length printable = length (zip layer_paths transformation_matrices) ∧
      length heights = length (zip layer_paths transformation_matrices) ∧
      (∀ k, (k < length heights)%nat → layer_paths !! k = Some [] →
         ∃ k', k = S k' ∧ heights !! k = heights !! k') ∧
      (∀ k out paths, printable !! k = Some out → layer_paths !! k = Some paths →
         Forall2 (λ (o p : list (R * R)), length o = length p) out paths)) ∧
  (∀ more_paths transform more_transforms,
      transform_paths_to_printable_orientation
        ([] :: more_paths) (transform :: more_transforms) DCM = Raise UnboundLocalError).
Proof.
  split.
  - intros layer_paths transforms printable heights.
    unfold transform_paths_to_printable_orientation.
    destruct (for_each _ _ _) as [s'|] eqn:Hrun; [|done]. outcome_simpl.
    intros [= <- <-].
    destruct (printable_layers_spec DCM (zip layer_paths transforms) []
                {| printable_pathPoints := []; midLayer_Z_Heights := [];
                   printable_coords_3d := None |} s')
      as (Hlp & Hlh & Hstale & Hshape); try done.
    rewrite app_nil_l in *.
    split; [done|]. split; [done|]. split.
    + intros k Hk Hempty. rewrite Hlh in Hk.
      destruct (lookup_lt_is_Some_2 _ _ Hk) as [[paths transform] Hz].
      apply (Hstale k (paths, transform) Hz). cbn.
      apply lookup_zip_with_Some in Hz as (x & y & [= <- <-] & Hx & _). congruence.
    + intros k out paths Hout Hpaths.
      destruct (Forall2_lookup_l _ _ _ _ _ Hshape Hout) as ([paths' transform] & Hz & Hall).
      apply lookup_zip_with_Some in Hz as (x & y & [= <- <-] & Hx & _).
      cbn in Hall. congruence.
  - intros more_paths transform more_transforms.
    unfold transform_paths_to_printable_orientation. cbn [zip zip_with for_each].
    done.
Qed.

(** ** Shells and brim *)

Section ShellProperties.
Context {Geom : Type} `{!Shapely Geom} `{!ShapelyRings Geom}.

Lemma offset_into_spec (distance : Q) (polys result : list Geom) (geometry : Geom) :
  offset_into distance polys geometry = Ok result →
  ∃ valid, result = polys ++ [valid] ∧ offset_of distance geometry valid.
Proof.
  unfold offset_into, offset_of.
  destruct (buffer_mitred geometry distance) as [b|] eqn:Hb; [|done]. cbn [lib]. outcome_simpl.
  destruct (make_valid b) as [v|] eqn:Hv; [|done]. cbn [lib]. outcome_simpl.
  intros [= <-]. exists v. split; [done|]. by exists b.
Qed.

Lemma offset_each_spec (distance : Q) (geometries polys result : list Geom) :
  for_each (offset_into distance) geometries polys = Ok result →
  ∃ news, result = polys ++ news ∧ Forall2 (offset_of distance) geometries news.
Proof.
  revert polys. induction geometries as [|g geometries IH]; intros polys; cbn [for_each].
  - intros [= <-]. exists []. by rewrite app_nil_r.
  - destruct (offset_into distance polys g) as [polys1|] eqn:Hstep; [|done].
    outcome_simpl. intros Hrest.
    apply offset_into_spec in Hstep as (valid & -> & Hoff).
    apply IH in Hrest as (news & -> & Hall).
    exists (valid :: news). split; [by rewrite <- (assoc_L (++))|]. by constructor.
Qed.

Lemma offset_repeatedly_spec (distance : Q) (geometry : Geom) (parts polys result : list Geom) :
  for_each (λ polys (poly : Geom), offset_into distance polys geometry) parts polys =
    Ok result →
  ∃ news, result = polys ++ news ∧ Forall (offset_of distance geometry) news.
Proof.
  revert polys. induction parts as [|p parts IH]; intros polys; cbn [for_each].
  - intros [= <-]. exists []. by rewrite app_nil_r.
  - destruct (offset_into distance polys geometry) as [polys1|] eqn:Hstep; [|done].
    outcome_simpl. intros Hrest.
    apply offset_into_spec in Hstep as (valid & -> & Hoff).
    apply IH in Hrest as (news & -> & Hall).
    exists (valid :: news). split; [by rewrite <- (assoc_L (++))|]. by constructor.
Qed.

Lemma offset_repeatedly_same (distance : Q) (geometry inner : Geom)
    (parts polys result : list Geom) :
  offset_of distance geometry inner →
  for_each (λ polys (poly : Geom), offset_into distance polys geometry) parts polys =
    Ok result →
  result = polys ++ replicate (length parts) inner.
Proof.
  intros (b & Hb & Hv). revert polys.
  induction parts as [|p parts IH]; intros polys; cbn [for_each].
  - intros [= <-]. by rewrite app_nil_r.
  - unfold offset_into at 2. rewrite Hb. cbn [lib]. outcome_simpl. rewrite Hv. cbn [lib].
    outcome_simpl. intros Hrest. apply IH in Hrest as ->.
    by rewrite <- (assoc_L (++)).
Qed.

Lemma next_shell_polygons_spec (lineWidth : Q) (polys result : list Geom) (geometry : Geom) :
  next_shell_polygons lineWidth polys geometry = Ok result →
  ∃ news, result = polys ++ news ∧ shell_offsets lineWidth geometry news.
Proof.
  unfold next_shell_polygons, shell_offsets.
  destruct (geom_type geometry); try (intros [= <-]; exists []; by rewrite app_nil_r).
  - intros Hstep. apply offset_into_spec in Hstep as (valid & -> & Hoff).
    exists [valid]. split; [done|]. by exists valid.
  - destruct (geoms geometry) as [|part parts] eqn:Hparts.
    + intros [= <-]. exists []. rewrite app_nil_r. split; [done|].
      exists geometry. split; [by left|done].
    + intros Hres.
      assert (∃ inner, offset_of (- lineWidth) geometry inner) as [inner Hoff].
      { cbn [for_each] in Hres.
        destruct (offset_into (- lineWidth) polys geometry) as [polys1|] eqn:Hstep; [|done].
        apply offset_into_spec in Hstep as (inner & _ & Hoff). by exists inner. }
      apply (offset_repeatedly_same _ _ inner) in Hres; [|done].
      exists (replicate (length (part :: parts)) inner). split; [done|].
      exists inner. split; [by right|done].
Qed.

Lemma next_shell_spec (lineWidth : Q) (outer polys result : list Geom) :
  for_each (next_shell_polygons lineWidth) outer polys = Ok result →
  ∃ newss, result = polys ++ concat newss ∧ Forall2 (shell_offsets lineWidth) outer newss.
Proof.
  revert polys. induction outer as [|g outer IH]; intros polys; cbn [for_each].
  - intros [= <-]. exists []. rewrite app_nil_r. split; [done|constructor].
  - destruct (next_shell_polygons lineWidth polys g) as [polys1|] eqn:Hstep; [|done].
    outcome_simpl. intros Hrest.
    apply next_shell_polygons_spec in Hstep as (news1 & -> & Hall1).
    apply IH in Hrest as (newss & -> & Hall).
    exists (news1 :: newss). cbn [concat]. split; [by rewrite <- (assoc_L (++))|].
    by constructor.
Qed.

Lemma next_shells_spec (lineWidth : Q) (m : nat) (shells shells' : list (list Geom)) :
  shells ≠ [] →
  shells_nest lineWidth shells →
  for_each (next_shell lineWidth)
    (seqZ (Z.of_nat (length shells) - 1) (Z.of_nat m)) shells = Ok shells' →
  length shells' = (length shells + m)%nat ∧
  shells' !! 0%nat = shells !! 0%nat ∧
  shells_nest lineWidth shells'.
Proof.
  revert shells. induction m as [|m IH]; intros shells Hne Hnest.
  - cbn. intros [= <-]. split; [lia|done].
  - rewrite Nat2Z.inj_succ, seqZ_cons by lia. cbn [for_each].
    destruct (next_shell lineWidth shells (Z.of_nat (length shells) - 1)) as [shells1|]
      eqn:Hstep; [|done].
    outcome_simpl. rewrite Z.pred_succ. intros Hrest.
    unfold next_shell in Hstep.
    assert (0 < length shells)%nat as Hpos by (destruct shells; [done|simpl; lia]).
    destruct (lookup_lt_is_Some_2 shells (length shells - 1)) as [outer Houter]; [lia|].
    replace (Z.of_nat (length shells) - 1) with (Z.of_nat (length shells - 1)) in Hstep by lia.
    rewrite (py_getitem_lookup _ _ _ Houter) in Hstep. revert Hstep. outcome_simpl.
    destruct (for_each (next_shell_polygons lineWidth) outer []) as [volatile|] eqn:Hin;
      [|done].
    outcome_simpl. intros [= <-].
    apply next_shell_spec in Hin as (newss & -> & Hall). rewrite app_nil_l in *.
    destruct (IH (shells ++ [concat newss])) as (Hlen & H0 & Hnest').
    + by destruct shells.
    + intros s o i Ho Hi. destruct (decide (S s < length shells)%nat) as [Hlt|Hge].
      * rewrite lookup_app_l in Ho, Hi by lia. by apply (Hnest s).
      * pose proof (lookup_lt_Some _ _ _ Hi) as Hlt. rewrite length_app in Hlt. simpl in Hlt.
        assert (s = (length shells - 1)%nat) as -> by lia.
        rewrite lookup_app_l in Ho by lia. rewrite Houter in Ho. injection Ho as <-.
        rewrite lookup_app_r in Hi by lia.
        replace (S (length shells - 1) - length shells)%nat with 0%nat in Hi by lia.
        injection Hi as <-. by exists newss.
    + rewrite length_app. simpl.
      replace (Z.of_nat (length shells + 1) - 1) with (Z.succ (Z.of_nat (length shells) - 1))
        by lia.
      exact Hrest.
    + rewrite length_app in Hlen. simpl in Hlen. split; [lia|]. split; [|done].
      rewrite H0. by rewrite lookup_app_l by lia.
Qed.

Lemma keep_long_rings (holes rings : list Geom) (ring : Geom) :
  ring ∈ foldl (λ shellRingsList hole,
                  if (4 <=? num_coords hole)%nat then shellRingsList ++ [hole]
                  else shellRingsList) rings holes ↔
  ring ∈ rings ∨ (4 ≤ num_coords ring)%nat ∧ ring ∈ holes.
Proof.
  revert rings. induction holes as [|hole holes IH]; intros rings; cbn [foldl].
  - split; [by left|]. intros [?|[_ Hin]]; [done|]. by apply elem_of_nil in Hin.
  - rewrite IH. destruct (Nat.leb_spec 4 (num_coords hole)) as [Hlong|Hshort].
    + rewrite elem_of_app, list_elem_of_singleton, elem_of_cons. split.
      * intros [[?| ->]|[? ?]]; [by left|right|right]; split; auto.
      * intros [?|[? [-> |?]]]; [by left; left|by left; right|by right].
    + rewrite elem_of_cons. split.
      * intros [?|[? ?]]; [by left|right]. split; auto.
      * intros [?|[? [-> |?]]]; [by left|lia|by right].
Qed.

Lemma rings_of_polygon_spec (rings result : list Geom) (polygon : Geom) :
  rings_of_polygon rings polygon = Ok result →
  ∀ ring, ring ∈ result ↔
          ring ∈ rings ∨ (4 ≤ num_coords ring)%nat ∧ ring_of polygon ring.
Proof.
  unfold rings_of_polygon, ring_of.
  destruct (exterior polygon) as [ext|]; [|done].
  destruct (interiors polygon) as [holes|]; [|done].
  unfold attr, mbind, outcome_bind, obind.
  set (start := if (4 <=? num_coords ext)%nat then rings ++ [ext] else rings).
  assert (∀ ring, ring ∈ start ↔ ring ∈ rings ∨ (4 ≤ num_coords ring)%nat ∧ ring = ext)
    as Hstart.
  { intros ring. subst start. destruct (Nat.leb_spec 4 (num_coords ext)) as [Hlong|Hshort].
    - rewrite elem_of_app, list_elem_of_singleton. split.
      + intros [?| ->]; [by left|by right].
      + intros [?|[_ ->]]; [by left|by right].
    - split; [by left|]. intros [?|[? ->]]; [done|lia]. }
  clearbody start. intros [= <-] ring. rewrite keep_long_rings, Hstart. split.
  - intros [[?|[? ->]]|[? ?]]; [by left|right|right]; (split; [done|]).
    + by left.
    + right. by exists holes.
  - intros [?|[? [[= ->]|(holes' & [= <-] & ?)]]]; [by left; left|by left; right|by right].
Qed.

Lemma rings_of_geometry_spec (rings result : list Geom) (geometry : Geom) :
  rings_of_geometry rings geometry = Ok result →
  ∀ ring, ring ∈ result ↔
          ring ∈ rings ∨
          (4 ≤ num_coords ring)%nat ∧
          ∃ polygon, polygon_of geometry polygon ∧ ring_of polygon ring.
Proof.
  unfold rings_of_geometry, polygon_of.
  destruct (geom_type geometry);
    try (intros [= <-] ring; split; [by left|]; by intros [?|(_ & ? & [] & _)]).
  - intros Hres ring. rewrite (rings_of_polygon_spec _ _ _ Hres). split.
    + intros [?|[? ?]]; [by left|right]. split; [done|]. by exists geometry.
    + intros [?|(? & ? & -> & ?)]; [by left|by right].
  - revert rings. induction (geoms geometry) as [|poly parts IH]; intros rings;
      cbn [for_each].
    + intros [= <-] ring. split; [by left|].
      intros [?|(_ & ? & [Hin _] & _)]; [done|]. by apply elem_of_nil in Hin.
    + destruct (geom_type poly) eqn:Hpoly; outcome_simpl.
      4: { destruct (rings_of_polygon rings poly) as [rings1|] eqn:Hstep; [|done].
           outcome_simpl. intros Hrest ring.
           rewrite (IH _ Hrest), (rings_of_polygon_spec _ _ _ Hstep). split.
           - intros [[?|[? ?]]|(? & p & [? ?] & ?)]; [by left|right|right];
               (split; [done|]).
             + exists poly. split; [|done]. split; [apply list_elem_of_here|done].
             + exists p. split; [|done]. split; [by apply list_elem_of_further|done].
           - intros [?|(? & p & [Hin ?] & ?)]; [by left; left|].
             apply elem_of_cons in Hin as [-> |Hin].
             + left. right. done.
             + right. split; [done|]. by exists p. }
      all: intros Hrest ring; rewrite (IH _ Hrest); split;
        [intros [?|(? & p & [? ?] & ?)]; [by left|right]; (split; [done|]);
           exists p; (split; [|done]); split; [by apply list_elem_of_further|done]
        |intros [?|(? & p & [Hin Hty] & ?)]; [by left|];
           apply elem_of_cons in Hin as [-> |Hin]; [congruence|];
           right; split; [done|]; by exists p].
Qed.

Lemma rings_of_shell_spec (shell rings result : list Geom) :
  for_each rings_of_geometry shell rings = Ok result →
  ∀ ring, ring ∈ result ↔
          ring ∈ rings ∨
          (4 ≤ num_coords ring)%nat ∧
          ∃ geometry polygon, geometry ∈ shell ∧ polygon_of geometry polygon ∧
                              ring_of polygon ring.
Proof.
  revert rings. induction shell as [|g shell IH]; intros rings; cbn [for_each].
  - intros [= <-] ring. split; [by left|].
    intros [?|(_ & ? & ? & Hin & _)]; [done|]. by apply elem_of_nil in Hin.
  - destruct (rings_of_geometry rings g) as [rings1|] eqn:Hstep; [|done].
    outcome_simpl. intros Hrest ring.
    rewrite (IH _ Hrest), (rings_of_geometry_spec _ _ _ Hstep). split.
    + intros [[?|(? & p & ? & ?)]|(? & g' & p & ? & ? & ?)]; [by left|right|right];
        (split; [done|]).
      * exists g, p. split; [apply list_elem_of_here|done].
      * exists g', p. split; [by apply list_elem_of_further|done].
    + intros [?|(? & g' & p & Hin & ? & ?)]; [by left; left|].
      apply elem_of_cons in Hin as [-> |Hin].
      * left. right. split; [done|]. by exists p.
      * right. split; [done|]. by exists g', p.
Qed.

Lemma rings_of_shells_spec (shells : list (list Geom)) (rings result : list Geom) :
  for_each (λ shellRingsList shell, for_each rings_of_geometry shell shellRingsList)
    shells rings = Ok result →
  ∀ ring, ring ∈ result ↔ ring ∈ rings ∨ shell_ring shells ring.
Proof.
  unfold shell_ring.
  revert rings. induction shells as [|shell shells IH]; intros rings; cbn [for_each].
  - intros [= <-] ring. split; [by left|].
    intros [?|(_ & ? & ? & ? & Hin & _)]; [done|]. by apply elem_of_nil in Hin.
  - destruct (for_each rings_of_geometry shell rings) as [rings1|] eqn:Hstep; [|done].
    outcome_simpl. intros Hrest ring.
    rewrite (IH _ Hrest), (rings_of_shell_spec _ _ _ Hstep). split.
    + intros [[?|(? & g & p & ? & ? & ?)]|(? & sh & g & p & ? & ? & ? & ?)];
        [by left|right|right]; (split; [done|]).
      * exists shell, g, p. split; [apply list_elem_of_here|done].
      * exists sh, g, p. split; [by apply list_elem_of_further|done].
    + intros [?|(? & sh & g & p & Hin & ? & ? & ?)]; [by left; left|].
      apply elem_of_cons in Hin as [-> |Hin].
      * left. right. split; [done|]. by exists g, p.
      * right. split; [done|]. by exists sh, g, p.
Qed.

Lemma brim_parts_spec (rings polygons rings' polygons' parts : list Geom) :
  for_each (λ (acc : list Geom * list Geom) geom,
              ring ← attr (exterior geom); Ok (acc.1 ++ [ring], acc.2 ++ [geom]))
           parts (rings, polygons) = Ok (rings', polygons') →
  ∃ news, rings' = rings ++ news ∧ polygons' = polygons ++ parts ∧ exteriors_of news parts.
Proof.
  revert rings polygons. induction parts as [|part parts IH]; intros rings polygons;
    cbn [for_each].
  - intros [= <- <-]. exists []. rewrite !app_nil_r. repeat split. constructor.
  - destruct (exterior part) as [ring|] eqn:Hring; [|done]. cbn [attr fst snd]. outcome_simpl.
    intros Hrest. apply IH in Hrest as (news & -> & -> & Hext).
    exists (ring :: news). rewrite <- !(assoc_L (++)). repeat split. by constructor.
Qed.

Lemma brim_of_polygon_spec (lineWidth : Q) (rings polygons rings' polygons' : list Geom)
    (poly : Geom) :
  brim_of_polygon lineWidth (rings, polygons) poly = Ok (rings', polygons') →
  ∃ new_rings new_polygons,
    rings' = rings ++ new_rings ∧ polygons' = polygons ++ new_polygons ∧
    exteriors_of new_rings new_polygons ∧
    brim_pieces lineWidth poly new_polygons.
Proof.
  unfold brim_of_polygon.
  destruct (buffer_mitred poly lineWidth) as [b|] eqn:Hb; [|done]. cbn [lib]. outcome_simpl.
  destruct (make_valid b) as [v|] eqn:Hv; [|done]. cbn [lib]. outcome_simpl.
  assert (offset_of lineWidth poly v) as Hoff by (by exists b).
  assert (attr (exterior v) ≫= (λ ring, Ok ((rings, polygons).1 ++ [ring],
                                             (rings, polygons).2 ++ [v])) =
            Ok (rings', polygons') →
          geom_type v ≠ GT_MultiPolygon →
          ∃ new_rings new_polygons,
            rings' = rings ++ new_rings ∧ polygons' = polygons ++ new_polygons ∧
            exteriors_of new_rings new_polygons ∧
            brim_pieces lineWidth poly new_polygons) as Hsingle.
  { destruct (exterior v) as [ring|] eqn:Hring; [|done]. cbn [attr fst snd]. outcome_simpl.
    intros [= <- <-] Hty. exists [ring], [v]. repeat split.
    - by repeat constructor.
    - exists v. split; [done|]. by destruct (geom_type v). }
  destruct (geom_type v) eqn:Hty; try (intros Hres; by apply Hsingle).
  intros Hres. apply brim_parts_spec in Hres as (news & -> & -> & Hext).
  exists news, (geoms v). repeat split; [done|].
  exists v. split; [done|]. by rewrite Hty.
Qed.

Lemma brim_of_polygons_spec (lineWidth : Q) (current rings polygons rings' polygons' : list Geom) :
  for_each (brim_of_polygon lineWidth) current (rings, polygons) = Ok (rings', polygons') →
  ∃ new_rings piecess,
    rings' = rings ++ new_rings ∧ polygons' = polygons ++ concat piecess ∧
    exteriors_of new_rings (concat piecess) ∧
    Forall2 (brim_pieces lineWidth) current piecess.
Proof.
  revert rings polygons. induction current as [|poly current IH]; intros rings polygons;
    cbn [for_each].
  - intros [= <- <-]. exists [], []. rewrite !app_nil_r. repeat split; constructor.
  - destruct (brim_of_polygon lineWidth (rings, polygons) poly) as [[rings1 polygons1]|] eqn:Hstep;
      [|done].
    outcome_simpl. intros Hrest.
    apply brim_of_polygon_spec in Hstep as (r1 & p1 & -> & -> & Hext1 & Hpieces1).
    apply IH in Hrest as (r2 & p2 & -> & -> & Hext2 & Hpieces2).
    exists (r1 ++ r2), (p1 :: p2). cbn [concat]. rewrite <- !(assoc_L (++)). repeat split.
    + by apply Forall2_app.
    + by constructor.
Qed.

Lemma brim_lines_spec (lineWidth : Q) (indices : list Z) (ring_list ring_list' : list (list Geom))
    (current final : list Geom) :
  for_each (brim_line lineWidth) indices (ring_list, current) = Ok (ring_list', final) →
  ∃ new_rings levels,
    ring_list' = ring_list ++ new_rings ∧ length new_rings = length indices ∧
    Forall2 exteriors_of new_rings levels ∧ brim_nests lineWidth current levels.
Proof.
  revert ring_list current. induction indices as [|i indices IH]; intros ring_list current;
    cbn [for_each].
  - intros [= <- <-]. exists [], []. rewrite app_nil_r. repeat split. constructor.
  - unfold brim_line at 2. cbn [fst snd].
    destruct (for_each (brim_of_polygon lineWidth) current ([], [])) as [[rings polygons]|] eqn:Hline;
      [|done].
    outcome_simpl. intros Hrest.
    apply brim_of_polygons_spec in Hline as (r & p & -> & -> & Hext & Hpieces).
    rewrite !app_nil_l in Hrest.
    apply IH in Hrest as (new_rings & levels & -> & Hlen & Hexts & Hnest).
    exists (r :: new_rings), (concat p :: levels). rewrite <- (assoc_L (++)). repeat split.
    + cbn. by rewrite Hlen.
    + by constructor.
    + by exists p.
    + done.
Qed.

Lemma flattened_polygons_flattens (shapely_polygons : list Geom) :
  flattens shapely_polygons (flattened_polygons shapely_polygons).
Proof.
  unfold flattens, flattened_polygons.
  induction shapely_polygons as [|poly polys (partss & Hc & Hall)].
  - exists []. split; [done|constructor].
  - eexists (_ :: partss). cbn [flat_map concat]. rewrite Hc.
    split; [done|]. by constructor.
Qed.

End ShellProperties.

(** X20. The shells of a layer.  When [get_shells_for_one_layer] returns,
    the rings it returns are those of [max(1, shellThickness)] shells.  The
    first shell is the input polygons, each offset inwards by half the line
    width.  Every later shell is exactly what the shell before it gives,
    geometry by geometry and in order: for a polygon its offset by the line
    width inwards, for a multipolygon of [n] parts [n] copies of its offset,
    for anything else nothing.  The innermost polygons are the last shell.
    A ring is returned exactly when it has at least four points and is the
    exterior or a hole of a polygon of a shell, or of a part, itself a
    polygon, of a multipolygon of a shell. *)
Theorem shells_are_nested_offsets {Geom : Type} `{!Shapely Geom} `{!ShapelyRings Geom}
    (shapely_polygons : list Geom) (lineWidth : Q) (shellThickness : Z)
    (innerMostPolygons shellRingsList : list Geom) :
  get_shells_for_one_layer shapely_polygons lineWidth shellThickness =
    Ok (innerMostPolygons, shellRingsList) →
  ∃ shellPolyList first,
    get_shell_rings_for_one_layer shellPolyList = Ok shellRingsList ∧
    Z.of_nat (length shellPolyList) = Z.max 1 shellThickness ∧
    shellPolyList !! 0%nat = Some first ∧
    Forall2 (offset_of (- lineWidth / 2)) shapely_polygons first ∧
    shells_nest lineWidth shellPolyList ∧
    last shellPolyList = Some innerMostPolygons ∧
    ∀ ring, ring ∈ shellRingsList ↔ shell_ring shellPolyList ring.
Proof.
  unfold get_shells_for_one_layer, get_initial_shells_for_one_layer.
  destruct (for_each (offset_into (- lineWidth / 2)) shapely_polygons []) as [first|] eqn:Hfirst;
    [|done].
  outcome_simpl. apply offset_each_spec in Hfirst as (news & -> & Hoff).
  rewrite app_nil_l. unfold get_remaining_shells_for_one_layer.
  destruct (if 1 <? shellThickness
            then for_each (next_shell lineWidth) (py_range 0 (shellThickness - 1)) [news]
            else Ok [news]) as [shells|] eqn:Hshells; [|done].
  outcome_simpl.
  assert (Z.of_nat (length shells) = Z.max 1 shellThickness ∧
          shells !! 0%nat = Some news ∧ shells_nest lineWidth shells) as (Hlen & H0 & Hnest).
  { destruct (Z.ltb_spec 1 shellThickness) as [Hthick|Hthin].
    - unfold py_range in Hshells. rewrite Z.sub_0_r in Hshells.
      replace (shellThickness - 1) with (Z.of_nat (Z.to_nat (shellThickness - 1)))
        in Hshells by lia.
      apply (next_shells_spec lineWidth _ [news]) in Hshells as (Hl & H0 & Hn).
      + cbn in Hl. split; [lia|]. split; [by rewrite H0|done].
      + done.
      + intros s outer inner Ho Hi. by destruct s.
    - injection Hshells as <-. split; [cbn; lia|]. split; [done|].
      intros s outer inner Ho Hi. by destruct s. }
  assert (shells ≠ []) as Hne by (intros ->; done).
  destruct (py_getitem shells (-1)) as [innerMost|] eqn:Hlast; [|done].
  outcome_simpl.
  destruct (get_shell_rings_for_one_layer shells) as [rings|] eqn:Hrings; [|done].
  outcome_simpl. intros [= <- <-].
  exists shells, news. split; [done|]. split; [done|]. split; [done|]. split; [done|].
  split; [done|]. split.
  - rewrite last_lookup. unfold py_getitem in Hlast.
    destruct (Z.ltb_spec (-1) 0) as [_|?]; [|lia].
    destruct ((0 <=? -1 + Z.of_nat (length shells)) &&
              (-1 + Z.of_nat (length shells) <? Z.of_nat (length shells))); [|done].
    replace (Z.to_nat (-1 + Z.of_nat (length shells))) with (pred (length shells)) in Hlast
      by lia.
    destruct (shells !! pred (length shells)) as [x|]; [|done].
    by injection Hlast as ->.
  - unfold get_shell_rings_for_one_layer in Hrings. intros ring.
    rewrite (rings_of_shells_spec shells [] _ Hrings). split; [|by right].
    intros [Hin|?]; [|done]. by apply elem_of_nil in Hin.
Qed.

Lemma shells_are_nested_offsets_example :
  ∃ shellPolyList first,
    get_shell_rings_for_one_layer shellPolyList =
      Ok [[Raster.rect 1 7 1 7]; [Raster.rect 3 5 3 5]] ∧
    Z.of_nat (length shellPolyList) = Z.max 1 2 ∧
    shellPolyList !! 0%nat = Some first ∧
    Forall2 (offset_of (- 2 / 2)) [[Raster.rect 0 8 0 8]] first ∧
    shells_nest 2 shellPolyList ∧
    last shellPolyList = Some [[Raster.rect 3 5 3 5]] ∧
    ∀ ring, ring ∈ [[Raster.rect 1 7 1 7]; [Raster.rect 3 5 3 5]] ↔
            shell_ring shellPolyList ring.
Proof.
  apply (shells_are_nested_offsets [[Raster.rect 0 8 0 8]] 2 2). vm_compute. reflexivity.
Defined.

(** X21. A multipolygon in a shell.  For a multipolygon of [n] parts, the
    next shell receives [n] copies of one offset of the whole multipolygon,
    not one offset for each part. *)
Theorem multipolygon_is_offset_once_per_part {Geom : Type} `{!Shapely Geom}
    `{!ShapelyRings Geom} (lineWidth : Q) (volatilePolyList result : list Geom)
    (geometry : Geom) :
  geom_type geometry = GT_MultiPolygon →
  geoms geometry ≠ [] →
  next_shell_polygons lineWidth volatilePolyList geometry = Ok result →
  ∃ inner, offset_of (- lineWidth) geometry inner ∧
           result = volatilePolyList ++ replicate (length (geoms geometry)) inner.
Proof.
  intros Hty Hparts. unfold next_shell_polygons. rewrite Hty. intros Hres.
  assert (∃ news, result = volatilePolyList ++ news ∧
                  Forall (offset_of (- lineWidth) geometry) news) as (news & _ & Hall)
    by (by eapply offset_repeatedly_spec).
  assert (∃ inner, offset_of (- lineWidth) geometry inner) as [inner Hoff].
  { destruct (geoms geometry) as [|part parts]; [done|]. cbn [for_each] in Hres.
    destruct (offset_into (- lineWidth) volatilePolyList geometry) as [polys1|] eqn:Hstep;
      [|done].
    apply offset_into_spec in Hstep as (inner & _ & Hoff). by exists inner. }
  exists inner. split; [done|]. by eapply offset_repeatedly_same.
Qed.

Lemma multipolygon_is_offset_once_per_part_example :
  ∃ inner,
    offset_of (- 1%Q) [Raster.rect 0 4 0 4; Raster.rect 6 10 0 4] inner ∧
    [[Raster.rect 1 3 1 3]; [Raster.rect 1 3 1 3 ∪ Raster.rect 7 9 1 3];
     [Raster.rect 1 3 1 3 ∪ Raster.rect 7 9 1 3]] =
    [[Raster.rect 1 3 1 3]] ++
      replicate (length (geoms [Raster.rect 0 4 0 4; Raster.rect 6 10 0 4])) inner.
Proof.
  apply (multipolygon_is_offset_once_per_part 1 [[Raster.rect 1 3 1 3]]).
  - reflexivity.
  - discriminate.
  - vm_compute. reflexivity.
Defined.

(** X22. The brim.  When [create_brim] returns, it returns [brim_lines]
    lists of rings (none for a negative number).  The rings of a list are
    the exteriors, one by one and in order, of the polygons of a level;
    a level is exactly the offsets, outwards by the line width, of the
    polygons of the level before it, taken in order, an offset that is a
    multipolygon being replaced by its parts; the first level is made so
    from the polygons of the initial layer, with every multipolygon
    replaced by its parts. *)
Theorem brim_lines_are_nested_offsets {Geom : Type} `{!Shapely Geom} `{!ShapelyRings Geom}
    (shapely_polygons : list Geom) (lineWidth : Q) (brim_lines : Z)
    (brim_ring_list : list (list Geom)) :
  create_brim shapely_polygons lineWidth brim_lines = Ok brim_ring_list →
  length brim_ring_list = Z.to_nat brim_lines ∧
  ∃ start levels,
    flattens shapely_polygons start ∧
    Forall2 exteriors_of brim_ring_list levels ∧
    brim_nests lineWidth start levels.
Proof.
  unfold create_brim.
  destruct (for_each (brim_line lineWidth) (py_range 0 brim_lines)
              ([], flattened_polygons shapely_polygons)) as [[ring_list final]|] eqn:Hloop;
    [|done].
  outcome_simpl. intros [= <-].
  apply brim_lines_spec in Hloop as (new_rings & levels & -> & Hlen & Hexts & Hnest).
  rewrite app_nil_l. split.
  - rewrite Hlen. unfold py_range. rewrite length_seqZ. lia.
  - exists (flattened_polygons shapely_polygons), levels.
    split; [apply flattened_polygons_flattens|done].
Qed.

Lemma brim_lines_are_nested_offsets_example :
  length [[[Raster.rect (-1) 3 (-1) 3]]; [[Raster.rect (-2) 4 (-2) 4]]] = Z.to_nat 2 ∧
  ∃ start levels,
    flattens [[Raster.rect 0 2 0 2]] start ∧
    Forall2 exteriors_of [[[Raster.rect (-1) 3 (-1) 3]]; [[Raster.rect (-2) 4 (-2) 4]]] levels ∧
    brim_nests 1 start levels.
Proof.
  apply (brim_lines_are_nested_offsets [[Raster.rect 0 2 0 2]] 1 2). vm_compute. reflexivity.
Defined.

(** ** Infill lines *)

Section CleanGeometryProperties.
Context {Geom : Type} `{!Shapely Geom} `{!ShapelyLines Geom}.

Lemma keep_part_spec (minInfillLineLength : Q) (acc : list Geom) (g g' : Geom) :
  g' ∈ keep_part minInfillLineLength acc g ↔
  g' ∈ acc ∨ g' = g ∧ long_linestring minInfillLineLength g.
Proof.
  unfold keep_part, long_linestring.
  destruct (geom_type g) eqn:Hty; try (split; [by left|intros [?|(_ & ? & _)]; done]).
  destruct (is_empty g) eqn:Hempty; cbn [negb].
  { split; [by left|intros [?|(_ & _ & ? & _)]; done]. }
  destruct (Qlt_le_dec minInfillLineLength (geom_length g)) as [Hlong|Hshort].
  - rewrite elem_of_app, list_elem_of_singleton. split.
    + intros [?| ->]; [by left|by right].
    + intros [?|[-> _]]; [by left|by right].
  - split; [by left|]. intros [?|(_ & _ & _ & Hlong)]; [done|].
    exfalso. by eapply Qlt_not_le.
Qed.

Lemma keep_parts_spec (minInfillLineLength : Q) (parts acc : list Geom) (g' : Geom) :
  g' ∈ foldl (keep_part minInfillLineLength) acc parts ↔
  g' ∈ acc ∨ g' ∈ parts ∧ long_linestring minInfillLineLength g'.
Proof.
  revert acc. induction parts as [|g parts IH]; intros acc; cbn [foldl].
  - split; [by left|]. intros [?|[Hin _]]; [done|]. by apply elem_of_nil in Hin.
  - rewrite IH, keep_part_spec, elem_of_cons. split.
    + intros [[?|[-> ?]]|[? ?]]; [by left|right|right]; split; auto.
    + intros [?|[[-> |?] ?]]; [by left; left|by left; right|by right].
Qed.

Lemma keep_collection_part_plain (minInfillLineLength : Q) (geometry : Geom)
    (acc : list Geom) (g : Geom) :
  geom_type geometry = GT_GeometryCollection →
  keep_collection_part minInfillLineLength geometry acc g =
  keep_part minInfillLineLength acc g.
Proof. intros Hty. unfold keep_collection_part, keep_part. by rewrite Hty. Qed.

Lemma keep_collection_parts_plain (minInfillLineLength : Q) (geometry : Geom)
    (parts acc : list Geom) :
  geom_type geometry = GT_GeometryCollection →
  foldl (keep_collection_part minInfillLineLength geometry) acc parts =
  foldl (keep_part minInfillLineLength) acc parts.
Proof.
  intros Hty. revert acc. induction parts as [|g parts IH]; intros acc; cbn [foldl]; [done|].
  by rewrite keep_collection_part_plain, IH.
Qed.

Lemma clean_element_spec (minInfillLineLength : Q) (acc : list Geom)
    (geometry : Geom) (rest : list Geom) :
  ∃ lines, clean_element minInfillLineLength acc (geometry :: rest) = Ok lines ∧
    ∀ g, g ∈ lines ↔
         g ∈ acc ∨
         long_linestring minInfillLineLength g ∧ is_empty geometry = false ∧
         (g = geometry ∨
          (geom_type geometry = GT_MultiLineString ∨
           geom_type geometry = GT_GeometryCollection) ∧ g ∈ geoms geometry).
Proof.
  unfold clean_element. change (py_getitem (geometry :: rest) 0) with (Ok geometry).
  outcome_simpl.
  destruct (is_empty geometry) eqn:Hempty; cbn [negb].
  { exists acc. split; [done|]. intros g. split; [by left|]. by intros [?|(_ & ? & _)]. }
  assert (∀ g, g ∈ geoms geometry ∧ long_linestring minInfillLineLength g ↔
               long_linestring minInfillLineLength g ∧ g ∈ geoms geometry) as Hswap
    by (intros g; tauto).
  destruct (geom_type geometry) eqn:Hty.
  2: { destruct (Qlt_le_dec minInfillLineLength (geom_length geometry)) as [Hlong|Hshort].
       - eexists. split; [done|]. intros g. rewrite elem_of_app, list_elem_of_singleton.
         split.
         + intros [?| ->]; [by left|]. right. split; [done|]. split; [done|]. by left.
         + intros [?|(_ & _ & [-> |[[?|?] _]])]; try done; [by left|by right].
       - exists acc. split; [done|]. intros g. split; [by left|].
         intros [?|(Hlong & _ & [-> |[[?|?] _]])]; try done.
         destruct Hlong as (_ & _ & Hlong). exfalso. by eapply Qlt_not_le. }
  5: { eexists. split; [done|]. intros g. rewrite keep_parts_spec. split.
       - intros [?|[? ?]]; [by left|]. right. split; [done|]. split; [done|]. right.
         split; [by left|done].
       - intros [?|(Hlong & _ & [-> |[_ ?]])]; [by left| |by right].
         destruct Hlong as (Hls & _). congruence. }
  6: { eexists. split; [done|]. intros g.
       rewrite keep_collection_parts_plain, keep_parts_spec by done. split.
       - intros [?|[? ?]]; [by left|]. right. split; [done|]. split; [done|]. right.
         split; [by right|done].
       - intros [?|(Hlong & _ & [-> |[_ ?]])]; [by left| |by right].
         destruct Hlong as (Hls & _). congruence. }
  all: exists acc; split; [done|]; intros g; split; [by left|];
    intros [?|(Hlong & _ & [-> |[[?|?] _]])]; try done;
    destruct Hlong as (Hls & _); congruence.
Qed.

Lemma clean_elements_spec (minInfillLineLength : Q) (geometryList : list (list Geom))
    (acc : list Geom) :
  match for_each (clean_element minInfillLineLength) geometryList acc with
  | Ok lines =>
      Forall (λ element, element ≠ []) geometryList ∧
      ∀ g, g ∈ lines ↔ g ∈ acc ∨ long_linestring minInfillLineLength g ∧ offered geometryList g
  | Raise e => e = IndexError ∧ Exists (λ element, element = []) geometryList
  end.
Proof.
  revert acc. induction geometryList as [|element geometryList IH]; intros acc; cbn [for_each].
  - split; [constructor|]. intros g. split; [by left|].
    intros [?|(_ & el & ? & Hin & _)]; [done|]. by apply elem_of_nil in Hin.
  - destruct element as [|geometry rest].
    { cbn. split; [done|]. by left. }
    destruct (clean_element_spec minInfillLineLength acc geometry rest) as (lines1 & -> & Hlines1).
    outcome_simpl. specialize (IH lines1).
    destruct (for_each (clean_element minInfillLineLength) geometryList lines1) as [lines|e].
    + destruct IH as [Hall Hlines]. split; [by constructor|].
      intros g. rewrite Hlines, Hlines1. unfold offered. split.
      * intros [[?|(Hlong & Hne & Hfrom)]|(Hlong & el & gm & Hin & H0 & Hne & Hfrom)].
        -- by left.
        -- right. split; [done|]. exists (geometry :: rest), geometry.
           split; [apply list_elem_of_here|]. done.
        -- right. split; [done|]. exists el, gm. split; [by apply list_elem_of_further|done].
      * intros [?|(Hlong & el & gm & Hin & H0 & Hne & Hfrom)]; [by left; left|].
        apply elem_of_cons in Hin as [-> |Hin].
        -- injection H0 as <-. left. right. done.
        -- right. split; [done|]. by exists el, gm.
    + destruct IH as [-> Hex]. split; [done|]. by right.
Qed.

End CleanGeometryProperties.

(** X23. Cleaning the infill.  [clean_geometry_list_to_only_linestrings]
    raises [IndexError] exactly when an element of the list is empty.
    Otherwise it returns the line strings that are not empty and longer
    than the minimum, among the first geometries of the elements and the
    parts of those that are multilinestrings or geometry collections; a
    part of a part is never returned, and an empty geometry gives
    nothing. *)
Theorem clean_geometry_keeps_long_linestrings {Geom : Type} `{!Shapely Geom}
    `{!ShapelyLines Geom} (geometryList : list (list Geom)) (minInfillLineLength : Q) :
  match clean_geometry_list_to_only_linestrings geometryList minInfillLineLength with
  | Ok lineStringsOnlyList =>
      Forall (λ element, element ≠ []) geometryList ∧
      ∀ g, g ∈ lineStringsOnlyList ↔
           long_linestring minInfillLineLength g ∧ offered geometryList g
  | Raise e => e = IndexError ∧ Exists (λ element, element = []) geometryList
  end.
Proof.
  unfold clean_geometry_list_to_only_linestrings.
  pose proof (clean_elements_spec minInfillLineLength geometryList []) as Hspec.
  destruct (for_each (clean_element minInfillLineLength) geometryList []) as [lines|e];
    [|done].
  destruct Hspec as [Hall Hlines]. split; [done|]. intros g. rewrite Hlines.
  split; [|by right]. intros [Hin|?]; [|done]. by apply elem_of_nil in Hin.
Qed.

(** ** Segments for the display *)

Lemma elem_of_concat {A} (ls : list (list A)) (x : A) :
  x ∈ concat ls ↔ ∃ l, x ∈ l ∧ l ∈ ls.
Proof.
  induction ls as [|l ls IH]; cbn [concat].
  - split; [intros Hin; by apply elem_of_nil in Hin|].
    intros (l & _ & Hin). by apply elem_of_nil in Hin.
  - rewrite elem_of_app, IH. split.
    + intros [?|(l' & ? & ?)]; [exists l|exists l']; split; auto.
      * apply list_elem_of_here.
      * by apply list_elem_of_further.
    + intros (l' & Hx & Hin). apply elem_of_cons in Hin as [->|?]; [by left|right].
      by exists l'.
Qed.

Lemma consecutive_pairs {A} (l : list A) (a b : A) :
  (a, b) ∈ zip (removelast l) (tail l) ↔ ∃ j : nat, l !! j = Some a ∧ l !! S j = Some b.
Proof.
  induction l as [|x l IH].
  - cbn. split; [intros Hin; by apply elem_of_nil in Hin|intros (j & Hj & _); done].
  - destruct l as [|y l].
    + cbn. split; [intros Hin; by apply elem_of_nil in Hin|].
      intros (j & _ & Hj). by destruct j.
    + change (removelast (x :: y :: l)) with (x :: removelast (y :: l)).
      change (tail (x :: y :: l)) with (y :: l).
      destruct l as [|z l].
      * cbn. rewrite list_elem_of_singleton. split.
        -- intros [= -> ->]. by exists 0%nat.
        -- intros ([|[|j]] & Hj & Hj'); cbn in *; congruence.
      * change (zip (x :: removelast (y :: z :: l)) (y :: z :: l))
          with ((x, y) :: zip (removelast (y :: z :: l)) (tail (y :: z :: l))).
        rewrite elem_of_cons, IH. split.
        -- intros [[= -> ->]|(j & Hj & Hj')]; [by exists 0%nat|by exists (S j)].
        -- intros ([|j] & Hj & Hj'); [left; cbn in *; congruence|right; by exists j].
Qed.

Lemma consecutive_pairs_length {A} (l : list A) :
  length (zip (removelast l) (tail l)) = (length l - 1)%nat.
Proof.
  induction l as [|x l IH]; [done|]. destruct l as [|y l]; [done|].
  change (zip (removelast (x :: y :: l)) (tail (x :: y :: l)))
    with ((x, y) :: zip (removelast (y :: l)) (tail (y :: l))).
  cbn [length] in *. rewrite IH. lia.
Qed.

Lemma transform_points_spec (transform : option Matrix4) (path : list (R * R))
    (acc coords_3d : list Vector3) :
  for_each (λ (acc : list Vector3) point,
              p ← transform_point point transform; Ok (acc ++ [p])) path acc = Ok coords_3d →
  ∃ news, coords_3d = acc ++ news ∧
          Forall2 (λ point p, transform_point point transform = Ok p) path news.
Proof.
  revert acc. induction path as [|point path IH]; intros acc; cbn [for_each].
  - intros [= <-]. exists []. rewrite app_nil_r. split; [done|constructor].
  - destruct (transform_point point transform) as [p|] eqn:Hp; [|done]. outcome_simpl.
    intros Hrest. apply IH in Hrest as (news & -> & Hall).
    exists (p :: news). rewrite <- (assoc_L (++)). split; [done|]. by constructor.
Qed.

Lemma segments_of_path_spec (transform : option Matrix4) (acc result : list (list Segment))
    (path : list (R * R)) :
  segments_of_path transform acc path = Ok result →
  ∃ segments, result = acc ++ [segments] ∧ segments_from transform path segments.
Proof.
  unfold segments_of_path.
  destruct (for_each _ path []) as [coords_3d|] eqn:Hc; [|done]. outcome_simpl.
  apply transform_points_spec in Hc as (news & -> & Hall). rewrite app_nil_l.
  assert (length path = length news) as Hlen by (by eapply Forall2_length).
  destruct news as [|c rest]; [done|]. set (news := c :: rest) in *.
  intros Hres. exists (zip (removelast news) (tail news)).
  split; [by injection Hres as <-|]. clear Hres.
  split; [|split].
  - intros ->. done.
  - rewrite Hlen. apply consecutive_pairs_length.
  - intros a b. etrans; [apply consecutive_pairs|]. split.
    + intros (j & Ha & Hb).
      destruct (Forall2_lookup_r _ _ _ _ _ Hall Ha) as (p & Hp & Hpa).
      destruct (Forall2_lookup_r _ _ _ _ _ Hall Hb) as (q & Hq & Hqb).
      by exists j, p, q.
    + intros (j & p & q & Hp & Hq & Hpa & Hqb). exists j.
      destruct (Forall2_lookup_l _ _ _ _ _ Hall Hp) as (a' & Ha & Hpa').
      destruct (Forall2_lookup_l _ _ _ _ _ Hall Hq) as (b' & Hb & Hqb').
      split; congruence.
Qed.

Lemma segments_of_paths_spec (transform : option Matrix4) (paths : list (list (R * R)))
    (acc result : list (list Segment)) :
  for_each (segments_of_path transform) paths acc = Ok result →
  ∃ news, result = acc ++ news ∧ Forall2 (segments_from transform) paths news.
Proof.
  revert acc. induction paths as [|path paths IH]; intros acc; cbn [for_each].
  - intros [= <-]. exists []. rewrite app_nil_r. split; [done|constructor].
  - destruct (segments_of_path transform acc path) as [acc1|] eqn:Hstep; [|done].
    outcome_simpl. intros Hrest.
    apply segments_of_path_spec in Hstep as (segments & -> & Hfrom).
    apply IH in Hrest as (news & -> & Hall).
    exists (segments :: news). rewrite <- (assoc_L (++)). split; [done|]. by constructor.
Qed.

Lemma segments_of_layers_spec (layers : list (list (list (R * R)) * option Matrix4))
    (acc result : list (list Segment)) :
  for_each (λ (all_segments : list (list Segment))
              (layer : list (list (R * R)) * option Matrix4),
              for_each (segments_of_path layer.2) layer.1 all_segments)
           layers acc = Ok result →
  ∃ newss, result = acc ++ concat newss ∧
           Forall2 (λ layer news, Forall2 (segments_from layer.2) layer.1 news) layers newss.
Proof.
  revert acc. induction layers as [|layer layers IH]; intros acc; cbn [for_each].
  - intros [= <-]. exists []. rewrite app_nil_r. split; [done|constructor].
  - destruct (for_each (segments_of_path layer.2) layer.1 acc) as [acc1|] eqn:Hstep; [|done].
    outcome_simpl. intros Hrest.
    apply segments_of_paths_spec in Hstep as (news & -> & Hfrom).
    apply IH in Hrest as (newss & -> & Hall).
    exists (news :: newss). cbn [concat]. rewrite <- (assoc_L (++)). split; [done|].
    by constructor.
Qed.

(** X24. The segments of the display.  When [paths_to_3d_segments] returns,
    every path of a layer that has a transform has at least one point, and
    the rows returned are exactly the segments that join two points
    following each other on such a path, each taken to 3D by the transform
    of its layer.  Layers beyond the last transform, and transforms beyond
    the last layer, are left out. *)
Theorem segments_join_consecutive_points (layer_paths : list (list (list (R * R))))
    (transformation_matrices : list (option Matrix4)) (segments : list Segment) :
  paths_to_3d_segments layer_paths transformation_matrices = Ok segments →
  (∀ (i : nat) paths transform path,
     layer_paths !! i = Some paths → transformation_matrices !! i = Some transform →
     path ∈ paths → path ≠ []) ∧
  ∀ a b, (a, b) ∈ segments ↔
         ∃ transform p q,
           consecutive_on_layer layer_paths transformation_matrices transform p q ∧
           transform_point p transform = Ok a ∧ transform_point q transform = Ok b.
Proof.
  unfold paths_to_3d_segments.
  destruct (for_each _ (zip layer_paths transformation_matrices) []) as [all|] eqn:Hloop;
    [|done].
  outcome_simpl. intros [= <-].
  apply segments_of_layers_spec in Hloop as (newss & -> & Hall). rewrite app_nil_l.
  assert (∀ (i : nat) paths transform path,
            layer_paths !! i = Some paths → transformation_matrices !! i = Some transform →
            path ∈ paths →
            ∃ news segs, newss !! i = Some news ∧ segs ∈ news ∧
                         segments_from transform path segs) as Hfind.
  { intros i paths transform path Hpaths Htransform Hin.
    assert (zip layer_paths transformation_matrices !! i = Some (paths, transform)) as Hzip.
    { apply lookup_zip_with_Some. by exists paths, transform. }
    destruct (Forall2_lookup_l _ _ _ _ _ Hall Hzip) as (news & Hnews & Hlayer).
    cbn [fst snd] in Hlayer.
    apply list_elem_of_lookup in Hin as [k Hk].
    destruct (Forall2_lookup_l _ _ _ _ _ Hlayer Hk) as (segs & Hsegs & Hfrom).
    exists news, segs. split; [done|]. split; [|done].
    apply list_elem_of_lookup. by exists k. }
  split.
  - intros i paths transform path Hpaths Htransform Hin.
    destruct (Hfind _ _ _ _ Hpaths Htransform Hin) as (news & segs & _ & _ & Hne & _).
    exact Hne.
  - intros a b. rewrite elem_of_concat. split.
    + intros (segs & Hab & Hsegs). apply elem_of_concat in Hsegs as (news & Hsegs & Hnews).
      apply list_elem_of_lookup in Hnews as [i Hi].
      destruct (Forall2_lookup_r _ _ _ _ _ Hall Hi) as ([paths transform] & Hzip & Hlayer).
      cbn [fst snd] in Hlayer.
      apply lookup_zip_with_Some in Hzip as (paths' & transform' & [= <- <-] & Hp & Ht).
      apply list_elem_of_lookup in Hsegs as [k Hk].
      destruct (Forall2_lookup_r _ _ _ _ _ Hlayer Hk) as (path & Hpath & _ & _ & Hfrom).
      apply Hfrom in Hab as (j & p & q & Hp' & Hq' & Hpa & Hqb).
      exists transform, p, q. split; [|done].
      exists i, j, paths, path. split; [done|]. split; [done|]. split; [|done].
      apply list_elem_of_lookup. by exists k.
    + intros (transform & p & q & (i & j & paths & path & Hp & Ht & Hin & Hpj & Hqj) & Hpa & Hqb).
      destruct (Hfind _ _ _ _ Hp Ht Hin) as (news & segs & Hnews & Hsegs & _ & _ & Hfrom).
      exists segs. split.
      * apply Hfrom. by exists j, p, q.
      * apply elem_of_concat. exists news. split; [done|].
        apply list_elem_of_lookup. by exists i.
Qed.

Lemma segments_join_consecutive_points_example :
  ∃ segments,
    paths_to_3d_segments [[[(0, 0); (1, 0); (1, 1)]%R]; [[(5, 5)%R]]]
      [Some ((1, 0, 0, 0), (0, 1, 0, 0), (0, 0, 1, 2), (0, 0, 0, 1))%R] = Ok segments ∧
    (∀ (i : nat) paths transform path,
       [[[(0, 0); (1, 0); (1, 1)]%R]; [[(5, 5)%R]]] !! i = Some paths →
       [Some ((1, 0, 0, 0), (0, 1, 0, 0), (0, 0, 1, 2), (0, 0, 0, 1))%R] !! i =
         Some transform →
       path ∈ paths → path ≠ []) ∧
    ∀ a b, (a, b) ∈ segments ↔
           ∃ transform p q,
             consecutive_on_layer [[[(0, 0); (1, 0); (1, 1)]%R]; [[(5, 5)%R]]]
               [Some ((1, 0, 0, 0), (0, 1, 0, 0), (0, 0, 1, 2), (0, 0, 0, 1))%R]
               transform p q ∧
             transform_point p transform = Ok a ∧ transform_point q transform = Ok b.
Proof.
  eexists. split; [reflexivity|].
  apply (segments_join_consecutive_points [[[(0, 0); (1, 0); (1, 1)]%R]; [[(5, 5)%R]]]
           [Some ((1, 0, 0, 0), (0, 1, 0, 0), (0, 0, 1, 2), (0, 0, 0, 1))%R]).
  reflexivity.
Defined.

(** ** Hatch lines *)

Section HatchProperties.
Context `{!Numpy}.

Lemma rotate_0 (line : Line) : rotate 0 line = line.
Proof.
  destruct line as [[x1 y1] [x2 y2]]. unfold rotate, rotate_point. cbn [fst snd].
  replace (0 * PI / 180)%R with 0%R by lra. rewrite cos_0, sin_0.
  f_equal; f_equal; lra.
Qed.

Lemma Ycoords_lookup (Ypositive : list R) (s : R) (k : nat) (y : R) :
  (∀ (i : nat) v, Ypositive !! i = Some v → v = ((INR i + 1) * s)%R) →
  (map Ropp (reverse Ypositive) ++ [0%R] ++ Ypositive) !! k = Some y →
  y = ((INR k - INR (length Ypositive)) * s)%R.
Proof.
  intros Hpos Hk. set (n := length Ypositive).
  destruct (Nat.lt_trichotomy k n) as [Hlt|[->|Hgt]].
  - rewrite lookup_app_l in Hk by (rewrite length_map, length_reverse; done).
    rewrite list_lookup_fmap, reverse_lookup in Hk by done.
    destruct (Ypositive !! (length Ypositive - S k)%nat) as [v|] eqn:Hv; [|done].
    injection Hk as <-. apply Hpos in Hv as ->. fold n.
    rewrite minus_INR, S_INR by lia. lra.
  - rewrite lookup_app_r in Hk by (rewrite length_map, length_reverse; done).
    rewrite length_map, length_reverse, Nat.sub_diag in Hk. injection Hk as <-. lra.
  - rewrite lookup_app_r in Hk by (rewrite length_map, length_reverse; fold n; lia).
    rewrite length_map, length_reverse in Hk. fold n in Hk.
    destruct (k - n)%nat as [|i] eqn:Hi; [lia|]. cbn in Hk.
    apply Hpos in Hk as ->. replace k with (S i + n)%nat by lia.
    rewrite plus_INR, S_INR. lra.
Qed.

Lemma np_arange_R_spec (s stop : R) :
  s ≠ 0%R →
  ∃ Ypositive, np_arange_R s stop s = Ok Ypositive ∧
    length Ypositive = lines_per_side stop s ∧
    ∀ (i : nat) v, Ypositive !! i = Some v → v = ((INR i + 1) * s)%R.
Proof.
  intros Hs. unfold np_arange_R. destruct (Req_dec_T s 0) as [?|_]; [done|].
  eexists. split; [done|]. split.
  - by rewrite length_map, length_seqZ.
  - intros i v Hv. rewrite list_lookup_fmap in Hv.
    destruct (seqZ 0 _ !! i) as [z|] eqn:Hz; [|done]. injection Hv as <-.
    apply lookup_seqZ in Hz as [-> _]. rewrite Z.add_0_l, <- INR_IZR_INZ. lra.
Qed.

Lemma buildAreaLines_0_spec (buildRadius definedSpacing : R) :
  definedSpacing ≠ 0%R →
  ∃ lines, buildAreaLines_0 buildRadius definedSpacing = Ok lines ∧
    length lines = (2 * lines_per_side buildRadius definedSpacing + 1)%nat ∧
    ∀ (k : nat) line, lines !! k = Some line →
      ∃ y, y = ((IZR (Z.of_nat k) -
                 IZR (Z.of_nat (lines_per_side buildRadius definedSpacing))) *
                definedSpacing)%R ∧
           line = horizontal buildRadius y.
Proof.
  intros Hs. unfold buildAreaLines_0.
  destruct (np_arange_R_spec definedSpacing buildRadius Hs) as (Yp & -> & Hlen & Hvals).
  outcome_simpl. eexists. split; [done|]. split.
  - rewrite length_map, !length_app, length_map, length_reverse, Hlen. cbn. lia.
  - intros k line Hline. rewrite list_lookup_fmap in Hline.
    destruct ((map Ropp (reverse Yp) ++ [0%R] ++ Yp) !! k) as [y|] eqn:Hy; [|done].
    injection Hline as <-. exists y. split; [|done].
    rewrite <- !INR_IZR_INZ, <- Hlen. by eapply Ycoords_lookup.
Qed.

Lemma rotated_lines_spec (buildRadius definedSpacing angle : R) (lines : list Line) :
  (length lines = (2 * lines_per_side buildRadius definedSpacing + 1)%nat ∧
   ∀ (k : nat) line, lines !! k = Some line →
     ∃ y, y = ((IZR (Z.of_nat k) -
                IZR (Z.of_nat (lines_per_side buildRadius definedSpacing))) *
               definedSpacing)%R ∧
          line = horizontal buildRadius y) →
  evenly_spaced buildRadius definedSpacing angle
    (lines_per_side buildRadius definedSpacing) (map (rotate angle) lines).
Proof.
  intros [Hlen Hlines]. split; [by rewrite length_map|].
  intros k line Hline. rewrite list_lookup_fmap in Hline.
  destruct (lines !! k) as [line0|] eqn:Hk; [|done]. injection Hline as <-.
  destruct (Hlines _ _ Hk) as (y & Hy & ->). by exists y.
Qed.

Lemma direction_rotated (buildRadius angle y : R) :
  direction (rotate angle (horizontal buildRadius y)) =
  (2 * buildRadius * cos (angle * PI / 180), 2 * buildRadius * sin (angle * PI / 180))%R.
Proof.
  unfold direction, rotate, rotate_point, horizontal. cbn [fst snd]. f_equal; lra.
Qed.

Lemma dot2_rotated (buildRadius a1 a2 y1 y2 : R) :
  dot2 (direction (rotate a1 (horizontal buildRadius y1)))
       (direction (rotate a2 (horizontal buildRadius y2))) =
  (4 * buildRadius * buildRadius * cos ((a1 - a2) * PI / 180))%R.
Proof.
  rewrite !direction_rotated. unfold dot2. cbn [fst snd].
  replace ((a1 - a2) * PI / 180)%R with (a1 * PI / 180 - a2 * PI / 180)%R by lra.
  rewrite cos_minus. ring.
Qed.

End HatchProperties.

(** X25. The hatch of the solid infill.  For a line width that is not
    zero, [define_alternating_infill_hatches_once] returns two lists of
    [2 n + 1] lines each, [n] being the number of values that numpy counts
    for [np.arange(w, R, w)]: the horizontal chords of the build plate at
    the heights [-n w, ..., -w, 0, w, ..., n w], one line width apart,
    turned by 45 degrees in the first list and by 135 degrees in the
    second.  Every line of the first list is perpendicular to every line
    of the second one. *)
Theorem alternating_hatches_are_even_and_perpendicular `{!Numpy}
    (buildRadius lineWidth : R) :
  lineWidth ≠ 0%R →
  let n := lines_per_side buildRadius lineWidth in
  ∃ buildAreaLines_plus_45 buildAreaLines_minus_45,
    define_alternating_infill_hatches_once buildRadius lineWidth =
      Ok (buildAreaLines_plus_45, buildAreaLines_minus_45) ∧
    evenly_spaced buildRadius lineWidth 45 n buildAreaLines_plus_45 ∧
    evenly_spaced buildRadius lineWidth 135 n buildAreaLines_minus_45 ∧
    ∀ line1 line2, line1 ∈ buildAreaLines_plus_45 → line2 ∈ buildAreaLines_minus_45 →
      dot2 (direction line1) (direction line2) = 0%R.
Proof.
  intros Hw n. unfold define_alternating_infill_hatches_once.
  destruct (buildAreaLines_0_spec buildRadius lineWidth) as (lines & -> & Hspec); [done|].
  outcome_simpl. eexists _, _. split; [done|].
  pose proof (rotated_lines_spec buildRadius lineWidth 45 lines Hspec) as Hplus.
  pose proof (rotated_lines_spec buildRadius lineWidth 135 lines Hspec) as Hminus.
  split; [done|]. split; [done|].
  intros line1 line2 Hin1 Hin2.
  apply list_elem_of_lookup in Hin1 as [k1 Hk1]. apply list_elem_of_lookup in Hin2 as [k2 Hk2].
  destruct Hplus as [_ Hplus]. destruct Hminus as [_ Hminus].
  destruct (Hplus _ _ Hk1) as (y1 & _ & ->). destruct (Hminus _ _ Hk2) as (y2 & _ & ->).
  rewrite dot2_rotated.
  replace ((45 - 135) * PI / 180)%R with (- (PI / 2))%R by lra.
  rewrite cos_neg, cos_PI2. lra.
Qed.

Lemma alternating_hatches_are_even_and_perpendicular_example :
  ∃ buildAreaLines_plus_45 buildAreaLines_minus_45,
    define_alternating_infill_hatches_once 150 (1 / 2) =
      Ok (buildAreaLines_plus_45, buildAreaLines_minus_45) ∧
    evenly_spaced 150 (1 / 2) 45 (lines_per_side 150 (1 / 2)) buildAreaLines_plus_45 ∧
    evenly_spaced 150 (1 / 2) 135 (lines_per_side 150 (1 / 2)) buildAreaLines_minus_45 ∧
    ∀ line1 line2, line1 ∈ buildAreaLines_plus_45 → line2 ∈ buildAreaLines_minus_45 →
      dot2 (direction line1) (direction line2) = 0%R.
Proof.
  apply (alternating_hatches_are_even_and_perpendicular 150 (1 / 2)). lra.
Defined.

(** X26. The hatch of the internal infill.  For an infill that is not
    strictly between 0 and 100%, [define_monolithic_infill_hatch_once]
    returns [None].  Otherwise, for the triangular type and a spacing
    [s = round(3 w / infill, 3)] that is not zero, it returns three
    families of [2 n + 1] chords of the build plate, [s] apart, at 0, 60
    and 120 degrees, [n] being the number of values that numpy counts for
    [np.arange(s, R, s)], so that two lines of different families always
    make an angle of 60 degrees; for any other type, [Grid] included, it
    raises [UnboundLocalError]. *)
Theorem monolithic_hatch_is_triangular `{!Numpy} (infillType : string)
    (buildRadius lineWidth infillPercentage : R) :
  let s := round_R (3 * (lineWidth / infillPercentage)) 3 in
  let n := lines_per_side buildRadius s in
  ((infillPercentage <= 0 ∨ 1 <= infillPercentage)%R →
   define_monolithic_infill_hatch_once infillType buildRadius lineWidth infillPercentage =
     Ok None) ∧
  ((0 < infillPercentage < 1)%R → infillType ≠ "Triangular" →
   define_monolithic_infill_hatch_once infillType buildRadius lineWidth infillPercentage =
     Raise UnboundLocalError) ∧
  ((0 < infillPercentage < 1)%R → infillType = "Triangular" → s ≠ 0%R →
   ∃ lines_0 lines_60 lines_120,
     define_monolithic_infill_hatch_once infillType buildRadius lineWidth infillPercentage =
       Ok (Some (lines_0 ++ lines_60 ++ lines_120)) ∧
     evenly_spaced buildRadius s 0 n lines_0 ∧
     evenly_spaced buildRadius s 60 n lines_60 ∧
     evenly_spaced buildRadius s 120 n lines_120 ∧
     ∀ line1 line2,
       (line1 ∈ lines_0 ∧ line2 ∈ lines_60) ∨ (line1 ∈ lines_60 ∧ line2 ∈ lines_120) ∨
       (line1 ∈ lines_120 ∧ line2 ∈ lines_0) →
       Rabs (dot2 (direction line1) (direction line2)) =
       (2 * buildRadius * buildRadius)%R).
Proof.
  intros s n. unfold define_monolithic_infill_hatch_once. split; [|split].
  - intros [Hle|Hge].
    + by destruct (Rle_dec infillPercentage 0).
    + destruct (Rle_dec infillPercentage 0); [done|]. by destruct (Rle_dec 1 infillPercentage).
  - intros [Hlo Hhi] Hty.
    destruct (Rle_dec infillPercentage 0); [lra|].
    destruct (Rle_dec 1 infillPercentage); [lra|].
    by apply String.eqb_neq in Hty as ->.
  - intros [Hlo Hhi] -> Hs.
    destruct (Rle_dec infillPercentage 0); [lra|].
    destruct (Rle_dec 1 infillPercentage); [lra|].
    rewrite String.eqb_refl. fold s.
    destruct (buildAreaLines_0_spec buildRadius s Hs) as (lines & -> & Hspec).
    outcome_simpl. exists lines, (map (rotate 60) lines), (map (rotate 120) lines).
    split; [done|].
    pose proof (rotated_lines_spec buildRadius s 0 lines Hspec) as H0.
    pose proof (rotated_lines_spec buildRadius s 60 lines Hspec) as H60.
    pose proof (rotated_lines_spec buildRadius s 120 lines Hspec) as H120.
    assert (map (rotate 0) lines = lines) as Hid.
    { clear. induction lines as [|l lines IH]; [done|]. cbn [map]. by rewrite rotate_0, IH. }
    rewrite Hid in H0.
    split; [done|]. split; [done|]. split; [done|].
    assert (∀ a1 a2 l1 l2 (ls1 ls2 : list Line),
              evenly_spaced buildRadius s a1 n ls1 → evenly_spaced buildRadius s a2 n ls2 →
              l1 ∈ ls1 → l2 ∈ ls2 →
              dot2 (direction l1) (direction l2) =
              (4 * buildRadius * buildRadius * cos ((a1 - a2) * PI / 180))%R) as Hdot.
    { intros a1 a2 l1 l2 ls1 ls2 [_ H1] [_ H2] Hin1 Hin2.
      apply list_elem_of_lookup in Hin1 as [k1 Hk1].
      apply list_elem_of_lookup in Hin2 as [k2 Hk2].
      destruct (H1 _ _ Hk1) as (y1 & _ & ->). destruct (H2 _ _ Hk2) as (y2 & _ & ->).
      apply dot2_rotated. }
    assert (0 <= 2 * buildRadius * buildRadius)%R as Hsq by nra.
    intros line1 line2 [[Hin1 Hin2]|[[Hin1 Hin2]|[Hin1 Hin2]]].
    + rewrite (Hdot 0%R 60%R _ _ _ _ H0 H60 Hin1 Hin2).
      replace ((0 - 60) * PI / 180)%R with (- (PI / 3))%R by lra.
      rewrite cos_neg, cos_PI3.
      replace (4 * buildRadius * buildRadius * (1 / 2))%R
        with (2 * buildRadius * buildRadius)%R by lra.
      by apply Rabs_pos_eq.
    + rewrite (Hdot 60%R 120%R _ _ _ _ H60 H120 Hin1 Hin2).
      replace ((60 - 120) * PI / 180)%R with (- (PI / 3))%R by lra.
      rewrite cos_neg, cos_PI3.
      replace (4 * buildRadius * buildRadius * (1 / 2))%R
        with (2 * buildRadius * buildRadius)%R by lra.
      by apply Rabs_pos_eq.
    + rewrite (Hdot 120%R 0%R _ _ _ _ H120 H0 Hin1 Hin2).
      replace ((120 - 0) * PI / 180)%R with (2 * (PI / 3))%R by lra.
      rewrite cos_2PI3.
      replace (4 * buildRadius * buildRadius * (-1 / 2))%R
        with (- (2 * buildRadius * buildRadius))%R by lra.
      rewrite Rabs_Ropp. by apply Rabs_pos_eq.
Qed.

(** ** The single-direction writer *)

Lemma fold_next_speeds c F travel rest st loc :
  ∃ cmds,
    written (fold_left (transcribe_next_point c F) rest (st, loc)).1 = written st ++ cmds ∧
    Forall (λ cmd, Gcode3Axis.at_speeds travel F (Gcode3Axis.Move cmd)) cmds.
Proof.
  revert st loc. induction rest as [|q rest IH]; intros st loc.
  - exists []. cbn. by rewrite app_nil_r.
  - cbn [fold_left]. set (a := transcribe_next_point c F (st, loc) q).
    destruct (IH a.1 a.2) as (cmds & Hw & Hall).
    rewrite <- surjective_pairing in Hw. rewrite Hw.
    subst a. unfold transcribe_next_point. cbn [written fst].
    eexists. split; [by rewrite <- (assoc_L (++))|].
    apply Forall_app. split; [|done].
    destruct (runOnce loc), (enableZHop c), (enableRetraction c); cbn [when app];
      repeat constructor.
Qed.

Lemma transcribe_speeds five_axis c pathPoints F run_once new_chunk st :
  ∃ cmds,
    written (transcribe five_axis c pathPoints F run_once new_chunk st) = written st ++ cmds ∧
    Forall (λ cmd, Gcode3Axis.at_speeds (G0XY_FEEDRATE c) F (Gcode3Axis.Move cmd)) cmds.
Proof.
  destruct pathPoints as [|first rest].
  - exists []. cbn. by rewrite app_nil_r.
  - unfold transcribe.
    set (a := transcribe_first_point five_axis c run_once new_chunk first st).
    destruct (fold_next_speeds c F (G0XY_FEEDRATE c) rest a.1 a.2) as (cmds & Hw & Hall).
    rewrite <- surjective_pairing in Hw. rewrite Hw.
    subst a. unfold transcribe_first_point.
    destruct run_once; cbn [write written fst].
    + eexists. split; [by rewrite <- !(assoc_L (++))|].
      repeat (apply Forall_app; split); try done;
        destruct (enableZHop c), (enableRetraction c), (five_axis && new_chunk);
        cbn [when]; repeat constructor.
    + eexists. split; [by rewrite <- !(assoc_L (++))|].
      repeat (apply Forall_app; split); try done;
        destruct (enableZHop c), (enableRetraction c), (five_axis && new_chunk);
        cbn [when]; repeat constructor.
Qed.

Lemma transcribe_paths_spec c F (paths : list (list (R * R))) (s : Gcode3Axis.BodyState)
    (run_once : bool) :
  ∃ lines,
    Gcode3Axis.openFile (fold_left (Gcode3Axis.transcribe_path c F) paths (s, run_once)).1 =
      Gcode3Axis.openFile s ++ lines ∧
    Forall (Gcode3Axis.at_speeds (G0XY_FEEDRATE c) F) lines ∧
    Gcode3Axis.nozzleHeight (fold_left (Gcode3Axis.transcribe_path c F) paths (s, run_once)).1 =
      Gcode3Axis.nozzleHeight s.
Proof.
  revert s run_once. induction paths as [|path paths IH]; intros s run_once.
  - exists []. cbn. by rewrite app_nil_r.
  - cbn [fold_left]. set (a := Gcode3Axis.transcribe_path c F (s, run_once) path).
    destruct (IH a.1 a.2) as (lines & Hw & Hall & Hnozzle).
    rewrite <- surjective_pairing in Hw, Hnozzle. rewrite Hw, Hnozzle.
    subst a. unfold Gcode3Axis.transcribe_path, Write3Axis.transcribe_pathPoints_to_gcode.
    cbn [fst snd Gcode3Axis.openFile Gcode3Axis.nozzleHeight].
    destruct (transcribe_speeds false c path F run_once false
                {| E := Gcode3Axis.body_E s; previousE := Gcode3Axis.body_previousE s;
                   written := [] |}) as (cmds & -> & Hcmds).
    cbn [written app]. eexists. split; [by rewrite <- (assoc_L (++))|]. split; [|done].
    apply Forall_app. split; [|done]. by apply Forall_fmap.
Qed.

Lemma write_feature_spec c F (title : list Gcode3Axis.gline) (paths : list (list (R * R)))
    (s : Gcode3Axis.BodyState) :
  Forall (Gcode3Axis.at_speeds (G0XY_FEEDRATE c) F) title →
  ∃ lines,
    Gcode3Axis.openFile (Gcode3Axis.write_feature c F title paths s) =
      Gcode3Axis.openFile s ++ lines ∧
    Forall (Gcode3Axis.at_speeds (G0XY_FEEDRATE c) F) lines ∧
    Gcode3Axis.nozzleHeight (Gcode3Axis.write_feature c F title paths s) =
      Gcode3Axis.nozzleHeight s.
Proof.
  intros Htitle. unfold Gcode3Axis.write_feature.
  destruct (transcribe_paths_spec c F paths (Gcode3Axis.write_lines title s) true)
    as (lines & -> & Hall & ->).
  cbn [Gcode3Axis.write_lines Gcode3Axis.openFile Gcode3Axis.nozzleHeight].
  eexists. split; [by rewrite <- (assoc_L (++))|]. split; [|done].
  by apply Forall_app.
Qed.

Lemma write_infill_spec c F (title : string) (infills : list (list (list (R * R))))
    (s s' : Gcode3Axis.BodyState) :
  Gcode3Axis.write_infill c F title infills s = Ok s' →
  ∃ lines,
    Gcode3Axis.openFile s' = Gcode3Axis.openFile s ++ lines ∧
    Forall (Gcode3Axis.at_speeds (G0XY_FEEDRATE c) F) lines ∧
    Gcode3Axis.nozzleHeight s' = Gcode3Axis.nozzleHeight s.
Proof.
  unfold Gcode3Axis.write_infill. destruct infills as [|line infills].
  - intros [= <-]. exists []. by rewrite app_nil_r.
  - destruct (Gcode3Axis.first_lines (line :: infills)) as [paths|]; [|done]. outcome_simpl.
    intros [= <-]. apply write_feature_spec. by repeat constructor.
Qed.

Section WriterProperties.
Variable printSettings : Gcode3Axis.PrintSettings.
Variable transform3DList : list (option Matrix4).
Variable adhesionList : list (list (list (list (R * R)))).
Variable shellRingsListList : list (list (list (R * R))).
Variable optimizedInternalInfills optimizedSolidInfills : list (list (list (list (R * R)))).

Local Abbreviation write_layer :=
  (Gcode3Axis.write_layer printSettings transform3DList adhesionList shellRingsListList
     optimizedInternalInfills optimizedSolidInfills).
Local Abbreviation at_layer_speeds k :=
  (Gcode3Axis.at_speeds (Gcode3Axis.G0XY_FEEDRATE printSettings k)
     (Gcode3Axis.PRINT_FEEDRATE printSettings k)).

Lemma write_layer_spec (s s' : Gcode3Axis.BodyState) (k : Z) :
  write_layer s k = Ok s' →
  ∃ transform lines,
    py_getitem transform3DList k = Ok transform ∧
    Gcode3Axis.openFile s' = Gcode3Axis.openFile s ++ Gcode3Axis.Layer k :: lines ∧
    Forall (at_layer_speeds k) lines ∧
    (transform = None → Gcode3Axis.nozzleHeight s' = Gcode3Axis.nozzleHeight s) ∧
    (transform ≠ None → Gcode3Axis.nozzleHeight s' ≠ None).
Proof.
  unfold Gcode3Axis.write_layer.
  set (tempLines :=
         if k =? 1
         then [Gcode3Axis.M104 (Gcode3Axis.nozzleTemp printSettings);
               Gcode3Axis.M140 (Gcode3Axis.bedTemp printSettings)]
         else []).
  set (s1 := if k =? 1 then _ else _).
  assert (Gcode3Axis.openFile s1 = Gcode3Axis.openFile s ++ Gcode3Axis.Layer k :: tempLines ∧
          Gcode3Axis.nozzleHeight s1 = Gcode3Axis.nozzleHeight s) as [Hfile1 Hnozzle1].
  { subst s1 tempLines. destruct (k =? 1); cbn; rewrite <- ?(assoc_L (++)); done. }
  assert (Forall (Gcode3Axis.at_speeds (Gcode3Axis.G0XY_FEEDRATE printSettings k)
                    (Gcode3Axis.PRINT_FEEDRATE printSettings k)) tempLines) as Htemp.
  { subst tempLines. destruct (k =? 1); repeat constructor. }
  clearbody s1 tempLines.
  destruct (py_getitem transform3DList k) as [transform|] eqn:Htransform; [|done].
  outcome_simpl. intros Hres. exists transform. revert Hres.
  destruct transform as [[[[r0 r1] r2] r3]|].
  2: { intros [= <-]. exists tempLines. rewrite Hfile1, Hnozzle1. done. }
  set (h := (r2.2 + 0.5 * Gcode3Axis.layerHeight printSettings)%R).
  set (c := Gcode3Axis.context printSettings k h).
  set (F := Gcode3Axis.PRINT_FEEDRATE printSettings k).
  set (s2 := {| Gcode3Axis.body_E := _ |}).
  assert (G0XY_FEEDRATE c = Gcode3Axis.G0XY_FEEDRATE printSettings k) as Hc by done.
  destruct (if k =? 0 then _ else Ok s2) as [s3|] eqn:Hadhesion; [|done]. outcome_simpl.
  assert (∃ lines3, Gcode3Axis.openFile s3 = Gcode3Axis.openFile s2 ++ lines3 ∧
            Forall (Gcode3Axis.at_speeds (G0XY_FEEDRATE c) F) lines3 ∧
            Gcode3Axis.nozzleHeight s3 = Gcode3Axis.nozzleHeight s2)
    as (lines3 & Hfile3 & Hall3 & Hnozzle3).
  { destruct (k =? 0).
    - destruct (py_getitem adhesionList 0) as [adhesion|]; [|done].
      revert Hadhesion. outcome_simpl. destruct adhesion as [|level adhesion].
      + intros [= <-]. exists []. by rewrite app_nil_r.
      + intros [= <-]. apply write_feature_spec.
        destruct (Gcode3Axis.enableBrim printSettings); repeat constructor.
    - injection Hadhesion as <-. exists []. by rewrite app_nil_r. }
  destruct (py_getitem shellRingsListList k) as [shells|]; [|done]. outcome_simpl.
  set (s4 := match shells with [] => s3 | _ :: _ => _ end).
  assert (∃ lines4, Gcode3Axis.openFile s4 = Gcode3Axis.openFile s3 ++ lines4 ∧
            Forall (Gcode3Axis.at_speeds (G0XY_FEEDRATE c) F) lines4 ∧
            Gcode3Axis.nozzleHeight s4 = Gcode3Axis.nozzleHeight s3)
    as (lines4 & Hfile4 & Hall4 & Hnozzle4).
  { subst s4. destruct shells as [|ring shells].
    - exists []. by rewrite app_nil_r.
    - apply write_feature_spec. by repeat constructor. }
  clearbody s4.
  destruct (py_getitem optimizedSolidInfills k) as [solidInfills|]; [|done]. outcome_simpl.
  destruct (Gcode3Axis.write_infill c F "Solid Infill" solidInfills s4) as [s5|] eqn:Hsolid;
    [|done].
  outcome_simpl. apply write_infill_spec in Hsolid as (lines5 & Hfile5 & Hall5 & Hnozzle5).
  destruct (py_getitem optimizedInternalInfills k) as [internalInfills|]; [|done].
  outcome_simpl. intros Hinternal.
  apply write_infill_spec in Hinternal as (lines6 & Hfile6 & Hall6 & Hnozzle6).
  exists (tempLines ++ [Gcode3Axis.Move (G0_Z (Gcode3Axis.G0Z_FEEDRATE printSettings)
                                           (round_R h 5))]
          ++ lines3 ++ lines4 ++ lines5 ++ lines6).
  split; [done|]. split; [|split; [|split; [done|]]].
  - rewrite Hfile6, Hfile5, Hfile4, Hfile3. subst s2. cbn [Gcode3Axis.openFile].
    rewrite Hfile1. rewrite <- !(assoc_L (++)). done.
  - rewrite Hc in *. repeat (apply Forall_app; split); try done. by repeat constructor.
  - intros _. rewrite Hnozzle6, Hnozzle5, Hnozzle4, Hnozzle3. done.
Qed.

Lemma write_layers_spec (n : nat) (a : Z) (s s' : Gcode3Axis.BodyState) :
  for_each write_layer (seqZ a (Z.of_nat n)) s = Ok s' →
  ∃ layers,
    Gcode3Axis.openFile s' = Gcode3Axis.openFile s ++ concat layers ∧
    length layers = n ∧
    (∀ (i : nat) lines, layers !! i = Some lines →
       ∃ rest, lines = Gcode3Axis.Layer (a + Z.of_nat i) :: rest ∧
               Forall (at_layer_speeds (a + Z.of_nat i)) rest) ∧
    ((∀ i : nat, (i < n)%nat → py_getitem transform3DList (a + Z.of_nat i) = Ok None) →
     Gcode3Axis.nozzleHeight s' = Gcode3Axis.nozzleHeight s).
Proof.
  revert a s. induction n as [|n IH]; intros a s.
  - cbn. intros [= <-]. exists []. rewrite app_nil_r. split; [done|]. split; [done|].
    split; [done|]. done.
  - replace (Z.of_nat (S n)) with (Z.succ (Z.of_nat n)) by lia.
    rewrite seqZ_cons by lia. rewrite Z.pred_succ. cbn [for_each].
    destruct (write_layer s a) as [s1|] eqn:Hlayer; [|done]. outcome_simpl.
    intros Hrest.
    apply write_layer_spec in Hlayer as (transform & lines & Ht & Hfile1 & Hall1 & Hnone & Hsome).
    apply IH in Hrest as (layers & Hfile & Hlen & Hlayers & Hkeep).
    exists ((Gcode3Axis.Layer a :: lines) :: layers).
    split; [|split; [|split]].
    + rewrite Hfile, Hfile1. cbn [concat]. by rewrite <- !(assoc_L (++)).
    + cbn. by rewrite Hlen.
    + intros [|i] ls Hls.
      * injection Hls as <-. exists lines. by rewrite Z.add_0_r.
      * cbn in Hls. destruct (Hlayers _ _ Hls) as (rest & -> & Hall).
        replace (a + Z.of_nat (S i)) with (Z.succ a + Z.of_nat i) by lia. by exists rest.
    + intros Hall. rewrite Hkeep.
      * apply Hnone. specialize (Hall 0%nat ltac:(lia)). rewrite Z.add_0_r in Hall.
        congruence.
      * intros i Hi. specialize (Hall (S i) ltac:(lia)).
        by replace (a + Z.of_nat (S i)) with (Z.succ a + Z.of_nat i) in Hall by lia.
Qed.

Lemma write_empty_layers (n : nat) (a : Z) (s : Gcode3Axis.BodyState) :
  (∀ i : nat, (i < n)%nat → py_getitem transform3DList (a + Z.of_nat i) = Ok None) →
  ∃ s', for_each write_layer (seqZ a (Z.of_nat n)) s = Ok s' ∧
        Gcode3Axis.nozzleHeight s' = Gcode3Axis.nozzleHeight s.
Proof.
  revert a s. induction n as [|n IH]; intros a s Hall.
  - by exists s.
  - replace (Z.of_nat (S n)) with (Z.succ (Z.of_nat n)) by lia.
    rewrite seqZ_cons by lia. rewrite Z.pred_succ. cbn [for_each].
    pose proof (Hall 0%nat ltac:(lia)) as H0. rewrite Z.add_0_r in H0.
    unfold Gcode3Axis.write_layer at 2. rewrite H0. outcome_simpl.
    set (s1 := if a =? 1 then _ else _).
    assert (Gcode3Axis.nozzleHeight s1 = Gcode3Axis.nozzleHeight s) as <-
      by (subst s1; by destruct (a =? 1)).
    apply IH. intros i Hi. specialize (Hall (S i) ltac:(lia)).
    by replace (a + Z.of_nat (S i)) with (Z.succ a + Z.of_nat i) in Hall by lia.
Qed.

End WriterProperties.

(** X27. Nothing to print.  When no layer has a transform (there are no
    layers, or every section is empty), [write_3_axis_gcode] raises
    [UnboundLocalError], whatever the other arguments: the footer reads
    the nozzle height, which no layer has set. *)
Theorem nothing_to_print_raises (printSettings : Gcode3Axis.PrintSettings)
    (transform3DList : list (option Matrix4))
    (adhesionList : list (list (list (list (R * R)))))
    (shellRingsListList : list (list (list (R * R))))
    (optimizedInternalInfills optimizedSolidInfills : list (list (list (list (R * R))))) :
  Forall (λ transform, transform = None) transform3DList →
  Gcode3Axis.write_3_axis_gcode printSettings transform3DList adhesionList shellRingsListList
    optimizedInternalInfills optimizedSolidInfills = Raise UnboundLocalError.
Proof.
  intros Hall. unfold Gcode3Axis.write_3_axis_gcode, py_range. rewrite Z.sub_0_r.
  edestruct (write_empty_layers printSettings transform3DList adhesionList shellRingsListList
               optimizedInternalInfills optimizedSolidInfills (length transform3DList) 0)
    as (s' & -> & Hnozzle).
  - intros i Hi. rewrite Z.add_0_l.
    destruct (lookup_lt_is_Some_2 transform3DList i Hi) as [t Ht].
    rewrite (py_getitem_lookup _ _ _ Ht). f_equal.
    by apply (proj1 (Forall_lookup _ _) Hall i t).
  - outcome_simpl. cbn [Gcode3Axis.write_lines Gcode3Axis.nozzleHeight].
    by rewrite Hnozzle.
Qed.

Lemma nothing_to_print_raises_example :
  Gcode3Axis.write_3_axis_gcode
    (Gcode3Axis.Build_PrintSettings 210 60 0.2 50 20 120 60 true true 5 40 true)
    [None; None] [[]; []] [[]; []] [[]; []] [[]; []] = Raise UnboundLocalError.
Proof.
  apply (nothing_to_print_raises
           (Gcode3Axis.Build_PrintSettings 210 60 0.2 50 20 120 60 true true 5 40 true)
           [None; None]).
  by repeat constructor.
Defined.


